(** * teach_Stationen: a CSV-driven image overlay (app.js)

    A shallow embedding of the parsing, model-building, popup-markup,
    popup-interaction, layout and start-up code of [app.js], with the
    properties its design document states about them.

    Layout of the file:
    - [JS]: the parts of the ECMAScript library the program calls
      (strings as sequences of UTF-16 code units, [trim], the backtracking
      regular-expression matcher, [replace], [parseFloat], [parseInt],
      [Number.isFinite]);
    - the program's own functions, under the names they have in [app.js];
    - lemmas about the library model, then the properties of the program:
      those that its design document states, and further ones that the
      code shows. *)

From Stdlib Require Import String Ascii.
From Stdlib Require Import List Bool Arith NArith ZArith Lia.
From Stdlib Require Import Floats DecimalString.
Import ListNotations.

Set Implicit Arguments.

(* ================================================================= *)
(** * The ECMAScript library, as far as app.js uses it *)

Module JS.

(** A JavaScript string is a finite sequence of UTF-16 code units. *)
#[warnings="-notation-for-abbreviation"]
Notation char := N (only parsing).
#[warnings="-notation-for-abbreviation"]
Notation str := (list char) (only parsing).

(** String literals of this file are ASCII; [lit] reads one as code units. *)
Definition lit (s : string) : str := map N_of_ascii (list_ascii_of_string s).

Definition LF : char := 10%N.
Definition CR : char := 13%N.
Definition QUOTE : char := 34%N.

Definition is_empty (s : str) : bool :=
  match s with [] => true | _ => false end.

(** WhiteSpace and LineTerminator code points: what [String.prototype.trim]
    strips and what [\s] matches. *)
Definition is_white_space (c : char) : bool :=
  ((9 <=? c) && (c <=? 13) || (c =? 32) || (c =? 160) || (c =? 5760)
   || (8192 <=? c) && (c <=? 8202) || (c =? 8232) || (c =? 8233)
   || (c =? 8239) || (c =? 8287) || (c =? 12288) || (c =? 65279))%N.

(** LineTerminator code points: what [.] refuses to match. *)
Definition is_line_terminator (c : char) : bool :=
  ((c =? 10) || (c =? 13) || (c =? 8232) || (c =? 8233))%N.

Definition is_digit (c : char) : bool := ((48 <=? c) && (c <=? 57))%N.

Fixpoint dropWhile (p : char -> bool) (s : str) : str :=
  match s with
  | [] => []
  | c :: s' => if p c then dropWhile p s' else s
  end.

Fixpoint takeWhile (p : char -> bool) (s : str) : str :=
  match s with
  | [] => []
  | c :: s' => if p c then c :: takeWhile p s' else []
  end.

Definition trimStart (s : str) : str := dropWhile is_white_space s.
Definition trimEnd (s : str) : str := rev (dropWhile is_white_space (rev s)).
Definition trim (s : str) : str := trimEnd (trimStart s).

(** [String.prototype.replaceAll] with a one-code-unit search string. *)
Fixpoint replaceAll1 (c : char) (by_ : str) (s : str) : str :=
  match s with
  | [] => []
  | x :: s' => (if N.eqb x c then by_ else [x]) ++ replaceAll1 c by_ s'
  end.

(* ----------------------------------------------------------------- *)
(** ** Regular expressions

    The matcher follows the continuation-passing semantics of the
    language specification: a pattern is run on a match state with a
    continuation for what follows it, alternatives are tried left to
    right, quantifiers are greedy and backtrack.  Only the constructs the
    program's patterns use are present. *)

Module RegExp.

Inductive re : Type :=
| Empty                        (* the empty pattern *)
| Class (p : char -> bool)     (* one code unit: a literal, a class, [.] *)
| Seq (r1 r2 : re)             (* r1r2 *)
| Alt (r1 r2 : re)             (* r1|r2 *)
| Star (r : re)                (* r*, greedy *)
| Group (n : nat) (r : re)     (* the n-th capturing group *)
| Bol                          (* ^ without the m flag *)
| Eol.                         (* $ without the m flag *)

Definition Plus (r : re) : re := Seq r (Star r).     (* r+ *)
Definition Opt (r : re) : re := Alt r Empty.         (* r?, greedy *)

Fixpoint Lits (ps : list (char -> bool)) : re :=
  match ps with
  | [] => Empty
  | p :: ps' => Seq (Class p) (Lits ps')
  end.

(** A pattern character. *)
Definition chr (a : ascii) : char -> bool := N.eqb (N_of_ascii a).

(** ASCII upper-casing.  Under the [i] flag (without [u]) two code units
    match when their canonical forms agree; the canonical form of a code
    unit above 127 is never below 128, so against an ASCII pattern
    character only ASCII code units can match, by ASCII case folding. *)
Definition upper (c : char) : char :=
  if ((97 <=? c) && (c <=? 122))%N then (c - 32)%N else c.

Definition chr_i (a : ascii) : char -> bool :=
  fun c => (c <? 128)%N && N.eqb (upper c) (upper (N_of_ascii a)).

(** A run of pattern characters under the [i] flag. *)
Definition Lit_i (s : string) : re := Lits (map chr_i (list_ascii_of_string s)).

Definition none_of (a : ascii) : char -> bool :=
  fun c => negb (N.eqb c (N_of_ascii a)).
Definition dot : char -> bool := fun c => negb (is_line_terminator c).

(** Match state: the index reached, the input from there on, and the
    captures made so far (slot [n] for group [n]). *)
Record state := mkState {
  pos : nat;
  rest : str;
  caps : list (option str)
}.

Fixpoint set_cap (n : nat) (v : str) (cs : list (option str))
  : list (option str) :=
  match n, cs with
  | O, [] => [Some v]
  | O, _ :: cs' => Some v :: cs'
  | S n', [] => None :: set_cap n' v []
  | S n', c :: cs' => c :: set_cap n' v cs'
  end.

Definition get_cap (n : nat) (cs : list (option str)) : str :=
  match nth n cs None with Some v => v | None => [] end.

Definition cont := state -> option state.

(** [loop] is the RepeatMatcher for [r*]: one more iteration of [r] (which
    must consume input, as the specification requires of an iteration
    once the minimum is reached), else the continuation.  An iteration
    consumes at least one code unit, so the length of the remaining input
    plus one bounds the number of iterations. *)
Fixpoint m (r : re) (x : state) (k : cont) {struct r} : option state :=
  match r with
  | Empty => k x
  | Class p =>
      match rest x with
      | c :: s' => if p c then k (mkState (S (pos x)) s' (caps x)) else None
      | [] => None
      end
  | Seq r1 r2 => m r1 x (fun y => m r2 y k)
  | Alt r1 r2 =>
      match m r1 x k with
      | Some z => Some z
      | None => m r2 x k
      end
  | Star r' =>
      (fix loop (fuel : nat) (x : state) {struct fuel} : option state :=
         match fuel with
         | O => k x
         | S fuel' =>
             match m r' x (fun y => if Nat.eqb (pos y) (pos x) then None
                                    else loop fuel' y) with
             | Some z => Some z
             | None => k x
             end
         end) (S (length (rest x))) x
  | Group n r' =>
      m r' x (fun y =>
        k (mkState (pos y) (rest y)
             (set_cap n (firstn (pos y - pos x) (rest x)) (caps y))))
  | Bol => if Nat.eqb (pos x) 0 then k x else None
  | Eol => match rest x with [] => k x | _ => None end
  end.

(** One attempt at index [i], the input from there on being [s]. *)
Definition match_at (r : re) (i : nat) (s : str) : option state :=
  m r (mkState i s []) (fun y => Some y).

(** RegExpBuiltinExec for a pattern without the sticky flag: the first
    index from [i] on at which the pattern matches.  Returns that index,
    the input from there on, and the final state. *)
Fixpoint exec_from (r : re) (i : nat) (s : str)
  : option (nat * str * state) :=
  match match_at r i s with
  | Some y => Some (i, s, y)
  | None =>
      match s with
      | [] => None
      | _ :: s' => exec_from r (S i) s'
      end
  end.

(** [RegExp.prototype.test] on a pattern without [g]. *)
Definition test (r : re) (s : str) : bool :=
  match exec_from r 0 s with Some _ => true | None => false end.

(** [String.prototype.match] on a pattern without [g]: the captures of the
    first match ([m[n]] is [get_cap n]), or null. *)
Definition match_ (r : re) (s : str) : option (list (option str)) :=
  match exec_from r 0 s with
  | Some (_, _, y) => Some (caps y)
  | None => None
  end.

(** [String.prototype.replace] with a pattern without [g]: the first match
    is replaced by what [f] makes of the captures. *)
Definition replace1 (r : re) (f : list (option str) -> str) (s : str) : str :=
  match exec_from r 0 s with
  | Some (i, _, y) => firstn i s ++ f (caps y) ++ rest y
  | None => s
  end.

(** [String.prototype.replace] with a [g] pattern: every match, found from
    left to right from where the previous one ended, is replaced.  After
    an empty match the search resumes one code unit further on. *)
Fixpoint replace_g_from (fuel : nat) (r : re) (f : list (option str) -> str)
    (i : nat) (s : str) : str :=
  match fuel with
  | O => s
  | S fuel' =>
      match exec_from r i s with
      | None => s
      | Some (j, sj, y) =>
          firstn (j - i) s ++ f (caps y) ++
          (if Nat.eqb (pos y) j then
             match rest y with
             | [] => []
             | c :: s' => c :: replace_g_from fuel' r f (S j) s'
             end
           else replace_g_from fuel' r f (pos y) (rest y))
      end
  end.

Definition replace_g (r : re) (f : list (option str) -> str) (s : str) : str :=
  replace_g_from (S (length s)) r f 0 s.

End RegExp.

(* ----------------------------------------------------------------- *)
(** ** Numbers

    A Number is an IEEE 754 binary64 value. *)

Definition Number := float.
Definition NaN : Number := nan.

(** [Number.isFinite] on a Number. *)
Definition isFinite (v : Number) : bool := is_finite v.

(** The Number for the mathematical value [(-1)^neg * m * 10^e]: the
    nearest binary64 value, ties to even, computed on exact integers
    (the language lets an engine look at the first twenty significant
    digits only; this is the value when it looks at all of them). *)
Definition Number_of_decimal (neg : bool) (m : N) (e : Z) : Number :=
  match m with
  | N0 => if neg then neg_zero else zero
  | Npos p =>
      SF2Prim
        (if (0 <=? e)%Z
         then binary_normalize prec emax
                (cond_Zopp neg (Zpos p * 10 ^ e)%Z) 0%Z false
         else SFdiv prec emax (S754_finite neg p 0%Z)
                (S754_finite false (Z.to_pos (10 ^ (- e))%Z) 0%Z))
  end.

(** The value of a sequence of decimal digits. *)
Definition digits_value (ds : str) : N :=
  fold_left (fun acc c => (10 * acc + (c - 48))%N) ds 0%N.

Definition split_sign (s : str) : bool * str :=
  match s with
  | c :: s' =>
      if N.eqb c 45 then (true, s')              (* - *)
      else if N.eqb c 43 then (false, s')        (* + *)
      else (false, s)
  | [] => (false, s)
  end.

Fixpoint starts_with (p s : str) : bool :=
  match p, s with
  | [], _ => true
  | a :: p', b :: s' => N.eqb a b && starts_with p' s'
  | _ :: _, [] => false
  end.

(** The ExponentPart of a StrDecimalLiteral at the head of [s], if there is
    a complete one: [e] or [E], an optional sign, at least one digit. *)
Definition exponent_part (s : str) : Z :=
  match s with
  | c :: s' =>
      if N.eqb c 101 || N.eqb c 69 then
        let '(eneg, s'') := split_sign s' in
        let ds := takeWhile is_digit s'' in
        if is_empty ds then 0%Z
        else cond_Zopp eneg (Z.of_N (digits_value ds))
      else 0%Z
  | [] => 0%Z
  end.

(** [parseFloat]: leading white space is skipped, then the longest prefix
    that is a StrDecimalLiteral is read (a sign, then [Infinity] or
    digits with an optional fraction and exponent); NaN if there is none. *)
Definition parseFloat (s : str) : Number :=
  let '(neg, s1) := split_sign (trimStart s) in
  if starts_with (lit "Infinity") s1
  then (if neg then neg_infinity else infinity)
  else
    let ip := takeWhile is_digit s1 in
    let s2 := dropWhile is_digit s1 in
    let '(fp, s3) :=
      match s2 with
      | c :: s2' =>
          if N.eqb c 46                          (* . *)
          then (takeWhile is_digit s2', dropWhile is_digit s2')
          else ([], s2)
      | [] => ([], s2)
      end in
    if is_empty ip && is_empty fp then NaN
    else Number_of_decimal neg (digits_value (ip ++ fp))
           (exponent_part s3 - Z.of_nat (List.length fp)).

(** [parseInt(s, 10)]: leading white space is skipped, then a sign and the
    longest run of decimal digits are read; NaN if there is no digit. *)
Definition parseInt10 (s : str) : Number :=
  let '(neg, s1) := split_sign (trimStart s) in
  let ds := takeWhile is_digit s1 in
  if is_empty ds then NaN else Number_of_decimal neg (digits_value ds) 0.

End JS.

Import JS.
Import JS.RegExp.

(* ================================================================= *)
(** * app.js *)

(** An array element that may be missing: [r[i]] is [undefined] beyond the
    end of [r]. *)
Definition at_ (r : list str) (i : nat) : option str := nth_error r i.

(** [v ?? d] *)
Definition orElse (v : option str) (d : str) : str :=
  match v with Some c => c | None => d end.

(** /^[0-9]+$/ *)
Definition re_integer : re :=
  Seq Bol (Seq (Plus (Class (fun c => (48 <=? c) && (c <=? 57))%N)) Eol).

Definition isIntegerCell (value : str) : bool :=
  test re_integer (trim value).

(* ----------------------------------------------------------------- *)
(** ** parseCsv *)

Module Csv.
Record state := mk {
  rows : list (list str);
  row : list str;
  field : str;
  inQuotes : bool
}.
Definition init : state := mk [] [] [] false.
End Csv.

(** The body of the [for] loop of [parseCsv], on the text from index [i]
    on: [c] is [text[i]] and the head of the remaining text is
    [text[i + 1]]; the extra [i++] of the doubled-quote case skips it. *)
Fixpoint parseCsv_loop (text : str) (st : Csv.state) : Csv.state :=
  match text with
  | [] => st
  | c :: text' =>
      let '(Csv.mk rows row field inQuotes) := st in
      if inQuotes then
        if N.eqb c QUOTE then
          match text' with
          | next :: text'' =>
              if N.eqb next QUOTE
              then parseCsv_loop text'' (Csv.mk rows row (field ++ [QUOTE]) true)
              else parseCsv_loop text' (Csv.mk rows row field false)
          | [] => parseCsv_loop text' (Csv.mk rows row field false)
          end
        else parseCsv_loop text' (Csv.mk rows row (field ++ [c]) true)
      else
        if N.eqb c QUOTE then
          parseCsv_loop text' (Csv.mk rows row field true)
        else if N.eqb c 44 then                                  (* , *)
          parseCsv_loop text' (Csv.mk rows (row ++ [field]) [] false)
        else if N.eqb c LF then
          parseCsv_loop text' (Csv.mk (rows ++ [row ++ [field]]) [] [] false)
        else if N.eqb c CR then
          parseCsv_loop text' st                                 (* ignore *)
        else
          parseCsv_loop text' (Csv.mk rows row (field ++ [c]) false)
  end.

(** The rows before the cells are trimmed. *)
Definition parseCsv_rows (text : str) : list (list str) :=
  let st := parseCsv_loop text Csv.init in
  if negb (is_empty (Csv.field st)) || negb (Nat.eqb (List.length (Csv.row st)) 0)
  then Csv.rows st ++ [Csv.row st ++ [Csv.field st]]
  else Csv.rows st.

Definition parseCsv (text : str) : list (list str) :=
  map (fun r => map (fun c => trim c) r) (parseCsv_rows text).

(* ----------------------------------------------------------------- *)
(** ** Cell coercions *)

(** /^(-?\d+(?:\.\d+)?)\s*%?$/ *)
Definition re_percent : re :=
  Seq Bol
   (Seq (Group 1
           (Seq (Opt (Class (chr "-")))
              (Seq (Plus (Class is_digit))
                 (Opt (Seq (Class (chr ".")) (Plus (Class is_digit)))))))
      (Seq (Star (Class is_white_space))
         (Seq (Opt (Class (chr "%"))) Eol))).

Definition parsePercentCell (cell : option str) (fallback : Number) : Number :=
  match cell with
  | None => fallback
  | Some cell =>
      let s := trim cell in
      if is_empty s then fallback
      else
        match match_ re_percent s with
        | None => fallback
        | Some m_ =>
            let v := parseFloat (get_cap 1 m_) in
            if isFinite v then v else fallback
        end
  end.

Definition parseNumberCell (cell : option str) (fallback : Number) : Number :=
  match cell with
  | None => fallback
  | Some cell =>
      let s := trim cell in
      if is_empty s then fallback
      else
        let v := parseFloat s in
        if isFinite v then v else fallback
  end.

(** /^(https?:\/\/|mailto:)/i *)
Definition re_navigable : re :=
  Seq Bol
    (Group 1
       (Alt (Seq (Lit_i "http")
               (Seq (Opt (Class (chr_i "s"))) (Lit_i "://")))
            (Lit_i "mailto:"))).

Definition isNavigableUrl (s : str) : bool :=
  if is_empty s then false
  else test re_navigable (trim s).

(* ----------------------------------------------------------------- *)
(** ** Popup markup *)

Definition escapeHtml (s : str) : str :=
  replaceAll1 39%N (lit "&#039;")
    (replaceAll1 QUOTE (lit "&quot;")
      (replaceAll1 62%N (lit "&gt;")
        (replaceAll1 60%N (lit "&lt;")
          (replaceAll1 38%N (lit "&amp;") s)))).

(** /\[([^\]]+)\]\(([^)]+)\)/g *)
Definition re_link : re :=
  Seq (Class (chr "["))
   (Seq (Group 1 (Plus (Class (none_of "]"))))
     (Seq (Class (chr "]"))
       (Seq (Class (chr "("))
         (Seq (Group 2 (Plus (Class (none_of ")"))))
           (Class (chr ")")))))).

(** The replacer function of [mdToSafeHtml]. *)
Definition link_replacer (label url : str) : str :=
  let href := trim url in
  if negb (isNavigableUrl href) then
    escapeHtml label ++ lit " (" ++ escapeHtml href ++ lit ")"
  else
    let safeLabel := label in
    let safeHref := escapeHtml href in
    lit "<a href=" ++ [QUOTE] ++ safeHref ++ [QUOTE]
      ++ lit " target=" ++ [QUOTE] ++ lit "_blank" ++ [QUOTE]
      ++ lit " rel=" ++ [QUOTE] ++ lit "noopener noreferrer" ++ [QUOTE]
      ++ lit ">" ++ safeLabel ++ lit "</a>".

(** The replacer as [replace] calls it: with the captures of the match. *)
Definition link_callback (cs : list (option str)) : str :=
  link_replacer (get_cap 1 cs) (get_cap 2 cs).

Definition mdToSafeHtml (input : str) : str :=
  let escaped := escapeHtml input in
  let linked := replace_g re_link link_callback escaped in
  replace_g (Class (N.eqb LF)) (fun _ => lit "<br>") linked.

(* ----------------------------------------------------------------- *)
(** ** rowsToSections *)

Module Item.
Record t := mk {
  name : str;
  linkOrText : str;
  isUrl : bool;
  x : Number;
  y : Number;
  color : str;
  radius : Number
}.
End Item.

Module Section_.
Record t := mk {
  id : Number;
  imageUrl : str;
  title : str;
  subtitle : str;
  scalePercent : Number;
  titleYOffsetPx : Number;
  items : list Item.t
}.
End Section_.

(** The pattern of the outer quotes: the start of the input, a double
    quote, a group of any number of [.], a double quote, the end of the
    input. *)
Definition re_quoted : re :=
  Seq Bol (Seq (Class (N.eqb QUOTE))
    (Seq (Group 1 (Star (Class dot))) (Seq (Class (N.eqb QUOTE)) Eol))).

(** [.replace(re_quoted, $1)]: the first group replaces the match. *)
Definition unquote (s : str) : str :=
  replace1 re_quoted (fun cs => get_cap 1 cs) s.

(** The object literal of a section row; [a] is the trimmed first cell. *)
Definition section_of_row (a : str) (r : list str) : Section_.t :=
  let scalePercent := parsePercentCell (at_ r 4) (100)%float in
  let titleYOffsetPx := parseNumberCell (at_ r 5) (0)%float in
  Section_.mk (parseInt10 a)
    (trim (unquote (orElse (at_ r 1) [])))
    (trim (orElse (at_ r 2) []))
    (trim (orElse (at_ r 3) []))
    scalePercent titleYOffsetPx [].

(** What an item row yields: nothing when x or y is not finite. *)
Definition item_of_row (a : str) (r : list str) : option Item.t :=
  let name := a in
  let rawLinkOrText := trim (unquote (orElse (at_ r 1) [])) in
  let x := parseNumberCell (at_ r 2) NaN in
  let y := parseNumberCell (at_ r 3) NaN in
  let color :=
    let t := trim (orElse (at_ r 4) (lit "green")) in
    if is_empty t then lit "green" else t in
  let radius := parseNumberCell (at_ r 5) (15)%float in
  if negb (isFinite x) || negb (isFinite y) then None
  else Some (Item.mk name rawLinkOrText (isNavigableUrl rawLinkOrText)
               x y color radius).

(** [current.items.push(it)]: [current] is the object at index [cur] of
    [sections], so the push shows in the array. *)
Fixpoint push_item (cur : nat) (it : Item.t) (sections : list Section_.t)
  : list Section_.t :=
  match cur, sections with
  | _, [] => []
  | O, s :: rest =>
      Section_.mk (Section_.id s) (Section_.imageUrl s) (Section_.title s)
        (Section_.subtitle s) (Section_.scalePercent s)
        (Section_.titleYOffsetPx s) (Section_.items s ++ [it]) :: rest
  | S n, s :: rest => s :: push_item n it rest
  end.

(** The state of the loop: the array [sections], and [current], null or
    a reference to one of the objects in the array (its index). *)
Definition rowsToSections_step (st : list Section_.t * option nat)
    (r : list str) : list Section_.t * option nat :=
  let '(sections, current) := st in
  let a := trim (orElse (at_ r 0) []) in
  if is_empty a then st
  else if isIntegerCell a then
    (sections ++ [section_of_row a r], Some (List.length sections))
  else
    match current with
    | None => st
    | Some cur =>
        match item_of_row a r with
        | None => st
        | Some it => (push_item cur it sections, current)
        end
    end.

Definition rowsToSections (rows : list (list str)) : list Section_.t :=
  fst (fold_left rowsToSections_step rows ([], None)).

(* ----------------------------------------------------------------- *)
(** ** The popup of a section (createSectionEl)

    The state the handlers of one section share: the [hidden] class of
    the popup element, the variables [pinned], [hideTimer] and
    [lastPopupPos], and the markup of the content element.  Where the
    popup is drawn depends on measured boxes and is not part of the
    state. *)

Module Popup.

Record state := mk {
  hidden : bool;                          (* popup.classList has "hidden" *)
  pinned : bool;
  hideTimer : bool;                       (* a hide timeout is pending *)
  lastPopupPos : option (Number * Number);
  content : str                           (* contentEl.innerHTML *)
}.

(** createPopupEl, and the initial values of the variables. *)
Definition init : state := mk true false false None [].

Definition clearHideTimer (s : state) : state :=
  mk (hidden s) (pinned s) false (lastPopupPos s) (content s).

Definition hidePopup (s : state) : state :=
  mk true (pinned s) (hideTimer s) (lastPopupPos s) (content s).

Definition scheduleHidePopup (s : state) : state :=
  let s := clearHideTimer s in
  mk (hidden s) (pinned s) true (lastPopupPos s) (content s).

Definition set_pinned (b : bool) (s : state) : state :=
  mk (hidden s) b (hideTimer s) (lastPopupPos s) (content s).

(** positionPopupAt removes the [hidden] class before it measures. *)
Definition positionPopupAt (s : state) : state :=
  mk false (pinned s) (hideTimer s) (lastPopupPos s) (content s).

(** The content is [mdToSafeHtml(it.linkOrText || "")], and the empty
    string is the only string that counts as false. *)
Definition show (it : Item.t) (s : state) : state :=
  let s := clearHideTimer s in
  let s := mk (hidden s) (pinned s) (hideTimer s) (lastPopupPos s)
              (mdToSafeHtml (Item.linkOrText it)) in
  let s := mk (hidden s) (pinned s) (hideTimer s)
              (Some (Item.x it, Item.y it)) (content s) in
  positionPopupAt s.

(** [lastPopupPos && lastPopupPos.x === it.x && lastPopupPos.y === it.y] *)
Definition sameMarker (it : Item.t) (s : state) : bool :=
  match lastPopupPos s with
  | None => false
  | Some (px, py) =>
      PrimFloat.eqb px (Item.x it) && PrimFloat.eqb py (Item.y it)
  end.

Inductive event :=
| PointerEnter (it : Item.t)     (* pointerenter on the marker of [it] *)
| PointerLeave (it : Item.t)     (* pointerleave on the marker of [it] *)
| Click (it : Item.t)            (* click on the marker of [it] *)
| PopupEnter                     (* mouseenter on the popup *)
| PopupLeave                     (* mouseleave on the popup *)
| PopupClick                     (* click inside the popup, not on close *)
| CloseClick                     (* click on the close button *)
| StageClick                     (* click on the stage, outside both *)
| TimerFires                     (* the pending hide timeout runs *)
| Resize.                        (* resize of the window *)

(** The marker handlers exist on text markers only; a click on a marker or
    in the popup reaches the stage handler, which returns at once. *)
Definition handle (e : event) (s : state) : state :=
  match e with
  | PointerEnter it =>
      if Item.isUrl it then s
      else show it (set_pinned false s)
  | PointerLeave it =>
      if Item.isUrl it then s else scheduleHidePopup s
  | Click it =>
      if Item.isUrl it then s
      else
        if hidden s || negb (sameMarker it s) then
          show it (set_pinned true s)
        else
          let s := set_pinned (negb (pinned s)) s in
          if negb (pinned s) then hidePopup s else s
  | PopupEnter => clearHideTimer s
  | PopupLeave => scheduleHidePopup s
  | PopupClick => s
  | CloseClick => hidePopup (set_pinned false s)
  | StageClick => hidePopup (set_pinned false s)
  | TimerFires =>
      if hideTimer s then
        let s := mk (hidden s) (pinned s) false (lastPopupPos s) (content s) in
        if negb (pinned s) then hidePopup s else s
      else s
  | Resize =>
      if hidden s then s
      else match lastPopupPos s with
           | None => s
           | Some _ => positionPopupAt s
           end
  end.

(** The three states of the design, read off the popup. *)
Inductive mode := Hidden | ShownHover | ShownPinned.

Definition mode_of (s : state) : mode :=
  if hidden s then Hidden
  else if pinned s then ShownPinned else ShownHover.

End Popup.

(* ----------------------------------------------------------------- *)
(** ** createSectionEl: the size of the stage and the titles *)

(** [Math.abs], [Math.max] and [Math.min] of two Numbers.  The last two
    give NaN when an argument is NaN, and take the positive zero for
    larger than the negative one. *)
Module Math.


Definition max (a b : Number) : Number :=
  if is_nan a || is_nan b then NaN
  else if PrimFloat.ltb a b then b
  else if PrimFloat.ltb b a then a
  else if get_sign a then b else a.

Definition min (a b : Number) : Number :=
  if is_nan a || is_nan b then NaN
  else if PrimFloat.ltb a b then a
  else if PrimFloat.ltb b a then b
  else if get_sign a then a else b.

End Math.

(** The width of the stage in percent: [sp]. *)
Definition sp (section : Section_.t) : Number :=
  if isFinite (Section_.scalePercent section)
  then Section_.scalePercent section else 100%float.

Definition dyPx (section : Section_.t) : Number :=
  if isFinite (Section_.titleYOffsetPx section)
  then Section_.titleYOffsetPx section else 0%float.




(* ----------------------------------------------------------------- *)
(** ** createSectionEl: the marker of an item *)

(** The attributes that the load handler sets on the anchor of the
    marker of an item, in the order in which it sets them. *)
Definition marker_attributes (it : Item.t) : list (string * str) :=
  if Item.isUrl it then
    [("href"%string, Item.linkOrText it);
     ("xlink:href"%string, Item.linkOrText it);
     ("target"%string, lit "_blank");
     ("rel"%string, lit "noopener noreferrer")]
  else
    [("href"%string, lit "#")].

(* ----------------------------------------------------------------- *)
(** ** positionPopupAt: where the popup is drawn *)

(** The sides of a measured box that the code reads. *)
Module DOMRect.
Record t := mk {
  right : Number;
  bottom : Number;
  width : Number;
  height : Number
}.
End DOMRect.

(** [w || 1] on a Number: zero and NaN count as false. *)
Definition orOne (w : Number) : Number :=
  if PrimFloat.eqb w 0%float || is_nan w then 1%float else w.

Definition clamp (v min max : Number) : Number :=
  Math.max min (Math.min max v).

(** The [left] and [top], in px, that [positionPopupAt(pxX, pxY)] leaves
    in the style of the popup.  [imgW] and [imgH] are the natural width
    and height of the image; [rect] and [stageRect] are the box of the
    stage as measured at the start and after the popup is shown, and
    [pRect] is the box of the popup after its first placement. *)
Definition positionPopupAt_style (imgW imgH : Number)
    (rect stageRect pRect : DOMRect.t) (pxX pxY : Number)
  : Number * Number :=
  let naturalW := orOne imgW in
  let naturalH := orOne imgH in
  let sx := (DOMRect.width rect / naturalW)%float in
  let sy := (DOMRect.height rect / naturalH)%float in
  let x := (pxX * sx)%float in
  let y := (pxY * sy)%float in
  let pad := 8%float in
  let newLeft := (x + pad)%float in
  let newTop := (y + pad)%float in
  let newLeft :=
    if PrimFloat.ltb (DOMRect.right stageRect - pad)%float
         (DOMRect.right pRect)
    then (x - DOMRect.width pRect - pad)%float else newLeft in
  let newTop :=
    if PrimFloat.ltb (DOMRect.bottom stageRect - pad)%float
         (DOMRect.bottom pRect)
    then (y - DOMRect.height pRect - pad)%float else newTop in
  let newLeft :=
    clamp newLeft pad
      (DOMRect.width rect - DOMRect.width pRect - pad)%float in
  let newTop :=
    clamp newTop pad
      (DOMRect.height rect - DOMRect.height pRect - pad)%float in
  (newLeft, newTop).

(* ----------------------------------------------------------------- *)
(** ** main *)

(** How the fetch of the text ends: [fetch] or [res.text()] throws [e],
    and [details] is the string [String(e.message || e)]; or there is a
    response with its [ok] flag, its status and its text. *)
Inductive fetched :=
| Throws (details : str)
| Response (ok : bool) (status : nat) (text : str).

(** What [main] leaves in the page: one of its three messages, or the
    sections handed to [createSectionEl], in the order of their
    elements. *)
Inductive page :=
| MissingParameter
| FetchFailed (details : str)
| NoSections
| Sections (sections : list Section_.t).

(** The digits of a status code, as a template literal writes them. *)
Definition decimal (n : nat) : str :=
  lit (NilEmpty.string_of_uint (Nat.to_uint n)).

(** [csvUrl] is the value of the query parameter, null when there is
    none. *)
Definition main (csvUrl : option str) (f : fetched) : page :=
  if is_empty (orElse csvUrl []) then MissingParameter
  else
    match f with
    | Throws details => FetchFailed details
    | Response ok status text =>
        if negb ok then FetchFailed (lit "HTTP " ++ decimal status)
        else
          let rows := parseCsv text in
          let sections := rowsToSections rows in
          if Nat.eqb (List.length sections) 0 then NoSections
          else Sections sections
    end.

(* ================================================================= *)
(** * Auxiliary definitions for the proofs *)

Module Aux.

(** The state [n] code units further on. *)
Definition adv (n : nat) (x : state) : state :=
  mkState (pos x + n) (skipn n (rest x)) (caps x).

(** A string begins with code units accepted by [ps], one each. *)
Fixpoint prefix_ok (ps : list (char -> bool)) (s : str) : bool :=
  match ps, s with
  | [], _ => true
  | p :: ps', c :: s' => p c && prefix_ok ps' s'
  | _ :: _, [] => false
  end.

(** What [p*] followed by [k] does at index [i] on [s]: the longest run
    first, then shorter ones. *)
Fixpoint greedy (p : char -> bool) (k : cont) (i : nat) (s : str)
    (cs : list (option str)) : option state :=
  match s with
  | c :: s' =>
      if p c then
        match greedy p k (S i) s' cs with
        | Some z => Some z
        | None => k (mkState i s cs)
        end
      else k (mkState i s cs)
  | [] => k (mkState i s cs)
  end.

(** The loop of [m (Star (Class p))], as a function of its own. *)
Section StarClass.
Variable p : char -> bool.
Variable k : cont.
Fixpoint star_class (fuel : nat) (x : state) {struct fuel} : option state :=
  match fuel with
  | O => k x
  | S fuel' =>
      match
        match rest x with
        | c :: s' =>
            if p c
            then (fun y => if Nat.eqb (pos y) (pos x) then None
                           else star_class fuel' y)
                   (mkState (S (pos x)) s' (caps x))
            else None
        | [] => None
        end
      with
      | Some z => Some z
      | None => k x
      end
  end.
End StarClass.

Definition is_some {A : Type} (o : option A) : bool :=
  match o with Some _ => true | None => false end.

(** A row whose first cell passes the integer-marker test. *)
Definition is_section_row (r : list str) : bool :=
  isIntegerCell (trim (orElse (at_ r 0) [])).

(** The item a row stands for, if it is read as an item row. *)
Definition row_item (r : list str) : option Item.t :=
  let a := trim (orElse (at_ r 0) []) in
  if is_empty a then None else item_of_row a r.

Definition items_of_rows (rows : list (list str)) : list Item.t :=
  flat_map (fun r => match row_item r with Some it => [it] | None => [] end)
    rows.

(** The rows up to the next section row, and the rows from it on. *)
Fixpoint item_rows (rows : list (list str)) : list (list str) :=
  match rows with
  | [] => []
  | r :: rows' => if is_section_row r then [] else r :: item_rows rows'
  end.

Fixpoint next_section (rows : list (list str)) : list (list str) :=
  match rows with
  | [] => []
  | r :: rows' => if is_section_row r then rows else next_section rows'
  end.

Definition with_items (s : Section_.t) (its : list Item.t) : Section_.t :=
  Section_.mk (Section_.id s) (Section_.imageUrl s) (Section_.title s)
    (Section_.subtitle s) (Section_.scalePercent s)
    (Section_.titleYOffsetPx s) (Section_.items s ++ its).

Definition run (rows : list (list str)) (st : list Section_.t * option nat) :=
  fold_left rowsToSections_step rows st.

(** Rows used as concrete inputs. *)
Definition ex_rows : list (list str) :=
  [ [lit "A"; lit "text"; lit "1"; lit "2"];
    [lit "3"; lit "a.png"; lit "Hall"];
    [lit "B"; lit "https://x.test"; lit "10"; lit "20"; lit "red"; lit "5"];
    [lit "C"; lit "call me"; lit "oops"; lit "20"];
    [lit " 07 "; lit "b.png"; lit "Yard"; lit "sub"; lit "50%"; lit "-150"];
    [lit "D"; lit "note"; lit "1"; lit "1"] ].

(** A field written in quotes: every quote of the content doubled. *)
Definition double_quotes (s : str) : str :=
  flat_map (fun c => if N.eqb c QUOTE then [QUOTE; QUOTE] else [c]) s.

Definition quote_field (s : str) : str :=
  [QUOTE] ++ double_quotes s ++ [QUOTE].

(** Fields written on one line, separated by commas. *)
Fixpoint csv_line (fields : list str) : str :=
  match fields with
  | [] => []
  | [f] => f
  | f :: fs => f ++ [44%N] ++ csv_line fs
  end.

(** No two quote characters next to each other. *)
Fixpoint no_doubled_quote (s : str) : bool :=
  match s with
  | c :: s' =>
      match s' with
      | c' :: _ => negb (N.eqb c QUOTE && N.eqb c' QUOTE)
      | [] => true
      end && no_doubled_quote s'
  | [] => true
  end.

(** Every carriage return of the text is outside quotes, that is, has an
    even number of quote characters before it; [inq] tells whether the
    number of quotes so far is odd. *)
Fixpoint crs_outside_quotes (inq : bool) (s : str) : bool :=
  match s with
  | [] => true
  | c :: s' =>
      if N.eqb c QUOTE then crs_outside_quotes (negb inq) s'
      else if N.eqb c CR && inq then false
      else crs_outside_quotes inq s'
  end.

Definition lacks (c : char) (s : str) : bool :=
  forallb (fun x => negb (N.eqb x c)) s.

(** No cell of the rows, and nothing in the parser's state, holds [c]. *)
Definition rows_lack (c : char) (rows : list (list str)) : bool :=
  forallb (fun r => forallb (lacks c) r) rows.

Definition state_lacks (c : char) (st : Csv.state) : bool :=
  rows_lack c (Csv.rows st) && forallb (lacks c) (Csv.row st)
  && lacks c (Csv.field st).

(** ASCII lower-casing, and equality of code units up to ASCII case. *)
Definition lower (c : char) : char :=
  if ((65 <=? c) && (c <=? 90))%N then (c + 32)%N else c.

Definition ci_eqb (a b : char) : bool := N.eqb (lower a) (lower b).

(** [s] begins with [p], compared without regard to ASCII case. *)
Fixpoint starts_with_ci (p s : str) : bool :=
  match p, s with
  | [], _ => true
  | a :: p', b :: s' => ci_eqb a b && starts_with_ci p' s'
  | _ :: _, [] => false
  end.

(** The link classification in the words of the design: the trimmed
    string begins with one of the three schemes, in any case. *)
Definition begins_with_scheme (s : str) : bool :=
  existsb (fun p => starts_with_ci p (trim s))
    [lit "http://"; lit "https://"; lit "mailto:"].

(** The outer quotes removed: of a string that is a quote, code units
    that are no line terminators, and a quote, the part in between; any
    other string as it is. *)
Definition strip_outer_quotes (s : str) : str :=
  match s with
  | c :: t =>
      match rev t with
      | q :: rmid =>
          if N.eqb c QUOTE && N.eqb q QUOTE && forallb dot rmid
          then rev rmid else s
      | [] => s
      end
  | [] => s
  end.

(** The length of [mid] when [u] is [mid] followed by one closing quote,
    [mid] free of line terminators. *)
Fixpoint mid_len (u : str) : option nat :=
  match u with
  | [] => None
  | c :: u' =>
      match u' with
      | [] => if N.eqb c QUOTE then Some 0 else None
      | _ :: _ => if dot c then option_map S (mid_len u') else None
      end
  end.

(** What may follow the number in a percent cell, after white space:
    nothing, or one percent sign. *)
Definition tail_ok (v : str) : bool :=
  match v with
  | [] => true
  | c :: t => N.eqb c 37 && is_empty t
  end.

(** The longest prefix of [u] that is digits, optionally followed by a
    point and digits; with it, what comes after. *)
Definition number_prefix (u : str) : option (str * str) :=
  match u with
  | d :: t =>
      if is_digit d then
        let ip := d :: takeWhile is_digit t in
        let s2 := dropWhile is_digit t in
        match s2 with
        | c :: d1 :: t' =>
            if N.eqb c 46 && is_digit d1
            then Some (ip ++ c :: d1 :: takeWhile is_digit t',
                       dropWhile is_digit t')
            else Some (ip, s2)
        | _ => Some (ip, s2)
        end
      else None
  | [] => None
  end.

(** A leading minus sign split off. *)
Definition split_minus (s : str) : str * str :=
  match s with
  | c :: t => if N.eqb c 45 then ([c], t) else ([], s)
  | [] => ([], s)
  end.

(** What the pattern of [parsePercentCell] captures in [s], read from
    left to right. *)
Definition scan_percent (s : str) : option str :=
  let '(sign, u) := split_minus s in
  match number_prefix u with
  | Some (num, s3) =>
      if tail_ok (dropWhile is_white_space s3) then Some (sign ++ num)
      else None
  | None => None
  end.

(** A signed decimal: an optional minus sign, one or more digits, and
    optionally a point and one or more digits, with nothing else.  The
    result is the sign, the digits before the point and those after. *)
Definition signed_decimal (s : str) : option (bool * str * str) :=
  let '(sign, u) := split_minus s in
  let ip := takeWhile is_digit u in
  if is_empty ip then None
  else
    match dropWhile is_digit u with
    | [] => Some (negb (is_empty sign), ip, [])
    | c :: t =>
        if N.eqb c 46 && negb (is_empty t) && forallb is_digit t
        then Some (negb (is_empty sign), ip, t)
        else None
    end.

(** The Number a signed decimal stands for. *)
Definition decimal_value (d : bool * str * str) : Number :=
  let '(neg, ip, fp) := d in
  Number_of_decimal neg (digits_value (ip ++ fp))
    (- Z.of_nat (List.length fp)).

(** An optional trailing percent sign removed. *)
Definition strip_percent (s : str) : str :=
  match rev s with
  | c :: r => if N.eqb c 37 then rev r else s
  | [] => s
  end.

(** The percentage-or-number coercion in the words of the design: the
    fallback for an absent or empty cell; else the trailing percent sign
    is stripped and the remainder read as a signed decimal, which is the
    result; the fallback when it is none.  [guard] tells whether a
    number that is not finite is replaced by the fallback. *)
Definition percent_or_number (guard : bool) (cell : option str)
    (fallback : Number) : Number :=
  match cell with
  | None => fallback
  | Some c =>
      let s := trim c in
      if is_empty s then fallback
      else
        match signed_decimal (trimEnd (strip_percent s)) with
        | Some d =>
            let v := decimal_value d in
            if guard && negb (isFinite v) then fallback else v
        | None => fallback
        end
  end.

(** The digits of the one followed by four hundred zeros. *)
Definition huge : str := 49%N :: repeat 48%N 400.

(** A signed decimal written out from its parts. *)
Definition render (neg : bool) (ip fp : str) : str :=
  (if neg then [45%N] else []) ++ ip
  ++ (if is_empty fp then [] else 46%N :: fp).

(** [c] is the signed decimal with sign [neg], digits [ip] before the
    point and digits [fp] after it. *)
Definition decimal_shape (c : str) (neg : bool) (ip fp : str) : Prop :=
  c = render neg ip fp /\ ip <> [] /\ forallb is_digit ip = true
  /\ forallb is_digit fp = true.

(** Rewriting of all matches, with the match at the head of a string
    given by [at_]: its captures and what follows it. *)
Section Rewriting.
Variable at_ : str -> option (list (option str) * str).

(** The first match from the left: what stands before it, its captures,
    and what follows it. *)
Fixpoint find_next (s : str) : option (str * list (option str) * str) :=
  match at_ s with
  | Some (cs, rest) => Some ([], cs, rest)
  | None =>
      match s with
      | [] => None
      | c :: t =>
          match find_next t with
          | Some (pre, cs, rest) => Some (c :: pre, cs, rest)
          | None => None
          end
      end
  end.

Fixpoint rewrite_all (f : list (option str) -> str) (fuel : nat) (s : str)
  : str :=
  match fuel with
  | O => s
  | S fuel' =>
      match find_next s with
      | None => s
      | Some (pre, cs, rest) => pre ++ f cs ++ rewrite_all f fuel' rest
      end
  end.
End Rewriting.

(** The text up to the next [close], which must be there, and what
    follows it; the text must not be empty. *)
Definition delimited (close : ascii) (t : str) : option (str * str) :=
  match dropWhile (none_of close) t with
  | _ :: after =>
      if is_empty (takeWhile (none_of close) t) then None
      else Some (takeWhile (none_of close) t, after)
  | [] => None
  end.

(** A link at the head of a string: an opening bracket, a label up to
    the next closing bracket, an opening parenthesis, a target up to the
    next closing parenthesis; label and target not empty. *)
Definition link_at (s : str) : option (list (option str) * str) :=
  match s with
  | c :: t =>
      if N.eqb c 91 then
        match delimited "]" t with
        | Some (label, c2 :: t2) =>
            if N.eqb c2 40 then
              match delimited ")" t2 with
              | Some (url, t3) => Some ([None; Some label; Some url], t3)
              | None => None
              end
            else None
        | _ => None
        end
      else None
  | [] => None
  end.

(** A line feed at the head of a string. *)
Definition newline_at (s : str) : option (list (option str) * str) :=
  match s with
  | c :: t => if N.eqb LF c then Some ([], t) else None
  | [] => None
  end.

(** What [escapeHtml] makes of one code unit. *)
Definition esc1 (c : char) : str :=
  if N.eqb c 38 then lit "&amp;"
  else if N.eqb c 60 then lit "&lt;"
  else if N.eqb c 62 then lit "&gt;"
  else if N.eqb c QUOTE then lit "&quot;"
  else if N.eqb c 39 then lit "&#039;"
  else [c].

(** Line feeds turned into line breaks. *)
Definition br (s : str) : str :=
  flat_map (fun c => if N.eqb LF c then lit "<br>" else [c]) s.

(** The markup of an activation link. *)
Definition anchor (href label : str) : str :=
  lit "<a href=" ++ [QUOTE] ++ href ++ [QUOTE]
    ++ lit " target=" ++ [QUOTE] ++ lit "_blank" ++ [QUOTE]
    ++ lit " rel=" ++ [QUOTE] ++ lit "noopener noreferrer" ++ [QUOTE]
    ++ lit ">" ++ label ++ lit "</a>".

(** What stands for a link with label [label] and target [url] of the
    raw text: an activation link when the target is navigable, else the
    label followed by the target in parentheses.  [again] tells whether
    the texts, escaped once with the rest of the input, are escaped a
    second time where the code does so. *)
Definition link_markup (again : bool) (label url : str) : str :=
  let e := fun s => if again then escapeHtml (escapeHtml s) else escapeHtml s in
  if isNavigableUrl url
  then anchor (e (trim url)) (escapeHtml label)
  else e label ++ lit " (" ++ e (trim url) ++ lit ")".

(** The popup markup of a raw text before the line breaks are made:
    links from left to right, any other code unit escaped. *)
Fixpoint markup (again : bool) (fuel : nat) (s : str) : str :=
  match fuel with
  | O => []
  | S fuel' =>
      match link_at s with
      | Some (cs, rst) =>
          link_markup again (get_cap 1 cs) (get_cap 2 cs)
          ++ markup again fuel' rst
      | None =>
          match s with
          | [] => []
          | c :: t => esc1 c ++ markup again fuel' t
          end
      end
  end.

(** A pattern character whose lower-case form is not escaped. *)
Definition safe_char (a : char) : bool :=
  negb (existsb (N.eqb (lower a)) [38%N; 60%N; 62%N; QUOTE; 39%N]).

(** [s] does not begin with a code unit that [p] accepts. *)
Definition hd_not (p : char -> bool) (s : str) : Prop :=
  match s with [] => True | c :: _ => p c = false end.

(** Two applications of a continuation to states that differ in the way
    the index is written. *)
Ltac same_state K :=
  match goal with
  | |- K ?a = K ?b =>
      replace a with b;
      [reflexivity
      | f_equal; rewrite ?length_app; cbn [List.length]; lia]
  end.

(** A text marker and a link marker of [ex_rows], and their sections. *)
Definition ex_note : Item.t :=
  Item.mk (lit "D") (lit "note") false 1%float 1%float (lit "green")
    15%float.

Definition ex_link : Item.t :=
  Item.mk (lit "B") (lit "https://x.test") true 10%float 20%float
    (lit "red") 5%float.

Definition ex_yard : Section_.t :=
  Section_.mk 7%float (lit "b.png") (lit "Yard") (lit "sub") 50%float
    (-150)%float [ex_note].

Definition ex_hall : Section_.t :=
  Section_.mk 3%float (lit "a.png") (lit "Hall") [] 100%float 0%float
    [ex_link].

(** A cell in quotes with a line feed inside, and a text whose second
    cell it is. *)
Definition ex_cell : str := [QUOTE] ++ lit "a" ++ [LF] ++ lit "b" ++ [QUOTE].

Definition ex_text : str :=
  lit "0," ++ [QUOTE; QUOTE; QUOTE] ++ lit "a" ++ [LF] ++ lit "b"
    ++ [QUOTE; QUOTE; QUOTE].

(** The section that a section row opens, without items yet. *)
Definition row_section (r : list str) : Section_.t :=
  section_of_row (trim (orElse (at_ r 0) [])) r.

(** The section rows of an input, each with the rows that follow it up
    to the next section row. *)
Fixpoint group (rows : list (list str))
  : list (list str * list (list str)) :=
  match rows with
  | [] => []
  | r :: rows' =>
      if is_section_row r then (r, item_rows rows') :: group rows'
      else group rows'
  end.

Definition section_of_group (g : list str * list (list str)) : Section_.t :=
  with_items (row_section (fst g)) (items_of_rows (snd g)).

(** A table written out with every field in quotes, the fields of a row
    separated by commas and every row ended by a line feed. *)
Definition csv_text (rows : list (list str)) : str :=
  flat_map (fun r => csv_line (map quote_field r) ++ [LF]) rows.

(** The number of quote characters of a text. *)
Definition count_quotes (s : str) : nat :=
  List.length (filter (N.eqb QUOTE) s).

(** The rows [acc] put before those of a state of the parser. *)
Definition add_rows (acc : list (list str)) (st : Csv.state) : Csv.state :=
  Csv.mk (acc ++ Csv.rows st) (Csv.row st) (Csv.field st) (Csv.inQuotes st).

(** A string cut at every [sep]: the pieces between them, of which
    there is one more than there are separators. *)
Fixpoint split (sep : char) (s : str) : list str :=
  match s with
  | [] => [[]]
  | c :: t =>
      if N.eqb c sep then [] :: split sep t
      else match split sep t with
           | f :: fs => (c :: f) :: fs
           | [] => [[c]]
           end
  end.

(** A string without the code unit [c]. *)
Definition without (c : char) (s : str) : str :=
  filter (fun x => negb (N.eqb x c)) s.

(** The rows of a text read without regard to quotes: the carriage
    returns are dropped and the text is cut into lines at the line
    feeds; a last line that is empty does not count; every line is cut
    into cells at the commas, and the cells are trimmed. *)
Definition unquoted_rows (text : str) : list (list str) :=
  let ls := split LF (without CR text) in
  map (fun l => map trim (split 44 l))
    (if is_empty (last ls []) then removelast ls else ls).

(** Every row has a cell. *)
Definition full (rows : list (list str)) : bool :=
  forallb (fun r => negb (Nat.eqb (List.length r) 0)) rows.

(** What may follow a number for [parseFloat] to stop there: no digit,
    no point and no exponent mark. *)
Definition ends_number (T : str) : Prop :=
  match T with
  | [] => True
  | x :: _ => is_digit x = false /\ N.eqb x 46 = false
              /\ N.eqb x 101 = false /\ N.eqb x 69 = false
  end.

(** A string without the characters that open or close markup: the two
    angle brackets, the double quote and the apostrophe. *)
Definition markup_free (s : str) : bool :=
  lacks 60 s && lacks 62 s && lacks QUOTE s && lacks 39 s.

(** What the popup markup has for one code unit of text: the line break
    for a line feed, the entity for a code unit that is escaped, the code
    unit itself otherwise. *)
Definition shown (c : char) : str :=
  if N.eqb LF c then lit "<br>" else esc1 c.

(** Markup that is made of text, line breaks and activation links only:
    each link has an address that begins with one of the three schemes
    and holds no double quote, and a label that is text. *)
Inductive safe_markup : str -> Prop :=
| safe_nil : safe_markup []
| safe_unit c t : safe_markup t -> safe_markup (shown c ++ t)
| safe_link href l t :
    begins_with_scheme href = true -> lacks QUOTE href = true ->
    safe_markup t ->
    safe_markup (anchor href (flat_map shown l) ++ t).

(** A pattern character that no white space is equal to, up to case. *)
Definition solid (a : char) : bool := negb (is_white_space (lower a)).

(** The state of the popup after the events [es], from the state [s]. *)
Definition run_events (es : list Popup.event) (s : Popup.state)
  : Popup.state :=
  fold_left (fun s e => Popup.handle e s) es s.

(** [e] is an event on the text marker of [it] whose handler shows the
    popup. *)
Definition shows (it : Item.t) (e : Popup.event) : Prop :=
  Item.isUrl it = false
  /\ (e = Popup.PointerEnter it \/ e = Popup.Click it).

(** What holds of the state of the popup after the events [es]: a pinned
    popup is not hidden; before the first marker is shown the popup is
    hidden and empty, and after that its place and its content are those
    of a text marker shown by one of the events. *)
Definition popup_inv (es : list Popup.event) (s : Popup.state) : Prop :=
  (Popup.pinned s = true -> Popup.hidden s = false)
  /\ match Popup.lastPopupPos s with
     | None => Popup.hidden s = true /\ Popup.content s = []
     | Some p =>
         exists it e, In e es /\ shows it e
                      /\ p = (Item.x it, Item.y it)
                      /\ Popup.content s = mdToSafeHtml (Item.linkOrText it)
     end.

(** The events that neither show nor close the popup: all but the
    pointer entering a text marker, a click on one, a click on the close
    button and a click on the stage. *)
Definition passive (e : Popup.event) : bool :=
  match e with
  | Popup.PointerEnter it | Popup.Click it => Item.isUrl it
  | Popup.PointerLeave _ | Popup.PopupEnter | Popup.PopupLeave
  | Popup.PopupClick | Popup.TimerFires | Popup.Resize => true
  | Popup.CloseClick | Popup.StageClick => false
  end.

(** The events that do not show the popup. *)
Definition quiet (e : Popup.event) : bool :=
  match e with
  | Popup.PointerEnter it | Popup.Click it => Item.isUrl it
  | _ => true
  end.

(** Two markers with equal coordinates. *)
Definition same_place (a b : Item.t) : bool :=
  PrimFloat.eqb (Item.x a) (Item.x b) && PrimFloat.eqb (Item.y a) (Item.y b).

(** A second text marker, at another place than [ex_note]. *)
Definition ex_memo : Item.t :=
  Item.mk (lit "E") (lit "memo") false 30%float 40%float (lit "green")
    15%float.


(** The upper bound of the clamp of [positionPopupAt]: the size of the
    stage less that of the popup and the padding. *)
Definition room (outer inner : Number) : Number :=
  (outer - inner - 8)%float.

(** Measured boxes used as concrete inputs: a stage and a popup near
    its right edge. *)
Definition ex_stage : DOMRect.t := DOMRect.mk 400%float 300%float 400%float 300%float.

Definition ex_popup : DOMRect.t := DOMRect.mk 460%float 120%float 120%float 60%float.

(** One of the four characters that a link is written with is missing
    from the text: the brackets and the parentheses. *)
Definition lacks_link (s : str) : bool :=
  lacks 91 s || lacks 93 s || lacks 40 s || lacks 41 s.

(** A code unit that the parser copies into the field when it is outside
    quotes: no quote, no comma, no line feed and no carriage return. *)
Definition plain (c : char) : bool :=
  negb (N.eqb c QUOTE || N.eqb c 44 || N.eqb c LF || N.eqb c CR).

(** A string that begins with a quote character. *)
Definition begins_with_quote (s : str) : bool :=
  match s with x :: _ => N.eqb x QUOTE | [] => false end.

(** A text without its carriage returns outside quotes, but for those
    that stand directly before a quote character; [inq] tells whether
    the number of quote characters so far is odd. *)
Fixpoint drop_crs (inq : bool) (s : str) : str :=
  match s with
  | [] => []
  | c :: s' =>
      if N.eqb c CR && negb inq && negb (begins_with_quote s')
      then drop_crs inq s'
      else c :: drop_crs (xorb inq (N.eqb c QUOTE)) s'
  end.

(** The state of the parser after a carriage return inside quotes: the
    carriage return is appended to the field. *)
Definition keep_cr (st : Csv.state) : Csv.state :=
  Csv.mk (Csv.rows st) (Csv.row st) (Csv.field st ++ [CR]) true.

End Aux.
Import Aux.

(* ================================================================= *)
(** * Properties of the library model *)

Section RegExpFacts.

Lemma m_Seq r1 r2 x k : m (Seq r1 r2) x k = m r1 x (fun y => m r2 y k).
Proof. reflexivity. Qed.

Lemma m_Alt r1 r2 x k :
  m (Alt r1 r2) x k =
  match m r1 x k with Some z => Some z | None => m r2 x k end.
Proof. reflexivity. Qed.

Lemma m_Class p x k :
  m (Class p) x k =
  match rest x with
  | c :: s' => if p c then k (mkState (S (pos x)) s' (caps x)) else None
  | [] => None
  end.
Proof. reflexivity. Qed.

Lemma m_Group n r x k :
  m (Group n r) x k =
  m r x (fun y => k (mkState (pos y) (rest y)
                       (set_cap n (firstn (pos y - pos x) (rest x)) (caps y)))).
Proof. reflexivity. Qed.

Lemma m_Bol0 s cs k : m Bol (mkState 0 s cs) k = k (mkState 0 s cs).
Proof. reflexivity. Qed.

Lemma m_Star_Class p x k :
  m (Star (Class p)) x k = star_class p k (S (List.length (rest x))) x.
Proof. reflexivity. Qed.

Lemma adv_0 x : adv 0 x = x.
Proof. destruct x; unfold adv; simpl. now rewrite Nat.add_0_r. Qed.

Lemma m_Lits ps x k :
  m (Lits ps) x k =
  if prefix_ok ps (rest x) then k (adv (List.length ps) x) else None.
Proof.
  revert x; induction ps as [|p ps IH]; intros x.
  - simpl. now rewrite adv_0.
  - simpl Lits. rewrite m_Seq, m_Class.
    destruct x as [i s cs]; simpl.
    destruct s as [|c s]; [reflexivity|].
    destruct (p c); simpl; [|reflexivity].
    rewrite IH. simpl. unfold adv; simpl.
    now rewrite Nat.add_succ_r.
Qed.

Lemma star_class_greedy p k fuel i s cs :
  List.length s < fuel ->
  star_class p k fuel (mkState i s cs) = greedy p k i s cs.
Proof.
  revert i s; induction fuel as [|fuel IH]; intros i s Hlt; [lia|].
  destruct s as [|c s]; cbn [star_class rest pos caps greedy]; [reflexivity|].
  destruct (p c); [|reflexivity].
  assert (E : Nat.eqb (S i) i = false) by (apply Nat.eqb_neq; lia).
  rewrite E, IH by (simpl in Hlt; lia). reflexivity.
Qed.

Lemma m_Star_Class_greedy p i s cs k :
  m (Star (Class p)) (mkState i s cs) k = greedy p k i s cs.
Proof.
  rewrite m_Star_Class. apply star_class_greedy. simpl; lia.
Qed.

(** When what follows [p*] cannot start on a code unit that [p] accepts,
    only the longest run can succeed. *)
Lemma greedy_longest p k i s cs :
  (forall j c t, p c = true -> k (mkState j (c :: t) cs) = None) ->
  greedy p k i s cs =
  k (mkState (i + List.length (takeWhile p s)) (dropWhile p s) cs).
Proof.
  intros Hk. revert i; induction s as [|c s IH]; intros i; simpl.
  - now rewrite Nat.add_0_r.
  - destruct (p c) eqn:Hp.
    + rewrite IH. simpl. rewrite Nat.add_succ_r.
      destruct (k _) eqn:E; [reflexivity|].
      apply Hk; exact Hp.
    + now rewrite Nat.add_0_r.
Qed.

(** A pattern that starts with [^] matches at index 0 only. *)
Lemma exec_from_Bol r i s :
  exec_from (Seq Bol r) (S i) s = None.
Proof.
  revert i; induction s as [|c s IH]; intros i; simpl; [reflexivity|].
  apply IH.
Qed.

Lemma test_Bol r s :
  test (Seq Bol r) s = is_some (m r (mkState 0 s []) (fun y => Some y)).
Proof.
  unfold test. destruct s as [|c s]; simpl.
  - unfold match_at; simpl. now destruct (m r _ _).
  - unfold match_at; simpl. destruct (m r _ _); [reflexivity|].
    now rewrite exec_from_Bol.
Qed.

End RegExpFacts.

Section StringFacts.

Lemma take_drop_While p s : takeWhile p s ++ dropWhile p s = s.
Proof.
  induction s as [|c s IH]; simpl; [reflexivity|].
  destruct (p c); simpl; [now rewrite IH | reflexivity].
Qed.

Lemma takeWhile_all p s : forallb p (takeWhile p s) = true.
Proof.
  induction s as [|c s IH]; simpl; [reflexivity|].
  destruct (p c) eqn:E; simpl; [now rewrite E | reflexivity].
Qed.

Lemma dropWhile_hd p s : hd_not p (dropWhile p s).
Proof.
  induction s as [|c s IH]; simpl; [exact I|].
  destruct (p c) eqn:E; [exact IH | exact E].
Qed.

Lemma dropWhile_fix p s : hd_not p s -> dropWhile p s = s.
Proof.
  destruct s as [|c s]; simpl; [reflexivity|]. now intros ->.
Qed.

Lemma takeWhile_fix p s : forallb p s = true -> takeWhile p s = s.
Proof.
  induction s as [|c s IH]; simpl; [reflexivity|].
  destruct (p c); simpl; [intros H; now rewrite IH | discriminate].
Qed.

Lemma dropWhile_all p s : forallb p s = true -> dropWhile p s = [].
Proof.
  induction s as [|c s IH]; simpl; [reflexivity|].
  destruct (p c); simpl; [exact IH | discriminate].
Qed.

Lemma is_empty_dropWhile p s : is_empty (dropWhile p s) = forallb p s.
Proof.
  induction s as [|c s IH]; simpl; [reflexivity|].
  destruct (p c) eqn:E; simpl; [exact IH | reflexivity].
Qed.

Lemma is_empty_false (s : str) : is_empty s = false <-> s <> [].
Proof. destruct s; simpl; split; congruence. Qed.

(** The trailing part [trimEnd] removes is white space, and what is left
    does not end in white space. *)
Lemma trimEnd_spec s :
  exists w, s = trimEnd s ++ w /\ forallb is_white_space w = true
            /\ hd_not is_white_space (rev (trimEnd s)).
Proof.
  unfold trimEnd. exists (rev (takeWhile is_white_space (rev s))).
  repeat split.
  - rewrite <- rev_app_distr, take_drop_While. now rewrite rev_involutive.
  - rewrite forallb_forall. intros c Hc. apply in_rev in Hc.
    pose proof (takeWhile_all is_white_space (rev s)) as H.
    rewrite forallb_forall in H. now apply H.
  - rewrite rev_involutive. apply dropWhile_hd.
Qed.

Lemma trimEnd_fix s : hd_not is_white_space (rev s) -> trimEnd s = s.
Proof.
  intros H. unfold trimEnd. rewrite dropWhile_fix by exact H.
  apply rev_involutive.
Qed.

Lemma trimEnd_hd s :
  hd_not is_white_space s -> hd_not is_white_space (trimEnd s).
Proof.
  intros H. destruct (trimEnd_spec s) as (w & E & _ & _).
  destruct (trimEnd s) as [|c u]; [exact I|].
  rewrite E in H. exact H.
Qed.

(** A trimmed string neither starts nor ends with white space. *)
Lemma trim_ends s :
  hd_not is_white_space (trim s) /\ hd_not is_white_space (rev (trim s)).
Proof.
  unfold trim. split.
  - apply trimEnd_hd, dropWhile_hd.
  - destruct (trimEnd_spec (trimStart s)) as (w & _ & _ & H). exact H.
Qed.

Lemma trim_fix s :
  hd_not is_white_space s -> hd_not is_white_space (rev s) -> trim s = s.
Proof.
  intros H1 H2. unfold trim, trimStart.
  rewrite dropWhile_fix by exact H1. now apply trimEnd_fix.
Qed.

Lemma trim_idem s : trim (trim s) = trim s.
Proof. destruct (trim_ends s). now apply trim_fix. Qed.

Lemma hd_not_forall (p q : char -> bool) s :
  (forall c, q c = true -> p c = false) -> forallb q s = true -> hd_not p s.
Proof.
  intros Hpq. destruct s as [|c s]; simpl; [easy|].
  intros H. apply andb_prop in H as [H _]. now apply Hpq.
Qed.

Lemma forallb_rev (p : char -> bool) s : forallb p (rev s) = forallb p s.
Proof.
  induction s as [|c s IH]; simpl; [reflexivity|].
  rewrite forallb_app, IH. simpl. rewrite andb_true_r. apply andb_comm.
Qed.

Lemma trim_no_ws (q : char -> bool) s :
  (forall c, q c = true -> is_white_space c = false) ->
  forallb q s = true -> trim s = s.
Proof.
  intros Hq Hs. apply trim_fix.
  - eapply hd_not_forall; eauto.
  - eapply hd_not_forall; eauto. now rewrite forallb_rev.
Qed.

Lemma digit_not_ws c : is_digit c = true -> is_white_space c = false.
Proof.
  unfold is_digit, is_white_space. intros H.
  apply andb_prop in H as [H1 H2].
  apply N.leb_le in H1. apply N.leb_le in H2.
  repeat rewrite orb_false_iff. repeat rewrite andb_false_iff.
  repeat split;
    try (apply N.eqb_neq; lia);
    try (right; apply N.leb_gt; lia);
    try (left; apply N.leb_gt; lia).
Qed.

End StringFacts.

Section CellFacts.

(** The integer-marker test, read off the pattern: after trimming, one or
    more code units, all of them ASCII digits. *)
Lemma isIntegerCell_spec v :
  isIntegerCell v = negb (is_empty (trim v)) && forallb is_digit (trim v).
Proof.
  unfold isIntegerCell, re_integer. rewrite test_Bol.
  unfold Plus. rewrite !m_Seq, m_Class.
  destruct (trim v) as [|c t]; [reflexivity|].
  cbn [rest pos caps is_empty negb andb forallb].
  fold (is_digit c). destruct (is_digit c); [|reflexivity].
  rewrite m_Star_Class_greedy.
  rewrite greedy_longest.
  - cbn [m rest]. fold is_digit.
    rewrite <- is_empty_dropWhile.
    now destruct (dropWhile _ t).
  - intros j c' t' _. reflexivity.
Qed.

End CellFacts.

Section ModelBuilderFacts.

Lemma is_section_row_nonempty r :
  is_section_row r = true -> is_empty (trim (orElse (at_ r 0) [])) = false.
Proof.
  unfold is_section_row. rewrite isIntegerCell_spec, trim_idem.
  intros H. apply andb_prop in H as [H _].
  now apply negb_true_iff in H.
Qed.

Lemma is_section_row_digits r :
  let a := trim (orElse (at_ r 0) []) in
  a <> [] -> forallb is_digit a = true -> is_section_row r = true.
Proof.
  intros a Hne Hd. unfold is_section_row. fold a.
  rewrite isIntegerCell_spec.
  rewrite (trim_no_ws is_digit a digit_not_ws Hd), Hd.
  apply is_empty_false in Hne. now rewrite Hne.
Qed.

Lemma step_section st r :
  is_section_row r = true ->
  rowsToSections_step st r =
  (fst st ++ [section_of_row (trim (orElse (at_ r 0) [])) r],
   Some (List.length (fst st))).
Proof.
  intros H. destruct st as [secs cur]. unfold rowsToSections_step.
  rewrite (is_section_row_nonempty r H).
  unfold is_section_row in H. now rewrite H.
Qed.

Lemma step_item secs cur r :
  is_section_row r = false ->
  rowsToSections_step (secs, Some cur) r =
  match row_item r with
  | Some it => (push_item cur it secs, Some cur)
  | None => (secs, Some cur)
  end.
Proof.
  intros H. unfold rowsToSections_step, row_item.
  destruct (is_empty _) eqn:E; [reflexivity|].
  unfold is_section_row in H. now rewrite H.
Qed.

Lemma step_orphan secs r :
  is_section_row r = false ->
  rowsToSections_step (secs, None) r = (secs, None).
Proof.
  intros H. unfold rowsToSections_step.
  destruct (is_empty _) eqn:E; [reflexivity|].
  unfold is_section_row in H. now rewrite H.
Qed.

(** A row that is no section row and yields no item changes nothing. *)
Lemma step_noop st r :
  is_section_row r = false -> row_item r = None ->
  rowsToSections_step st r = st.
Proof.
  intros H1 H2. destruct st as [secs [cur|]].
  - rewrite step_item by exact H1. now rewrite H2.
  - now apply step_orphan.
Qed.

Lemma push_item_last secs s it :
  push_item (List.length secs) it (secs ++ [s]) = secs ++ [with_items s [it]].
Proof.
  induction secs as [|s0 secs IH]; simpl; [reflexivity|]. now rewrite IH.
Qed.

Lemma with_items_app s a b :
  with_items (with_items s a) b = with_items s (a ++ b).
Proof. unfold with_items; simpl. now rewrite app_assoc. Qed.

Lemma with_items_nil s : with_items s [] = s.
Proof. destruct s; unfold with_items; simpl. now rewrite app_nil_r. Qed.

Lemma run_cons r rows st :
  run (r :: rows) st = run rows (rowsToSections_step st r).
Proof. reflexivity. Qed.

Lemma run_app a b st : run (a ++ b) st = run b (run a st).
Proof. apply fold_left_app. Qed.

(** The item rows after a section row fill that section. *)
Lemma run_item_rows rows secs s :
  forallb (fun r => negb (is_section_row r)) rows = true ->
  run rows (secs ++ [s], Some (List.length secs)) =
  (secs ++ [with_items s (items_of_rows rows)], Some (List.length secs)).
Proof.
  revert s; induction rows as [|r rows IH]; intros s H.
  - simpl. now rewrite with_items_nil.
  - simpl in H. apply andb_prop in H as [Hr H].
    apply negb_true_iff in Hr.
    rewrite run_cons, step_item by exact Hr.
    unfold items_of_rows; simpl flat_map; fold (items_of_rows rows).
    destruct (row_item r) as [it|].
    + rewrite push_item_last, IH by exact H.
      now rewrite with_items_app.
    + now rewrite IH by exact H.
Qed.

(** Item rows before any section row are dropped. *)
Lemma run_orphans rows :
  forallb (fun r => negb (is_section_row r)) rows = true ->
  run rows ([], None) = ([], None).
Proof.
  induction rows as [|r rows IH]; intros H; [reflexivity|].
  simpl in H. apply andb_prop in H as [Hr H].
  apply negb_true_iff in Hr.
  rewrite run_cons, step_orphan by exact Hr. now apply IH.
Qed.

(** What the loop does after a section was opened does not depend on the
    sections before it. *)
Lemma run_prefix rows secs s :
  fst (run rows (secs ++ [s], Some (List.length secs))) =
  secs ++ fst (run rows ([s], Some 0)).
Proof.
  revert secs s; induction rows as [|r rows IH]; intros secs s.
  - reflexivity.
  - rewrite !run_cons. destruct (is_section_row r) eqn:Hr.
    + rewrite !step_section by exact Hr. cbn [fst].
      set (s' := section_of_row _ r).
      rewrite (IH (secs ++ [s]) s').
      rewrite (IH [s] s'). now rewrite <- app_assoc.
    + rewrite (step_item (secs ++ [s]) (List.length secs) r Hr).
      rewrite (step_item [s] 0 r Hr).
      destruct (row_item r) as [it|].
      * rewrite push_item_last.
        change (push_item 0 it [s]) with [with_items s [it]]. apply IH.
      * apply IH.
Qed.

Lemma rowsToSections_section r post :
  is_section_row r = true ->
  rowsToSections (r :: post) =
  fst (run post ([section_of_row (trim (orElse (at_ r 0) [])) r], Some 0)).
Proof.
  intros Hr. unfold rowsToSections.
  change (fold_left rowsToSections_step (r :: post) ([], None))
    with (run (r :: post) ([], None)).
  now rewrite run_cons, step_section by exact Hr.
Qed.

(** A section row cuts the input: the sections before it are those of the
    rows before it. *)
Lemma rowsToSections_cut pre r post :
  is_section_row r = true ->
  rowsToSections (pre ++ r :: post) =
  rowsToSections pre ++ rowsToSections (r :: post).
Proof.
  intros Hr. rewrite rowsToSections_section by exact Hr.
  unfold rowsToSections. fold (run (pre ++ r :: post) ([], None)).
  fold (run pre ([], None)).
  rewrite run_app, run_cons, step_section by exact Hr.
  apply run_prefix.
Qed.

Lemma item_rows_next_section rows :
  item_rows rows ++ next_section rows = rows.
Proof.
  induction rows as [|r rows IH]; simpl; [reflexivity|].
  destruct (is_section_row r); simpl; [reflexivity | now rewrite IH].
Qed.

Lemma item_rows_all rows :
  forallb (fun r => negb (is_section_row r)) (item_rows rows) = true.
Proof.
  induction rows as [|r rows IH]; simpl; [reflexivity|].
  destruct (is_section_row r) eqn:E; simpl; [reflexivity|].
  now rewrite E.
Qed.

Lemma next_section_head rows :
  match next_section rows with
  | [] => True
  | r :: _ => is_section_row r = true
  end.
Proof.
  induction rows as [|r rows IH]; simpl; [exact I|].
  destruct (is_section_row r) eqn:E; [exact E | exact IH].
Qed.

(** A section row yields a section holding the items of the item rows up
    to the next section row; the rest of the input follows. *)
Lemma rowsToSections_head r post :
  is_section_row r = true ->
  rowsToSections (r :: post) =
  with_items (section_of_row (trim (orElse (at_ r 0) [])) r)
    (items_of_rows (item_rows post))
  :: rowsToSections (next_section post).
Proof.
  intros Hr. rewrite rowsToSections_section by exact Hr.
  set (s := section_of_row _ r).
  rewrite <- (item_rows_next_section post) at 1.
  rewrite run_app.
  pose proof (run_item_rows (item_rows post) [] s (item_rows_all post)) as H.
  simpl in H. rewrite H. clear H.
  pose proof (next_section_head post) as Hn.
  destruct (next_section post) as [|r2 rest].
  - reflexivity.
  - rewrite rowsToSections_section by exact Hn.
    rewrite run_cons, step_section by exact Hn. cbn [fst].
    set (s1 := with_items s _). set (s2 := section_of_row _ r2).
    apply (run_prefix rest [s1] s2).
Qed.

End ModelBuilderFacts.

Section NumberFacts.

Lemma digit_not_sign c :
  is_digit c = true -> N.eqb c 45 = false /\ N.eqb c 43 = false.
Proof.
  unfold is_digit. intros H. apply andb_prop in H as [H1 H2].
  apply N.leb_le in H1. split; apply N.eqb_neq; lia.
Qed.

(** On a run of digits [parseInt] reads all of it. *)
Lemma parseInt10_digits a :
  a <> [] -> forallb is_digit a = true ->
  parseInt10 a = Number_of_decimal false (digits_value a) 0.
Proof.
  intros Hne Hd. unfold parseInt10, trimStart.
  rewrite dropWhile_fix
    by (eapply hd_not_forall; [exact digit_not_ws | exact Hd]).
  destruct a as [|c a]; [congruence|].
  pose proof Hd as Hd'. simpl in Hd'. apply andb_prop in Hd' as [Hc _].
  destruct (digit_not_sign c Hc) as [E1 E2].
  unfold split_sign. rewrite E1, E2.
  rewrite takeWhile_fix by exact Hd. reflexivity.
Qed.

(** When [parseNumberCell] with fallback NaN is not finite: the cell is
    absent, empty after trimming, or its text is no finite number. *)
Lemma parseNumberCell_NaN cell :
  isFinite (parseNumberCell cell NaN) = false <->
  match cell with
  | None => True
  | Some c => trim c = [] \/ isFinite (parseFloat (trim c)) = false
  end.
Proof.
  destruct cell as [c|]; simpl; [|now split].
  destruct (trim c) as [|x t] eqn:E; simpl.
  - split; [now left | reflexivity].
  - destruct (isFinite (parseFloat (x :: t))) eqn:F; split; intros H.
    + congruence.
    + destruct H as [H|H]; congruence.
    + now right.
    + reflexivity.
Qed.

End NumberFacts.

Section ItemFacts.

Lemma row_item_finite r it :
  row_item r = Some it ->
  isFinite (Item.x it) = true /\ isFinite (Item.y it) = true.
Proof.
  unfold row_item, item_of_row.
  destruct (is_empty _); [discriminate|].
  destruct (isFinite (parseNumberCell (at_ r 2) NaN)) eqn:Ex;
    destruct (isFinite (parseNumberCell (at_ r 3) NaN)) eqn:Ey;
    simpl; try discriminate.
  intros H. injection H as <-. simpl. now split.
Qed.

Lemma in_items_of_rows it rows :
  In it (items_of_rows rows) -> exists r, In r rows /\ row_item r = Some it.
Proof.
  unfold items_of_rows. rewrite in_flat_map. intros (r & Hr & Hit).
  exists r. split; [exact Hr|].
  destruct (row_item r) as [it'|]; simpl in Hit; [|contradiction].
  destruct Hit as [->|[]]. reflexivity.
Qed.

Lemma item_rows_incl rows r : In r (item_rows rows) -> In r rows.
Proof.
  induction rows as [|r0 rows IH]; simpl; [easy|].
  destruct (is_section_row r0); simpl; [easy|].
  intros [H|H]; [now left | right; now apply IH].
Qed.

Lemma next_section_incl rows r : In r (next_section rows) -> In r rows.
Proof.
  induction rows as [|r0 rows IH]; simpl; [easy|].
  destruct (is_section_row r0); simpl; [easy|].
  intros H; right; now apply IH.
Qed.

Lemma next_section_length rows :
  List.length (next_section rows) <= List.length rows.
Proof.
  induction rows as [|r0 rows IH]; simpl; [lia|].
  destruct (is_section_row r0); simpl; lia.
Qed.

Lemma rowsToSections_orphan r rows :
  is_section_row r = false -> rowsToSections (r :: rows) = rowsToSections rows.
Proof.
  intros H. unfold rowsToSections.
  fold (run (r :: rows) ([], None)).
  now rewrite run_cons, step_orphan by exact H.
Qed.

(** Every item of every section comes from a row of the input. *)
Lemma rowsToSections_items rows :
  forall sec it,
    In sec (rowsToSections rows) -> In it (Section_.items sec) ->
    exists r, In r rows /\ row_item r = Some it.
Proof.
  remember (List.length rows) as n eqn:Hn.
  revert rows Hn. induction n as [n IH] using lt_wf_ind.
  intros rows Hn sec it Hsec Hit.
  destruct rows as [|r post]; [contradiction|].
  destruct (is_section_row r) eqn:Hr.
  - rewrite rowsToSections_head in Hsec by exact Hr.
    destruct Hsec as [<- | Hsec].
    + simpl in Hit. apply in_items_of_rows in Hit as (r' & Hr' & E).
      exists r'. split; [right; now apply item_rows_incl | exact E].
    + pose proof (next_section_length post) as Hlen.
      destruct (IH (List.length (next_section post))
                  ltac:(simpl in Hn; lia) _ eq_refl sec it Hsec Hit)
        as (r' & Hr' & E).
      exists r'. split; [right; now apply next_section_incl | exact E].
  - rewrite rowsToSections_orphan in Hsec by exact Hr.
    destruct (IH (List.length post) ltac:(simpl in Hn; lia) _ eq_refl
                sec it Hsec Hit) as (r' & Hr' & E).
    exists r'. split; [now right | exact E].
Qed.

Lemma items_finite rows sec it :
  In sec (rowsToSections rows) -> In it (Section_.items sec) ->
  isFinite (Item.x it) = true /\ isFinite (Item.y it) = true.
Proof.
  intros H1 H2.
  destruct (rowsToSections_items rows sec it H1 H2) as (r & _ & E).
  now apply row_item_finite in E.
Qed.

(** A finite Number is equal to itself under [===]. *)
Lemma finite_eqb_refl (v : Number) :
  isFinite v = true -> PrimFloat.eqb v v = true.
Proof.
  unfold isFinite, is_finite, is_nan. intros H.
  apply negb_true_iff, orb_false_iff in H as [H _].
  now apply negb_false_iff in H.
Qed.

End ItemFacts.

Section CsvFacts.

Lemma dropWhile_app_stop p a c b :
  p c = false -> dropWhile p (a ++ c :: b) = dropWhile p a ++ c :: b.
Proof.
  intros Hc. induction a as [|x a IH]; simpl.
  - now rewrite Hc.
  - destruct (p x); [exact IH | reflexivity].
Qed.

Lemma trimStart_app_stop a c b :
  is_white_space c = false ->
  trimStart (a ++ c :: b) = trimStart a ++ c :: b.
Proof. apply dropWhile_app_stop. Qed.

Lemma trimEnd_app_stop a c b :
  is_white_space c = false ->
  trimEnd (a ++ c :: b) = a ++ c :: trimEnd b.
Proof.
  intros Hc. unfold trimEnd.
  rewrite rev_app_distr. simpl rev. rewrite <- app_assoc. simpl.
  rewrite dropWhile_app_stop by exact Hc.
  rewrite rev_app_distr. simpl. rewrite rev_involutive.
  now rewrite <- app_assoc.
Qed.

(** Trimming a string around a code unit that is no white space. *)
Lemma trim_around a c b :
  is_white_space c = false ->
  trim (a ++ c :: b) = trimStart a ++ c :: trimEnd b.
Proof.
  intros Hc. unfold trim.
  rewrite trimStart_app_stop by exact Hc.
  now apply trimEnd_app_stop.
Qed.

(** Inside quotes the parser copies the content of a quoted field, one
    quote for each doubled quote, up to the closing quote. *)
Lemma loop_in_quotes s text rows row field :
  match text with c :: _ => N.eqb c QUOTE = false | [] => True end ->
  parseCsv_loop (double_quotes s ++ QUOTE :: text)
    (Csv.mk rows row field true) =
  parseCsv_loop text (Csv.mk rows row (field ++ s) false).
Proof.
  intros Hnext. revert field; induction s as [|c s IH]; intros field.
  - simpl. rewrite app_nil_r.
    destruct text as [|c t]; [reflexivity|]. now rewrite Hnext.
  - simpl double_quotes. destruct (N.eqb c QUOTE) eqn:E.
    + apply N.eqb_eq in E; subst c. simpl.
      rewrite IH. now rewrite <- app_assoc.
    + simpl. rewrite E. rewrite IH. now rewrite <- app_assoc.
Qed.

Lemma loop_quote_field s text rows row field :
  match text with c :: _ => N.eqb c QUOTE = false | [] => True end ->
  parseCsv_loop (quote_field s ++ text) (Csv.mk rows row field false) =
  parseCsv_loop text (Csv.mk rows row (field ++ s) false).
Proof.
  intros Hnext. unfold quote_field. rewrite <- !app_assoc. simpl.
  now apply loop_in_quotes.
Qed.

(** A line of quoted fields is read back as these fields. *)
Lemma loop_quoted_line fields f row :
  parseCsv_loop (csv_line (map quote_field (f :: fields)))
    (Csv.mk [] row [] false) =
  Csv.mk [] (row ++ removelast (f :: fields)) (last (f :: fields) [])
    false.
Proof.
  revert f row; induction fields as [|g fields IH]; intros f row.
  - simpl csv_line.
    rewrite <- (app_nil_r (quote_field f)).
    rewrite loop_quote_field by exact I.
    simpl. now rewrite app_nil_r.
  - change (csv_line (map quote_field (f :: g :: fields)))
      with (quote_field f ++ [44%N] ++ csv_line (map quote_field (g :: fields))).
    rewrite loop_quote_field by reflexivity.
    cbn [app parseCsv_loop]. cbn [N.eqb QUOTE Pos.eqb].
    rewrite IH. simpl removelast. simpl last.
    now rewrite <- app_assoc.
Qed.

Lemma removelast_last (f : str) fields :
  removelast (f :: fields) ++ [last (f :: fields) []] = f :: fields.
Proof.
  symmetry. apply app_removelast_last. discriminate.
Qed.

(** A line of quoted fields is read back as one row of these fields,
    trimmed; the line that is one empty quoted field gives no row. *)
Lemma parseCsv_quoted_line f fields :
  f <> [] \/ fields <> [] ->
  parseCsv (csv_line (map quote_field (f :: fields))) =
  [map trim (f :: fields)].
Proof.
  intros Hne. unfold parseCsv, parseCsv_rows, Csv.init.
  rewrite loop_quoted_line. cbn [Csv.field Csv.row Csv.rows app].
  match goal with
  | |- context [if ?b then _ else _] => assert (E : b = true)
  end.
  { destruct fields as [|g fields].
    - simpl. destruct f; [now destruct Hne | reflexivity].
    - apply orb_true_iff. right. destruct fields; reflexivity. }
  rewrite E. cbn [map app]. now rewrite removelast_last.
Qed.

End CsvFacts.

Section CsvContentFacts.

Variable ch : char.

Lemma lacks_app s t : lacks ch (s ++ t) = lacks ch s && lacks ch t.
Proof. apply forallb_app. Qed.

Lemma lacks_snoc s x :
  lacks ch s = true -> N.eqb x ch = false -> lacks ch (s ++ [x]) = true.
Proof.
  intros Hs Hx. rewrite lacks_app, Hs. simpl. now rewrite Hx.
Qed.

Lemma lacks_dropWhile p s : lacks ch s = true -> lacks ch (dropWhile p s) = true.
Proof.
  induction s as [|c s IH]; simpl; [easy|].
  intros H. destruct (p c); [|exact H].
  apply andb_prop in H as [_ H]. now apply IH.
Qed.

Lemma lacks_rev s : lacks ch (rev s) = lacks ch s.
Proof. apply forallb_rev. Qed.

Lemma lacks_trim s : lacks ch s = true -> lacks ch (trim s) = true.
Proof.
  intros H. unfold trim, trimEnd, trimStart.
  rewrite lacks_rev. apply lacks_dropWhile.
  rewrite lacks_rev. now apply lacks_dropWhile.
Qed.

Lemma state_lacks_intro rows row field q :
  rows_lack ch rows = true -> forallb (lacks ch) row = true ->
  lacks ch field = true ->
  state_lacks ch (Csv.mk rows row field q) = true.
Proof.
  intros H1 H2 H3. unfold state_lacks; simpl. now rewrite H1, H2, H3.
Qed.

Lemma state_lacks_elim rows row field q :
  state_lacks ch (Csv.mk rows row field q) = true ->
  rows_lack ch rows = true /\ forallb (lacks ch) row = true
  /\ lacks ch field = true.
Proof.
  unfold state_lacks; simpl. intros H.
  apply andb_prop in H as [H H3]. apply andb_prop in H as [H1 H2].
  now repeat split.
Qed.

Lemma state_lacks_field rows row field q q' x :
  state_lacks ch (Csv.mk rows row field q) = true -> N.eqb x ch = false ->
  state_lacks ch (Csv.mk rows row (field ++ [x]) q') = true.
Proof.
  intros H Hx. apply state_lacks_elim in H as (H1 & H2 & H3).
  apply state_lacks_intro; auto using lacks_snoc.
Qed.

Lemma state_lacks_comma rows row field q q' :
  state_lacks ch (Csv.mk rows row field q) = true ->
  state_lacks ch (Csv.mk rows (row ++ [field]) [] q') = true.
Proof.
  intros H. apply state_lacks_elim in H as (H1 & H2 & H3).
  apply state_lacks_intro; auto.
  rewrite forallb_app, H2. simpl. now rewrite H3.
Qed.

Lemma state_lacks_newline rows row field q q' :
  state_lacks ch (Csv.mk rows row field q) = true ->
  state_lacks ch (Csv.mk (rows ++ [row ++ [field]]) [] [] q') = true.
Proof.
  intros H. apply state_lacks_elim in H as (H1 & H2 & H3).
  apply state_lacks_intro; auto.
  unfold rows_lack. rewrite forallb_app. fold (rows_lack ch rows).
  rewrite H1. simpl. rewrite forallb_app, H2. simpl. now rewrite H3.
Qed.

(** From the final state of the loop to the cells of the result. *)
Lemma parseCsv_lacks text :
  state_lacks ch (parseCsv_loop text Csv.init) = true ->
  rows_lack ch (parseCsv text) = true.
Proof.
  intros H. unfold parseCsv, parseCsv_rows.
  destruct (parseCsv_loop text Csv.init) as [rows row field q].
  pose proof (state_lacks_newline _ _ _ q false H) as H'.
  apply state_lacks_elim in H as (H1 & _). 
  apply state_lacks_elim in H' as (H2 & _).
  cbn [Csv.rows Csv.row Csv.field].
  assert (T : forall rs, rows_lack ch rs = true ->
                rows_lack ch (map (fun r => map (fun c => trim c) r) rs) = true).
  { intros rs. unfold rows_lack. rewrite !forallb_forall.
    intros Hrs r Hr. apply in_map_iff in Hr as (r0 & <- & Hr0).
    specialize (Hrs r0 Hr0). rewrite forallb_forall in *.
    intros c Hc. apply in_map_iff in Hc as (c0 & <- & Hc0).
    apply lacks_trim. now apply Hrs. }
  destruct (_ || _); now apply T.
Qed.

End CsvContentFacts.

Section CsvQuoteFacts.

(** Without a doubled quote in the text the parser never stores a quote. *)
Lemma loop_lacks_quote text st :
  no_doubled_quote text = true ->
  state_lacks QUOTE st = true ->
  state_lacks QUOTE (parseCsv_loop text st) = true.
Proof.
  revert st; induction text as [|c text IH]; intros st Hnd Hst; [exact Hst|].
  destruct st as [rows row field q].
  cbn [no_doubled_quote] in Hnd. apply andb_prop in Hnd as [Hhd Hnd].
  cbn [parseCsv_loop].
  destruct q.
  - destruct (N.eqb c QUOTE) eqn:Ec.
    + destruct text as [|next text'].
      * exact Hst.
      * simpl in Hhd. apply negb_true_iff in Hhd. rewrite Hhd.
        apply IH; [exact Hnd | exact Hst].
    + apply IH; [exact Hnd|]. eapply state_lacks_field; eauto.
  - destruct (N.eqb c QUOTE) eqn:Ec.
    + apply IH; [exact Hnd | exact Hst].
    + destruct (N.eqb c 44).
      * apply IH; [exact Hnd|]. eapply state_lacks_comma; eauto.
      * destruct (N.eqb c LF).
        -- apply IH; [exact Hnd|]. eapply state_lacks_newline; eauto.
        -- destruct (N.eqb c CR).
           ++ apply IH; [exact Hnd | exact Hst].
           ++ apply IH; [exact Hnd|]. eapply state_lacks_field; eauto.
Qed.

(** A carriage return outside quotes is never stored. *)
Lemma loop_lacks_CR n :
  forall text st,
    List.length text <= n ->
    crs_outside_quotes (Csv.inQuotes st) text = true ->
    state_lacks CR st = true ->
    state_lacks CR (parseCsv_loop text st) = true.
Proof.
  induction n as [|n IH]; intros text st Hlen Hcr Hst.
  - destruct text; [exact Hst | simpl in Hlen; lia].
  - destruct text as [|c text]; [exact Hst|].
    simpl in Hlen. apply le_S_n in Hlen.
    destruct st as [rows row field q].
    cbn [Csv.inQuotes crs_outside_quotes] in Hcr.
    cbn [parseCsv_loop].
    destruct q.
    + destruct (N.eqb c QUOTE) eqn:Ec.
      * destruct text as [|next text'].
        -- exact Hst.
        -- destruct (N.eqb next QUOTE) eqn:En.
           ++ apply IH.
              ** simpl in Hlen. lia.
              ** cbn [Csv.inQuotes]. simpl in Hcr. now rewrite En in Hcr.
              ** eapply state_lacks_field; eauto.
           ++ apply IH; [exact Hlen | exact Hcr | exact Hst].
      * destruct (N.eqb c CR) eqn:Er; [discriminate|].
        apply IH; [exact Hlen | exact Hcr|].
        eapply state_lacks_field; eauto.
    + destruct (N.eqb c QUOTE) eqn:Ec.
      * apply IH; [exact Hlen | exact Hcr | exact Hst].
      * rewrite andb_false_r in Hcr.
        destruct (N.eqb c 44).
        -- apply IH; [exact Hlen | exact Hcr|].
           eapply state_lacks_comma; eauto.
        -- destruct (N.eqb c LF).
           ++ apply IH; [exact Hlen | exact Hcr|].
              eapply state_lacks_newline; eauto.
           ++ destruct (N.eqb c CR) eqn:Er.
              ** apply IH; [exact Hlen | exact Hcr | exact Hst].
              ** apply IH; [exact Hlen | exact Hcr|].
                 eapply state_lacks_field; eauto.
Qed.

End CsvQuoteFacts.

Section NavigableFacts.

Lemma is_some_orelse {A} (o o' : option A) :
  is_some (match o with Some z => Some z | None => o' end) =
  is_some o || is_some o'.
Proof. now destruct o. Qed.

Lemma is_some_if {A} (b : bool) (o : option A) :
  is_some (if b then o else None) = b && is_some o.
Proof. now destruct b. Qed.

(** Under the [i] flag an ASCII pattern character accepts the code units
    that equal it up to ASCII case. *)
Lemma chr_i_ci_eqb a c :
  (N_of_ascii a < 128)%N -> chr_i a c = ci_eqb (N_of_ascii a) c.
Proof.
  unfold chr_i, ci_eqb. generalize (N_of_ascii a) as p. clear a. intros p Hp.
  unfold upper, lower.
  repeat match goal with
         | |- context [N.leb ?u ?v] => destruct (N.leb_spec u v)
         | |- context [N.ltb ?u ?v] => destruct (N.ltb_spec u v)
         end; cbn [andb];
  repeat match goal with
         | |- context [N.eqb ?u ?v] => destruct (N.eqb_spec u v)
         end; try reflexivity; try lia.
Qed.

Lemma prefix_ok_chr_i (l : string) s :
  Forall (fun a => (N_of_ascii a < 128)%N) (list_ascii_of_string l) ->
  prefix_ok (map chr_i (list_ascii_of_string l)) s = starts_with_ci (lit l) s.
Proof.
  unfold lit. generalize (list_ascii_of_string l) as as_. clear l.
  intros as_ H. revert s; induction H as [|a as_ Ha H IH]; intros s; simpl.
  - reflexivity.
  - destruct s as [|c s]; [reflexivity|].
    now rewrite IH, chr_i_ci_eqb by exact Ha.
Qed.

Lemma starts_with_ci_app p q s :
  starts_with_ci (p ++ q) s =
  starts_with_ci p s && starts_with_ci q (skipn (List.length p) s).
Proof.
  revert s; induction p as [|a p IH]; intros s; simpl; [reflexivity|].
  destruct s as [|c s]; [reflexivity|].
  now rewrite IH, andb_assoc.
Qed.

Lemma m_Lit_i l x k :
  Forall (fun a => (N_of_ascii a < 128)%N) (list_ascii_of_string l) ->
  m (Lit_i l) x k =
  if starts_with_ci (lit l) (rest x)
  then k (adv (List.length (lit l)) x) else None.
Proof.
  intros H. unfold Lit_i. rewrite m_Lits, prefix_ok_chr_i by exact H.
  unfold lit. now rewrite !length_map.
Qed.

Lemma m_Empty x k : m Empty x k = k x.
Proof. reflexivity. Qed.

(** The pattern of [isNavigableUrl], read as a test of prefixes. *)
Lemma test_re_navigable t :
  test re_navigable t =
  starts_with_ci (lit "http://") t || starts_with_ci (lit "https://") t
  || starts_with_ci (lit "mailto:") t.
Proof.
  unfold re_navigable. rewrite test_Bol, m_Group, m_Alt, is_some_orelse.
  rewrite m_Seq.
  rewrite !m_Lit_i by (repeat constructor; reflexivity).
  cbn [rest pos caps].
  rewrite !is_some_if. cbn [is_some]. rewrite andb_true_r.
  change (lit "http://") with (lit "http" ++ lit "://").
  change (lit "https://") with (lit "http" ++ lit "s://").
  rewrite !starts_with_ci_app.
  destruct (starts_with_ci (lit "http") t); cbn [andb orb]; [|reflexivity].
  f_equal.
  rewrite m_Seq. unfold Opt. rewrite m_Alt, is_some_orelse, m_Class, m_Empty.
  rewrite m_Lit_i by (repeat constructor; reflexivity).
  rewrite is_some_if. cbn [is_some]. rewrite andb_true_r.
  unfold adv. cbn [rest pos caps].
  change (List.length (lit "http")) with 4.
  destruct (skipn 4 t) as [|c u] eqn:E.
  - reflexivity.
  - change (lit "s://") with (115%N :: lit "://").
    cbn [starts_with_ci].
    rewrite (chr_i_ci_eqb "s" c) by reflexivity.
    change (N_of_ascii "s") with 115%N.
    destruct (ci_eqb 115%N c) eqn:Ec; cbn [andb].
    + rewrite m_Lit_i by (repeat constructor; reflexivity).
      rewrite is_some_if. cbn [is_some rest]. rewrite andb_true_r.
      apply orb_comm.
    + cbn [is_some orb]. now rewrite orb_false_r.
Qed.

End NavigableFacts.

Section ClassificationFacts.

Lemma isNavigableUrl_spec s : isNavigableUrl s = begins_with_scheme s.
Proof.
  unfold isNavigableUrl, begins_with_scheme.
  destruct s as [|c s]; [reflexivity|].
  cbn [is_empty existsb]. rewrite test_re_navigable.
  now rewrite orb_false_r, orb_assoc.
Qed.

Lemma row_item_isUrl r it :
  row_item r = Some it ->
  Item.isUrl it = isNavigableUrl (Item.linkOrText it)
  /\ Item.linkOrText it = trim (unquote (orElse (at_ r 1) [])).
Proof.
  unfold row_item, item_of_row.
  destruct (is_empty _); [discriminate|].
  destruct (_ || _); [discriminate|].
  intros H. injection H as <-. now split.
Qed.

End ClassificationFacts.

Section UnquoteFacts.

Lemma mid_len_spec u n :
  mid_len u = Some n <->
  exists mid, u = mid ++ [QUOTE] /\ forallb dot mid = true
              /\ n = List.length mid.
Proof.
  revert n; induction u as [|c u IH]; intros n.
  - simpl. split; [discriminate|]. intros (mid & E & _). now destruct mid.
  - cbn [mid_len]. destruct u as [|c' u'].
    + destruct (N.eqb_spec c QUOTE) as [->|Hc]; split.
      * intros H; injection H as <-. now exists [].
      * intros (mid & E & _ & ->). destruct mid as [|x [|y mid]];
          simpl in E; try discriminate; reflexivity.
      * discriminate.
      * intros (mid & E & _). destruct mid as [|x [|y mid]];
          simpl in E; try discriminate. congruence.
    + destruct (dot c) eqn:Hd; split.
      * destruct (mid_len (c' :: u')) as [k|] eqn:Ek; [|discriminate].
        intros H; injection H as <-.
        destruct (proj1 (IH k) eq_refl) as (mid & E & Hm & ->).
        exists (c :: mid). rewrite E. simpl. now rewrite Hd, Hm.
      * intros (mid & E & Hm & ->). destruct mid as [|x mid];
          [discriminate|]. injection E as <- E.
        simpl in Hm. apply andb_prop in Hm as [_ Hm].
        assert (H : mid_len (c' :: u') = Some (List.length mid))
          by (apply IH; now exists mid).
        now rewrite H.
      * discriminate.
      * intros (mid & E & Hm & _). destruct mid as [|x mid];
          [discriminate|]. injection E as <- E.
        simpl in Hm. now rewrite Hd in Hm.
Qed.

(** [.*] followed by the closing quote and the end of the input. *)
Lemma greedy_dot_quote (F : nat -> option state) (k : cont) i u cs :
  (forall j v, k (mkState j v cs) =
               match v with
               | q :: [] => if N.eqb q QUOTE then F j else None
               | _ => None
               end) ->
  greedy dot k i u cs =
  match mid_len u with Some n => F (i + n) | None => None end.
Proof.
  intros Hk. revert i; induction u as [|c u IH]; intros i.
  - simpl. now rewrite Hk.
  - cbn [greedy mid_len]. destruct u as [|c' u'].
    + cbn [greedy]. rewrite !Hk.
      destruct (N.eqb_spec c QUOTE) as [->|Hc].
      * cbn. now rewrite Nat.add_0_r.
      * now destruct (dot c).
    + destruct (dot c) eqn:Hd.
      * rewrite IH. rewrite Hk.
        destruct (mid_len (c' :: u')) as [n|]; cbn [option_map].
        -- rewrite Nat.add_succ_r. cbn. now destruct (F _).
        -- now destruct (N.eqb c QUOTE).
      * rewrite Hk. now destruct (N.eqb c QUOTE).
Qed.

Lemma strip_outer_quotes_mid_len c t :
  strip_outer_quotes (c :: t) =
  if N.eqb c QUOTE
  then match mid_len t with Some n => firstn n t | None => c :: t end
  else c :: t.
Proof.
  unfold strip_outer_quotes.
  destruct (mid_len t) as [n|] eqn:E.
  - apply mid_len_spec in E as (mid & -> & Hm & ->).
    rewrite rev_app_distr. simpl rev. cbn [app].
    rewrite forallb_rev, Hm, N.eqb_refl, rev_involutive, andb_true_r.
    rewrite firstn_app, Nat.sub_diag, firstn_all. simpl.
    rewrite app_nil_r. now destruct (N.eqb c QUOTE).
  - destruct (rev t) as [|q rmid] eqn:Er; [now destruct (N.eqb c QUOTE)|].
    destruct (N.eqb c QUOTE); [|reflexivity]. cbn [andb].
    destruct (N.eqb_spec q QUOTE) as [->|]; [|reflexivity]. cbn [andb].
    destruct (forallb dot rmid) eqn:Hf; [|reflexivity].
    exfalso. assert (H : mid_len t = Some (List.length (rev rmid))).
    { apply mid_len_spec. exists (rev rmid). repeat split.
      - rewrite <- (rev_involutive t), Er. reflexivity.
      - now rewrite forallb_rev. }
    congruence.
Qed.

(** The replace of the outer quotes, read off the pattern. *)
Lemma unquote_spec s : unquote s = strip_outer_quotes s.
Proof.
  destruct s as [|c t]; [reflexivity|].
  rewrite strip_outer_quotes_mid_len.
  unfold unquote, replace1, re_quoted.
  cbn [exec_from]. unfold match_at.
  rewrite exec_from_Bol, m_Seq, m_Bol0, m_Seq, m_Class. cbn [rest pos caps].
  rewrite (N.eqb_sym QUOTE c).
  destruct (N.eqb c QUOTE) eqn:Ec; [|reflexivity].
  rewrite m_Seq, m_Group, m_Star_Class_greedy.
  rewrite (greedy_dot_quote
             (fun j => Some (mkState (S j) []
                               (set_cap 1 (firstn (j - 1) t) [])))).
  - destruct (mid_len t) as [n|]; [|reflexivity].
    cbn. now rewrite Nat.sub_0_r, app_nil_r.
  - intros j v. rewrite m_Seq, m_Class. cbn [rest pos caps].
    destruct v as [|q [|q' v]]; try reflexivity.
    + rewrite N.eqb_sym. destruct (N.eqb q QUOTE); reflexivity.
    + rewrite N.eqb_sym. destruct (N.eqb q QUOTE); reflexivity.
Qed.

End UnquoteFacts.

Section UnquoteCases.

Lemma unquote_quoted mid :
  forallb dot mid = true -> unquote (QUOTE :: mid ++ [QUOTE]) = mid.
Proof.
  intros H. rewrite unquote_spec. unfold strip_outer_quotes.
  rewrite rev_app_distr. cbn [rev app].
  now rewrite forallb_rev, H, rev_involutive.
Qed.

Lemma unquote_other s :
  (forall mid, s = QUOTE :: mid ++ [QUOTE] -> forallb dot mid = false) ->
  unquote s = s.
Proof.
  intros H. rewrite unquote_spec. unfold strip_outer_quotes.
  destruct s as [|c t]; [reflexivity|].
  destruct (rev t) as [|q rmid] eqn:Er; [reflexivity|].
  destruct (N.eqb_spec c QUOTE) as [->|]; [|reflexivity].
  destruct (N.eqb_spec q QUOTE) as [->|]; [|reflexivity].
  destruct (forallb dot rmid) eqn:Hf; [|reflexivity].
  exfalso. specialize (H (rev rmid)).
  rewrite forallb_rev, Hf in H.
  assert (E : t = rev rmid ++ [QUOTE])
    by (rewrite <- (rev_involutive t), Er; reflexivity).
  rewrite E in H. specialize (H eq_refl). discriminate.
Qed.

End UnquoteCases.

Section PercentPatternFacts.

Lemma exec_from_Bol0 r s :
  exec_from (Seq Bol r) 0 s =
  match m r (mkState 0 s []) (fun y => Some y) with
  | Some y => Some (0, s, y)
  | None => None
  end.
Proof.
  destruct s as [|c t]; cbn [exec_from]; unfold match_at;
    rewrite m_Seq, m_Bol0.
  - now destruct (m r _ _).
  - destruct (m r _ _); [reflexivity|]. apply exec_from_Bol.
Qed.

Lemma ws_not_percent c : is_white_space c = true -> N.eqb c 37 = false.
Proof.
  intros H. apply N.eqb_neq. intros ->. discriminate.
Qed.

Lemma digit_not_percent c : is_digit c = true -> N.eqb c 37 = false.
Proof.
  intros H. apply N.eqb_neq. intros ->. discriminate.
Qed.

Lemma digit_not_point c : is_digit c = true -> N.eqb c 46 = false.
Proof.
  intros H. apply N.eqb_neq. intros ->. discriminate.
Qed.

(** An optional percent sign, then the end of the input. *)
Lemma m_tail w :
  m (Seq (Opt (Class (chr "%"))) Eol) w (fun y => Some y) =
  if tail_ok (rest w)
  then Some (mkState (pos w + List.length (rest w)) [] (caps w))
  else None.
Proof.
  destruct w as [i v cs]. unfold Opt.
  rewrite m_Seq, m_Alt, m_Class, m_Empty. cbn [rest pos caps].
  destruct v as [|c t].
  - cbn. now rewrite Nat.add_0_r.
  - unfold chr. change (N_of_ascii "%") with 37%N.
    rewrite (N.eqb_sym 37 c). cbn [tail_ok].
    destruct (N.eqb c 37); cbn [andb]; [|reflexivity].
    destruct t as [|c' t']; cbn; [|reflexivity].
    now rewrite Nat.add_1_r.
Qed.

(** White space, an optional percent sign, the end of the input. *)
Lemma m_ws_tail i v cs :
  m (Seq (Star (Class is_white_space)) (Seq (Opt (Class (chr "%"))) Eol))
    (mkState i v cs) (fun y => Some y) =
  if tail_ok (dropWhile is_white_space v)
  then Some (mkState (i + List.length v) [] cs) else None.
Proof.
  rewrite m_Seq, m_Star_Class_greedy, greedy_longest.
  - rewrite m_tail. cbn [rest pos caps].
    rewrite <- Nat.add_assoc, <- length_app, take_drop_While. reflexivity.
  - intros j c t Hc. rewrite m_tail. cbn [rest tail_ok].
    now rewrite (ws_not_percent c Hc).
Qed.

Lemma m_Plus_Class p j v cs k :
  m (Plus (Class p)) (mkState j v cs) k =
  match v with
  | c :: t => if p c then greedy p k (S j) t cs else None
  | [] => None
  end.
Proof.
  unfold Plus. rewrite m_Seq, m_Class. cbn [rest pos caps].
  destruct v as [|c t]; [reflexivity|].
  destruct (p c); [|reflexivity]. apply m_Star_Class_greedy.
Qed.

(** Digits, then optionally a point and digits. *)
Lemma m_number i u cs (K : cont) :
  (forall j c t, is_digit c = true \/ c = 46%N ->
                 K (mkState j (c :: t) cs) = None) ->
  m (Seq (Plus (Class is_digit))
       (Opt (Seq (Class (chr ".")) (Plus (Class is_digit)))))
    (mkState i u cs) K =
  match number_prefix u with
  | Some (num, s3) => K (mkState (i + List.length num) s3 cs)
  | None => None
  end.
Proof.
  intros HK. unfold Opt.
  rewrite m_Seq, m_Plus_Class.
  destruct u as [|d t]; [reflexivity|]. cbn [number_prefix].
  destruct (is_digit d) eqn:Hd; [|reflexivity].
  rewrite greedy_longest.
  - rewrite m_Alt, m_Seq, m_Class, m_Empty. cbn [rest pos caps].
    destruct (dropWhile is_digit t) as [|c [|d1 t']] eqn:E.
    + same_state K.
    + destruct (chr "." c); [rewrite m_Plus_Class|]; same_state K.
    + unfold chr. change (N_of_ascii ".") with 46%N.
      rewrite (N.eqb_sym 46 c).
      destruct (N.eqb_spec c 46) as [->|Hc]; cbn [andb]; [|same_state K].
      rewrite m_Plus_Class.
      destruct (is_digit d1) eqn:Hd1; [|same_state K].
      rewrite greedy_longest.
      * destruct (K _) eqn:EK.
        -- rewrite <- EK. same_state K.
        -- rewrite HK by now right. rewrite <- EK. same_state K.
      * intros j c t0 Hc. apply HK. now left.
  - intros j c t0 Hc. rewrite m_Alt, m_Seq, m_Class, m_Empty.
    cbn [rest]. unfold chr. change (N_of_ascii ".") with 46%N.
    rewrite (N.eqb_sym 46 c), (digit_not_point c Hc).
    apply HK. now left.
Qed.

Lemma number_prefix_app u num s3 :
  number_prefix u = Some (num, s3) -> u = num ++ s3.
Proof.
  destruct u as [|d t]; [discriminate|]. cbn [number_prefix].
  destruct (is_digit d); [|discriminate].
  pose proof (take_drop_While is_digit t) as Ht.
  destruct (dropWhile is_digit t) as [|c [|d1 t']] eqn:E.
  - intros H; injection H as <- <-. simpl. now rewrite Ht.
  - intros H; injection H as <- <-. simpl. now rewrite Ht.
  - pose proof (take_drop_While is_digit t') as Ht'.
    destruct (N.eqb c 46 && is_digit d1);
      intros H; injection H as <- <-.
    + rewrite <- Ht at 1. simpl. rewrite <- app_assoc. simpl.
      now rewrite Ht'.
    + simpl. now rewrite Ht.
Qed.

Lemma firstn_app_exact (a b : str) : firstn (List.length a) (a ++ b) = a.
Proof.
  rewrite firstn_app, Nat.sub_diag, firstn_all. simpl. apply app_nil_r.
Qed.

(** The pattern of [parsePercentCell], read as a scan from the left. *)
Lemma match_re_percent s :
  match_ re_percent s =
  match scan_percent s with
  | Some c => Some [None; Some c]
  | None => None
  end.
Proof.
  unfold match_, re_percent. rewrite exec_from_Bol0.
  rewrite m_Seq, m_Group, m_Seq. unfold Opt at 1.
  rewrite m_Alt, m_Class, m_Empty. cbn [rest pos caps].
  set (K := fun y : state => m _ _ _).
  assert (HK : forall j c t, is_digit c = true \/ c = 46%N ->
                             K (mkState j (c :: t) []) = None).
  { intros j c t Hc. unfold K. cbn [rest pos caps].
    rewrite m_ws_tail.
    assert (Hw : is_white_space c = false /\ N.eqb c 37 = false).
    { destruct Hc as [Hc | ->]; [|now split].
      split; [now apply digit_not_ws | now apply digit_not_percent]. }
    destruct Hw as [Hw Hp]. cbn [dropWhile]. rewrite Hw.
    cbn [tail_ok]. now rewrite Hp. }
  assert (HN : forall i pre u, s = pre ++ u -> i = List.length pre ->
             match m (Seq (Plus (Class is_digit))
                        (Opt (Seq (Class (chr ".")) (Plus (Class is_digit)))))
                     (mkState i u []) K with
             | Some y => Some (caps y)
             | None => None
             end =
             match number_prefix u with
             | Some (num, s3) =>
                 if tail_ok (dropWhile is_white_space s3)
                 then Some [None; Some (pre ++ num)] else None
             | None => None
             end).
  { intros i pre u Hs Hi. rewrite m_number by exact HK.
    destruct (number_prefix u) as [[num s3]|] eqn:En; [|reflexivity].
    apply number_prefix_app in En. unfold K. cbn [rest pos caps].
    rewrite m_ws_tail.
    destruct (tail_ok _); [|reflexivity]. cbn [caps].
    rewrite Nat.sub_0_r, Hs, En, Hi, <- length_app, app_assoc.
    now rewrite firstn_app_exact. }
  assert (HR : forall pre u,
             match number_prefix u with
             | Some (num, s3) =>
                 if tail_ok (dropWhile is_white_space s3)
                 then Some [None; Some (pre ++ num)] else None
             | None => None
             end =
             match
               match number_prefix u with
               | Some (num, s3) =>
                   if tail_ok (dropWhile is_white_space s3)
                   then Some (pre ++ num) else None
               | None => None
               end
             with
             | Some c => Some [None; Some c]
             | None => None
             end).
  { intros pre u. destruct (number_prefix u) as [[num s3]|];
      [destruct (tail_ok _)|]; reflexivity. }
  unfold scan_percent, split_minus.
  destruct s as [|c t].
  - rewrite <- HR, <- (HN 0 [] []) by reflexivity.
    now destruct (m _ _ K).
  - change (chr "-" c) with (N.eqb 45 c). rewrite (N.eqb_sym 45 c).
    destruct (N.eqb_spec c 45) as [->|Hc]; rewrite <- HR.
    + rewrite <- (HN 1 [45%N] t) by reflexivity.
      destruct (m _ (mkState 1 t []) K) as [y|] eqn:E1; [reflexivity|].
      rewrite m_number by exact HK. reflexivity.
    + rewrite <- (HN 0 [] (c :: t)) by reflexivity.
      now destruct (m _ _ K).
Qed.

End PercentPatternFacts.

Section SignedDecimalFacts.

Lemma span_app p (a b : str) :
  forallb p a = true -> hd_not p b ->
  takeWhile p (a ++ b) = a /\ dropWhile p (a ++ b) = b.
Proof.
  intros Ha Hb. induction a as [|x a IH].
  - destruct b as [|y b]; [now split|]. simpl in *. now rewrite Hb.
  - simpl in *. apply andb_prop in Ha as [Hx Ha]. rewrite Hx.
    destruct (IH Ha) as [-> ->]. now split.
Qed.

Lemma digit_not_minus c : is_digit c = true -> N.eqb c 45 = false.
Proof. intros H. apply N.eqb_neq. intros ->. discriminate. Qed.

Lemma split_minus_app s sign u : split_minus s = (sign, u) -> s = sign ++ u.
Proof.
  unfold split_minus. destruct s as [|c t]; [now intros [= <- <-]|].
  destruct (N.eqb c 45); now intros [= <- <-].
Qed.

(** [signed_decimal] accepts exactly the strings of that shape. *)
Lemma signed_decimal_shape c neg ip fp :
  signed_decimal c = Some (neg, ip, fp) <-> decimal_shape c neg ip fp.
Proof.
  unfold signed_decimal, decimal_shape, render. split.
  - destruct (split_minus c) as [sign u] eqn:Es.
    pose proof (split_minus_app c Es) as Hc.
    assert (Hsign : sign = if negb (is_empty sign) then [45%N] else []).
    { unfold split_minus in Es. destruct c as [|x t]; [now injection Es as <- <-|].
      destruct (N.eqb_spec x 45) as [->|]; now injection Es as <- <-. }
    pose proof (take_drop_While is_digit u) as Hu.
    pose proof (takeWhile_all is_digit u) as Hip.
    destruct (is_empty (takeWhile is_digit u)) eqn:Ei; [discriminate|].
    apply is_empty_false in Ei.
    destruct (dropWhile is_digit u) as [|x t] eqn:Ed.
    + intros [= <- <- <-]. rewrite app_nil_r in Hu. rewrite Hu in Hip, Ei.
      cbn [is_empty app]. rewrite app_nil_r, Hu, <- Hsign. now repeat split.
    + destruct (N.eqb_spec x 46) as [->|]; [|discriminate]. cbn [andb].
      destruct (is_empty t) eqn:Et; [discriminate|]. cbn [negb andb].
      destruct (forallb is_digit t) eqn:Ht; [|discriminate].
      intros [= <- <- <-]. rewrite Et, Hu, <- Hsign. now repeat split.
  - intros (-> & Hne & Hip & Hfp).
    assert (Hfrac : hd_not is_digit (if is_empty fp then [] else 46%N :: fp))
      by now destruct (is_empty fp).
    destruct (span_app is_digit ip _ Hip Hfrac) as [Et Ed].
    assert (Hs : split_minus
                   ((if neg then [45%N] else []) ++ ip
                    ++ (if is_empty fp then [] else 46%N :: fp)) =
                 ((if neg then [45%N] else []),
                  ip ++ (if is_empty fp then [] else 46%N :: fp))).
    { destruct neg; [reflexivity|]. cbn [app].
      destruct ip as [|d ip']; [congruence|].
      simpl in Hip. apply andb_prop in Hip as [Hd _].
      unfold split_minus. cbn [app]. now rewrite (digit_not_minus d Hd). }
    rewrite Hs, Et, Ed.
    apply is_empty_false in Hne. rewrite Hne.
    destruct fp as [|f fp']; cbn [is_empty].
    + now destruct neg.
    + cbn [negb andb N.eqb Pos.eqb]. rewrite Hfp. now destruct neg.
Qed.

(** A signed decimal ends in a digit. *)
Lemma decimal_shape_last c neg ip fp :
  decimal_shape c neg ip fp ->
  exists c' d, c = c' ++ [d] /\ is_digit d = true.
Proof.
  intros (-> & Hne & Hip & Hfp). unfold render.
  destruct fp as [|f fp'] using rev_ind; cbn [is_empty].
  - destruct ip as [|d ip'] using rev_ind; [congruence|].
    exists ((if neg then [45%N] else []) ++ ip'), d.
    rewrite app_nil_r, app_assoc. split; [reflexivity|].
    rewrite forallb_app in Hip. apply andb_prop in Hip as [_ Hd].
    simpl in Hd. now rewrite andb_true_r in Hd.
  - exists ((if neg then [45%N] else []) ++ ip ++ 46%N :: fp'), f.
    rewrite forallb_app in Hfp. apply andb_prop in Hfp as [_ Hf].
    simpl in Hf. rewrite andb_true_r in Hf. split; [|exact Hf].
    replace (is_empty (fp' ++ [f])) with false by now destruct fp'.
    now rewrite <- !app_assoc.
Qed.

(** [parseFloat] reads a signed decimal as its value. *)
Lemma parseFloat_decimal c neg ip fp :
  decimal_shape c neg ip fp -> parseFloat c = decimal_value (neg, ip, fp).
Proof.
  intros (-> & Hne & Hip & Hfp). unfold render, parseFloat, decimal_value.
  destruct ip as [|d ip']; [congruence|].
  pose proof Hip as Hip'. simpl in Hip'. apply andb_prop in Hip' as [Hd _].
  assert (Hfrac : hd_not is_digit (if is_empty fp then [] else 46%N :: fp))
    by now destruct (is_empty fp).
  destruct (span_app is_digit (d :: ip') _ Hip Hfrac) as [Et Ed].
  destruct (digit_not_sign d Hd) as [E1 E2].
  assert (Hs : split_sign
                 (trimStart ((if neg then [45%N] else []) ++ (d :: ip')
                    ++ (if is_empty fp then [] else 46%N :: fp))) =
               (neg, (d :: ip')
                     ++ (if is_empty fp then [] else 46%N :: fp))).
  { unfold trimStart. destruct neg; cbn [app].
    - reflexivity.
    - cbn [dropWhile]. rewrite (digit_not_ws d Hd).
      unfold split_sign. now rewrite E1, E2. }
  rewrite Hs.
  assert (HI : starts_with (lit "Infinity")
                 ((d :: ip') ++ (if is_empty fp then [] else 46%N :: fp))
               = false).
  { cbn [app lit map list_ascii_of_string starts_with].
    destruct (N.eqb_spec (N_of_ascii "I") d) as [<-|]; [discriminate|].
    reflexivity. }
  rewrite HI, Et, Ed. cbn [is_empty andb].
  destruct fp as [|f fp']; cbn [is_empty].
  - cbn [exponent_part List.length]. now rewrite app_nil_r.
  - cbn [N.eqb Pos.eqb].
    rewrite (takeWhile_fix _ _ Hfp), (dropWhile_all _ _ Hfp).
    cbn [exponent_part]. f_equal.
Qed.

End SignedDecimalFacts.

Section PercentCellFacts.

Lemma tail_ok_cases P : tail_ok P = true -> P = [] \/ P = [37%N].
Proof.
  destruct P as [|c [|c' t]]; simpl; auto.
  - destruct (N.eqb_spec c 37) as [->|]; [now right | discriminate].
  - rewrite andb_false_r. discriminate.
Qed.

(** A signed decimal, white space and an optional percent sign are
    scanned as the signed decimal. *)
Lemma scan_percent_complete c neg ip fp W P :
  decimal_shape c neg ip fp ->
  forallb is_white_space W = true -> P = [] \/ P = [37%N] ->
  scan_percent (c ++ W ++ P) = Some c.
Proof.
  intros (-> & Hne & Hip & Hfp) HW HP. unfold scan_percent, render.
  destruct ip as [|d ip']; [congruence|].
  pose proof Hip as Hip'. simpl in Hip'. apply andb_prop in Hip' as [Hd Hip'].
  set (frac := if is_empty fp then [] else 46%N :: fp).
  assert (HWP : hd_not is_digit (W ++ P) /\ hd_not is_white_space P
                /\ match W ++ P with x :: _ => N.eqb x 46 = false | [] => True end).
  { destruct W as [|w W'].
    - destruct HP as [-> | ->]; now repeat split.
    - simpl in HW. apply andb_prop in HW as [Hw _]. repeat split.
      + simpl. destruct (is_digit w) eqn:E; [|reflexivity].
        apply digit_not_ws in E. congruence.
      + destruct HP as [-> | ->]; reflexivity.
      + simpl. apply N.eqb_neq. intros ->. discriminate. }
  destruct HWP as (H1 & H2 & H3).
  assert (Hs : split_minus
                 (((if neg then [45%N] else []) ++ (d :: ip') ++ frac)
                  ++ W ++ P) =
               ((if neg then [45%N] else []),
                (d :: ip') ++ frac ++ W ++ P)).
  { rewrite <- !app_assoc. destruct neg; [reflexivity|]. cbn [app].
    unfold split_minus. now rewrite (digit_not_minus d Hd). }
  rewrite Hs. cbn [app number_prefix]. rewrite Hd.
  assert (Hfrac : hd_not is_digit (frac ++ W ++ P)).
  { unfold frac. destruct (is_empty fp); [exact H1 | reflexivity]. }
  destruct (span_app is_digit ip' _ Hip' Hfrac) as [-> ->].
  destruct (span_app is_white_space W P HW H2) as [_ EW].
  assert (HT : tail_ok P = true) by (destruct HP as [-> | ->]; reflexivity).
  unfold frac. destruct fp as [|f fp']; cbn [is_empty app].
  - rewrite app_nil_r.
    assert (E : match W ++ P with
                | c :: d1 :: t' =>
                    if N.eqb c 46 && is_digit d1
                    then Some (d :: ip' ++ c :: d1 :: takeWhile is_digit t',
                               dropWhile is_digit t')
                    else Some (d :: ip', W ++ P)
                | _ => Some (d :: ip', W ++ P)
                end = Some (d :: ip', W ++ P)).
    { destruct (W ++ P) as [|x [|y t]]; try reflexivity.
      now rewrite H3. }
    cbn [app] in E |- *. rewrite E, EW, HT. reflexivity.
  - cbn [N.eqb Pos.eqb].
    simpl in Hfp. apply andb_prop in Hfp as [Hf Hfp]. rewrite Hf.
    cbn [andb].
    destruct (span_app is_digit fp' _ Hfp H1) as [-> ->].
    rewrite EW, HT. reflexivity.
Qed.

(** What is scanned is a signed decimal, followed by white space and an
    optional percent sign. *)
Lemma scan_percent_sound s c :
  scan_percent s = Some c ->
  exists neg ip fp W P,
    decimal_shape c neg ip fp /\ s = c ++ W ++ P
    /\ forallb is_white_space W = true /\ (P = [] \/ P = [37%N]).
Proof.
  unfold scan_percent.
  destruct (split_minus s) as [sign u] eqn:Es.
  pose proof (split_minus_app s Es) as Hs.
  assert (Hsign : sign = if negb (is_empty sign) then [45%N] else []).
  { unfold split_minus in Es. destruct s as [|x t]; [now injection Es as <- <-|].
    destruct (N.eqb_spec x 45) as [->|]; now injection Es as <- <-. }
  destruct (number_prefix u) as [[num s3]|] eqn:En; [|discriminate].
  pose proof (number_prefix_app u En) as Hu.
  destruct (tail_ok (dropWhile is_white_space s3)) eqn:Ht; [|discriminate].
  intros [= <-].
  assert (Hnum : exists ip fp,
             num = ip ++ (if is_empty fp then [] else 46%N :: fp)
             /\ ip <> [] /\ forallb is_digit ip = true
             /\ forallb is_digit fp = true).
  { unfold number_prefix in En. destruct u as [|d t]; [discriminate|].
    destruct (is_digit d) eqn:Hd; [|discriminate].
    assert (Hip : forallb is_digit (d :: takeWhile is_digit t) = true)
      by (simpl; now rewrite Hd, takeWhile_all).
    destruct (dropWhile is_digit t) as [|x [|d1 t']].
    - injection En as <- _. exists (d :: takeWhile is_digit t), [].
      cbn [is_empty]. rewrite app_nil_r. now repeat split.
    - injection En as <- _. exists (d :: takeWhile is_digit t), [].
      cbn [is_empty]. rewrite app_nil_r. now repeat split.
    - destruct (N.eqb_spec x 46) as [->|]; cbn [andb] in En.
      + destruct (is_digit d1) eqn:Hd1; injection En as <- _.
        * exists (d :: takeWhile is_digit t), (d1 :: takeWhile is_digit t').
          cbn [is_empty]. repeat split; try easy.
          simpl. now rewrite Hd1, takeWhile_all.
        * exists (d :: takeWhile is_digit t), [].
          cbn [is_empty]. rewrite app_nil_r. now repeat split.
      + injection En as <- _. exists (d :: takeWhile is_digit t), [].
        cbn [is_empty]. rewrite app_nil_r. now repeat split. }
  destruct Hnum as (ip & fp & -> & Hne & Hip & Hfp).
  exists (negb (is_empty sign)), ip, fp,
    (takeWhile is_white_space s3), (dropWhile is_white_space s3).
  repeat split; try assumption.
  - unfold render. now rewrite <- Hsign.
  - rewrite take_drop_While, Hs, Hu. now rewrite <- !app_assoc.
  - apply takeWhile_all.
  - now apply tail_ok_cases.
Qed.

Lemma strip_percent_snoc s : strip_percent (s ++ [37%N]) = s.
Proof.
  unfold strip_percent. rewrite rev_app_distr. simpl.
  apply rev_involutive.
Qed.

Lemma strip_percent_other s x :
  N.eqb x 37 = false -> strip_percent (s ++ [x]) = s ++ [x].
Proof.
  intros H. unfold strip_percent. rewrite rev_app_distr. simpl.
  now rewrite H.
Qed.

Lemma trimEnd_all_ws W : forallb is_white_space W = true -> trimEnd W = [].
Proof.
  intros H. unfold trimEnd. rewrite dropWhile_all; [reflexivity|].
  now rewrite forallb_rev.
Qed.

(** Stripping the percent sign and the white space gives back the signed
    decimal. *)
Lemma strip_trim_decimal c' d W P :
  is_digit d = true -> forallb is_white_space W = true ->
  P = [] \/ P = [37%N] ->
  trimEnd (strip_percent ((c' ++ [d]) ++ W ++ P)) = c' ++ [d].
Proof.
  intros Hd HW HP.
  assert (E : strip_percent ((c' ++ [d]) ++ W ++ P) = (c' ++ [d]) ++ W).
  { destruct HP as [-> | ->].
    - rewrite app_nil_r.
      destruct W as [|w W'] using rev_ind.
      + rewrite app_nil_r. apply strip_percent_other.
        now apply digit_not_percent.
      + rewrite app_assoc. apply strip_percent_other.
        rewrite forallb_app in HW. apply andb_prop in HW as [_ Hw].
        simpl in Hw. rewrite andb_true_r in Hw. now apply ws_not_percent.
    - rewrite app_assoc. apply strip_percent_snoc. }
  rewrite E, <- app_assoc. cbn [app].
  rewrite trimEnd_app_stop by now apply digit_not_ws.
  now rewrite trimEnd_all_ws.
Qed.

(** A string is its stripped and trimmed part, then white space, then an
    optional percent sign. *)
Lemma strip_trim_split s :
  exists W P, s = trimEnd (strip_percent s) ++ W ++ P
              /\ forallb is_white_space W = true /\ (P = [] \/ P = [37%N]).
Proof.
  assert (H : exists P, s = strip_percent s ++ P /\ (P = [] \/ P = [37%N])).
  { destruct s as [|x s'] using rev_ind.
    - exists []. now split; [|left].
    - destruct (N.eqb_spec x 37) as [->|Hx].
      + exists [37%N]. rewrite strip_percent_snoc. now split; [|right].
      + exists []. rewrite strip_percent_other by now apply N.eqb_neq.
        rewrite app_nil_r. now split; [|left]. }
  destruct H as (P & Hs & HP).
  destruct (trimEnd_spec (strip_percent s)) as (W & HW & Hws & _).
  exists W, P. repeat split; try assumption.
  rewrite app_assoc, <- HW. exact Hs.
Qed.

(** The scan from the left and the reading of the design agree. *)
Lemma scan_percent_signed_decimal s :
  match scan_percent s with
  | Some c => Some (parseFloat c)
  | None => None
  end =
  match signed_decimal (trimEnd (strip_percent s)) with
  | Some d => Some (decimal_value d)
  | None => None
  end.
Proof.
  destruct (strip_trim_split s) as (W & P & Hs & HW & HP).
  destruct (signed_decimal (trimEnd (strip_percent s)))
    as [[[neg ip] fp]|] eqn:Ed.
  - apply signed_decimal_shape in Ed.
    rewrite Hs at 1.
    rewrite (scan_percent_complete W Ed HW HP).
    now rewrite (parseFloat_decimal Ed).
  - destruct (scan_percent s) as [c|] eqn:Ec; [|reflexivity].
    exfalso.
    apply scan_percent_sound in Ec
      as (neg & ip & fp & W' & P' & Hc & Hs' & HW' & HP').
    destruct (decimal_shape_last Hc) as (c' & d & -> & Hd).
    rewrite Hs' in Ed.
    rewrite (@strip_trim_decimal c' d W' P' Hd HW' HP') in Ed.
    apply signed_decimal_shape in Hc. congruence.
Qed.

(** [parsePercentCell] is the coercion of the design with the guard on. *)
Lemma parsePercentCell_spec cell fallback :
  parsePercentCell cell fallback = percent_or_number true cell fallback.
Proof.
  unfold parsePercentCell, percent_or_number.
  destruct cell as [c|]; [|reflexivity].
  destruct (is_empty (trim c)); [reflexivity|].
  rewrite match_re_percent.
  pose proof (scan_percent_signed_decimal (trim c)) as H.
  destruct (scan_percent (trim c)) as [m1|];
    destruct (signed_decimal _) as [d|]; try discriminate.
  - injection H as H. cbn [get_cap nth]. rewrite H. cbn [andb].
    now destruct (isFinite (decimal_value d)).
  - reflexivity.
Qed.

End PercentCellFacts.

Section ReplaceFacts.

Variable r : re.
Variable at_ : str -> option (list (option str) * str).

Hypothesis match_at_spec :
  forall i s,
    match_at r i s =
    match at_ s with
    | Some (cs, rest) =>
        Some (mkState (i + (List.length s - List.length rest)) rest cs)
    | None => None
    end.

Hypothesis at_shorter :
  forall s cs rest, at_ s = Some (cs, rest) -> List.length rest < List.length s.

Lemma exec_from_find_next i s :
  exec_from r i s =
  match find_next at_ s with
  | Some (pre, cs, rest) =>
      let sj := skipn (List.length pre) s in
      Some (i + List.length pre, sj,
            mkState (i + List.length pre
                     + (List.length sj - List.length rest)) rest cs)
  | None => None
  end.
Proof.
  revert i; induction s as [|c t IH]; intros i.
  - cbn [exec_from find_next]. rewrite match_at_spec.
    destruct (at_ []) as [[cs rest]|] eqn:E; [|reflexivity].
    apply at_shorter in E. simpl in E. lia.
  - cbn [exec_from find_next]. rewrite match_at_spec.
    destruct (at_ (c :: t)) as [[cs rest]|].
    + cbn [List.length skipn]. now rewrite Nat.add_0_r.
    + rewrite IH. destruct (find_next at_ t) as [[[pre cs] rest]|];
        [|reflexivity].
      cbn [List.length skipn]. now rewrite Nat.add_succ_r.
Qed.

Lemma find_next_split s pre cs rest :
  find_next at_ s = Some (pre, cs, rest) ->
  firstn (List.length pre) s = pre
  /\ at_ (skipn (List.length pre) s) = Some (cs, rest).
Proof.
  revert pre; induction s as [|c t IH]; intros pre; cbn [find_next].
  - destruct (at_ []) as [[cs' rest']|] eqn:E; [|discriminate].
    intros [= <- <- <-]. now split.
  - destruct (at_ (c :: t)) as [[cs' rest']|] eqn:E.
    + intros [= <- <- <-]. now split.
    + destruct (find_next at_ t) as [[[pre' cs'] rest']|]; [|discriminate].
      intros [= <- <- <-]. destruct (IH pre' eq_refl) as [H1 H2].
      cbn [List.length firstn skipn]. now rewrite H1.
Qed.

(** The global replace, as rewriting from match to match. *)
Lemma replace_g_from_rewrite_all f fuel i s :
  replace_g_from fuel r f i s = rewrite_all at_ f fuel s.
Proof.
  revert i s; induction fuel as [|fuel IH]; intros i s; [reflexivity|].
  cbn [replace_g_from rewrite_all]. rewrite exec_from_find_next.
  destruct (find_next at_ s) as [[[pre cs] rst]|] eqn:E; [|reflexivity].
  destruct (find_next_split s E) as [H1 H2].
  apply at_shorter in H2. cbv zeta. cbn [pos rest caps].
  replace (i + List.length pre - i) with (List.length pre) by lia.
  rewrite H1.
  assert (N : Nat.eqb
                (i + List.length pre
                 + (List.length (skipn (List.length pre) s)
                    - List.length rst))
                (i + List.length pre) = false)
    by (apply Nat.eqb_neq; lia).
  now rewrite N, IH.
Qed.

Lemma replace_g_rewrite_all f s :
  replace_g r f s = rewrite_all at_ f (S (List.length s)) s.
Proof. apply replace_g_from_rewrite_all. Qed.

End ReplaceFacts.

Section LinkPatternFacts.

Lemma firstn_takeWhile p (s : str) :
  firstn (List.length (takeWhile p s)) s = takeWhile p s.
Proof.
  induction s as [|c t IH]; simpl; [reflexivity|].
  destruct (p c); simpl; [now rewrite IH | reflexivity].
Qed.

Lemma m_Group_Plus_Class n p i v cs (K : cont) :
  (forall j c t cs', p c = true -> K (mkState j (c :: t) cs') = None) ->
  m (Group n (Plus (Class p))) (mkState i v cs) K =
  if is_empty (takeWhile p v) then None
  else K (mkState (i + List.length (takeWhile p v)) (dropWhile p v)
            (set_cap n (takeWhile p v) cs)).
Proof.
  intros HK. rewrite m_Group, m_Plus_Class. cbn [rest pos caps].
  destruct v as [|c t]; [reflexivity|]. cbn [takeWhile dropWhile].
  destruct (p c) eqn:Hp; [|reflexivity]. cbn [is_empty].
  rewrite greedy_longest.
  - cbn [rest pos caps List.length].
    replace (S i + List.length (takeWhile p t) - i)
      with (S (List.length (takeWhile p t))) by lia.
    cbn [firstn]. rewrite firstn_takeWhile.
    now rewrite Nat.add_succ_r.
  - intros j c' t' Hc. cbn [rest pos caps]. now apply HK.
Qed.

Lemma match_at_Class p i s :
  match_at (Class p) i s =
  match s with
  | c :: t => if p c then Some (mkState (S i) t []) else None
  | [] => None
  end.
Proof. reflexivity. Qed.

End LinkPatternFacts.

Section LinkPattern.

Lemma none_of_false a c : none_of a c = false -> c = N_of_ascii a.
Proof.
  unfold none_of. intros H. apply negb_false_iff in H.
  now apply N.eqb_eq in H.
Qed.

Lemma none_of_true a c : none_of a c = true -> N.eqb (N_of_ascii a) c = false.
Proof.
  unfold none_of. intros H. apply negb_true_iff in H.
  now rewrite N.eqb_sym.
Qed.

Lemma length_take_drop p (s : str) :
  List.length s = List.length (takeWhile p s) + List.length (dropWhile p s).
Proof. now rewrite <- length_app, take_drop_While. Qed.

(** A group of one or more code units other than [a], then [a]. *)
Lemma m_delimited n a i v cs (K : cont) :
  m (Group n (Plus (Class (none_of a)))) (mkState i v cs)
    (fun y => m (Class (chr a)) y K) =
  match delimited a v with
  | Some (x, after) =>
      K (mkState (S (i + List.length x)) after (set_cap n x cs))
  | None => None
  end.
Proof.
  rewrite m_Group_Plus_Class.
  2:{ intros j c t cs' Hc. rewrite m_Class. cbn [rest].
      unfold chr. now rewrite (none_of_true _ _ Hc). }
  unfold delimited.
  pose proof (dropWhile_hd (none_of a) v) as H.
  destruct (dropWhile (none_of a) v) as [|c after].
  - destruct (is_empty _); [reflexivity | now rewrite m_Class].
  - destruct (is_empty _); [reflexivity|].
    rewrite m_Class. cbn [rest pos caps].
    simpl in H. apply none_of_false in H. subst c.
    unfold chr. now rewrite N.eqb_refl.
Qed.

Lemma delimited_length a v x after :
  delimited a v = Some (x, after) ->
  List.length v = S (List.length x + List.length after).
Proof.
  unfold delimited. pose proof (length_take_drop (none_of a) v) as L.
  destruct (dropWhile (none_of a) v) as [|c t]; [discriminate|].
  destruct (is_empty _); [discriminate|].
  intros [= <- <-]. cbn [List.length] in L. lia.
Qed.

(** The pattern of the links, read as [link_at]. *)
Lemma match_at_re_link i s :
  match_at re_link i s =
  match link_at s with
  | Some (cs, rst) =>
      Some (mkState (i + (List.length s - List.length rst)) rst cs)
  | None => None
  end.
Proof.
  unfold match_at, re_link. rewrite m_Seq, m_Class. cbn [rest pos caps].
  destruct s as [|c t]; [reflexivity|]. cbn [link_at].
  change (chr "[" c) with (N.eqb 91 c). rewrite (N.eqb_sym 91 c).
  destruct (N.eqb c 91); [|reflexivity].
  rewrite m_Seq.
  change (fun y : state => m (Seq (Class (chr "]")) ?R) y ?k)
    with (fun y : state => m (Class (chr "]")) y (fun z => m R z k)).
  rewrite m_delimited.
  destruct (delimited "]" t) as [[label after]|] eqn:E1; [|reflexivity].
  apply delimited_length in E1.
  rewrite m_Seq, m_Class. cbn [rest pos caps].
  destruct after as [|c2 t2]; [reflexivity|].
  change (chr "(" c2) with (N.eqb 40 c2). rewrite (N.eqb_sym 40 c2).
  destruct (N.eqb c2 40); [|reflexivity].
  change (m (Seq ?G (Class (chr ")"))) ?x ?k)
    with (m G x (fun y => m (Class (chr ")")) y k)).
  rewrite m_delimited.
  destruct (delimited ")" t2) as [[url t3]|] eqn:E2; [|reflexivity].
  apply delimited_length in E2.
  cbn [set_cap]. do 2 f_equal. cbn [List.length] in *. lia.
Qed.

Lemma link_at_shorter s cs rst :
  link_at s = Some (cs, rst) -> List.length rst < List.length s.
Proof.
  unfold link_at. destruct s as [|c t]; [discriminate|].
  destruct (N.eqb c 91); [|discriminate].
  destruct (delimited "]" t) as [[label [|c2 t2]]|] eqn:E1; try discriminate.
  destruct (N.eqb c2 40); [|discriminate].
  destruct (delimited ")" t2) as [[url t3]|] eqn:E2; [|discriminate].
  apply delimited_length in E1. apply delimited_length in E2.
  intros [= _ <-]. cbn [List.length] in *. lia.
Qed.

Lemma match_at_newline i s :
  match_at (Class (N.eqb LF)) i s =
  match newline_at s with
  | Some (cs, rst) =>
      Some (mkState (i + (List.length s - List.length rst)) rst cs)
  | None => None
  end.
Proof.
  rewrite match_at_Class. destruct s as [|c t]; [reflexivity|].
  cbn [newline_at]. destruct (N.eqb LF c); [|reflexivity].
  do 2 f_equal. cbn [List.length]. lia.
Qed.

Lemma newline_at_shorter s cs rst :
  newline_at s = Some (cs, rst) -> List.length rst < List.length s.
Proof.
  destruct s as [|c t]; [discriminate|]. cbn [newline_at].
  destruct (N.eqb LF c); [|discriminate].
  intros [= _ <-]. simpl. lia.
Qed.

(** [mdToSafeHtml] without the matcher: escape, rewrite the links from
    left to right, rewrite the line feeds. *)
Lemma mdToSafeHtml_rewrite input :
  mdToSafeHtml input =
  let escaped := escapeHtml input in
  let linked :=
    rewrite_all link_at link_callback (S (List.length escaped)) escaped in
  rewrite_all newline_at (fun _ => lit "<br>") (S (List.length linked)) linked.
Proof.
  unfold mdToSafeHtml. cbv zeta.
  rewrite (@replace_g_rewrite_all _ _ match_at_re_link link_at_shorter).
  now rewrite (@replace_g_rewrite_all _ _ match_at_newline newline_at_shorter).
Qed.

End LinkPattern.

Section EscapeFacts.

Lemma replaceAll1_flat_map c by_ s :
  replaceAll1 c by_ s = flat_map (fun x => if N.eqb x c then by_ else [x]) s.
Proof. induction s as [|x s IH]; simpl; [reflexivity | now rewrite IH]. Qed.

Lemma flat_map_flat_map (f g : char -> str) s :
  flat_map g (flat_map f s) = flat_map (fun x => flat_map g (f x)) s.
Proof.
  induction s as [|x s IH]; simpl; [reflexivity|].
  now rewrite flat_map_app, IH.
Qed.

(** [escapeHtml] works code unit by code unit. *)
Lemma escapeHtml_flat_map s : escapeHtml s = flat_map esc1 s.
Proof.
  unfold escapeHtml. rewrite !replaceAll1_flat_map, !flat_map_flat_map.
  apply flat_map_ext. intros c. unfold esc1.
  destruct (N.eqb_spec c 38) as [->|H1]; [reflexivity|].
  cbn [flat_map app].
  destruct (N.eqb_spec c 60) as [->|H2]; [reflexivity|].
  cbn [flat_map app].
  destruct (N.eqb_spec c 62) as [->|H3]; [reflexivity|].
  cbn [flat_map app].
  destruct (N.eqb_spec c QUOTE) as [->|H4]; [reflexivity|].
  cbn [flat_map app].
  destruct (N.eqb_spec c 39) as [->|H5]; reflexivity.
Qed.

Lemma escapeHtml_cons c t : escapeHtml (c :: t) = esc1 c ++ escapeHtml t.
Proof. now rewrite !escapeHtml_flat_map. Qed.

(** A code unit is escaped, or stays as it is. *)
Lemma esc1_cases c :
  (esc1 c = [c] /\ c <> 38%N /\ c <> 60%N /\ c <> 62%N /\ c <> QUOTE
   /\ c <> 39%N)
  \/ (c = 38%N /\ esc1 c = lit "&amp;")
  \/ (c = 60%N /\ esc1 c = lit "&lt;")
  \/ (c = 62%N /\ esc1 c = lit "&gt;")
  \/ (c = QUOTE /\ esc1 c = lit "&quot;")
  \/ (c = 39%N /\ esc1 c = lit "&#039;").
Proof.
  unfold esc1.
  destruct (N.eqb_spec c 38) as [->|H1]; [now right; left|].
  destruct (N.eqb_spec c 60) as [->|H2]; [now right; right; left|].
  destruct (N.eqb_spec c 62) as [->|H3]; [now right; right; right; left|].
  destruct (N.eqb_spec c QUOTE) as [->|H4];
    [now right; right; right; right; left|].
  destruct (N.eqb_spec c 39) as [->|H5];
    [now right; right; right; right; right|].
  left. now repeat split.
Qed.

End EscapeFacts.

Section RewriteAllFacts.

Variable at_ : str -> option (list (option str) * str).
Variable f : list (option str) -> str.

Lemma rewrite_all_some fuel s cs rst :
  at_ s = Some (cs, rst) ->
  rewrite_all at_ f (S fuel) s = f cs ++ rewrite_all at_ f fuel rst.
Proof.
  intros H. cbn [rewrite_all].
  destruct s as [|c t]; cbn [find_next]; now rewrite H.
Qed.

Lemma rewrite_all_none fuel c t :
  at_ (c :: t) = None ->
  rewrite_all at_ f (S fuel) (c :: t) = c :: rewrite_all at_ f (S fuel) t.
Proof.
  intros H. cbn [rewrite_all find_next]. rewrite H.
  now destruct (find_next at_ t) as [[[pre cs] rst]|].
Qed.

Lemma rewrite_all_nil fuel : at_ [] = None -> rewrite_all at_ f fuel [] = [].
Proof.
  intros H. destruct fuel; [reflexivity|].
  cbn [rewrite_all find_next]. now rewrite H.
Qed.

End RewriteAllFacts.

Section LineBreakFacts.

(** The rewriting of the line feeds is [br]. *)
Lemma rewrite_all_newline fuel :
  forall s, List.length s < fuel ->
            rewrite_all newline_at (fun _ => lit "<br>") fuel s = br s.
Proof.
  induction fuel as [|fuel IHf]; intros s Hlen; [lia|].
  induction s as [|c t IHs].
  - now apply rewrite_all_nil.
  - destruct (newline_at (c :: t)) as [[cs rst]|] eqn:E.
    + rewrite (rewrite_all_some _ _ fuel _ E).
      cbn [newline_at] in E. cbn [br flat_map].
      destruct (N.eqb LF c); [|discriminate].
      injection E as _ <-. fold (br t).
      rewrite IHf by (simpl in Hlen; lia). reflexivity.
    + rewrite rewrite_all_none by exact E.
      cbn [newline_at] in E. cbn [br flat_map].
      destruct (N.eqb LF c); [discriminate|]. fold (br t).
      rewrite IHs by (simpl in Hlen; lia). reflexivity.
Qed.

End LineBreakFacts.

Section EscapeSpanFacts.

Lemma takeWhile_app_all p (a b : str) :
  forallb p a = true ->
  takeWhile p (a ++ b) = a ++ takeWhile p b
  /\ dropWhile p (a ++ b) = dropWhile p b.
Proof.
  intros H. induction a as [|x a IH]; [now split|].
  simpl in *. apply andb_prop in H as [Hx H]. rewrite Hx.
  destruct (IH H) as [-> ->]. now split.
Qed.

(** The code units that an escape is made of are none of the closing
    characters of a link. *)
Lemma esc1_none_of a c :
  a = "]"%char \/ a = ")"%char ->
  (none_of a c = true -> forallb (none_of a) (esc1 c) = true)
  /\ (none_of a c = false -> esc1 c = [c]).
Proof.
  intros Ha. split.
  - intros Hc.
    destruct (esc1_cases c) as [(-> & _)|[(_ & ->)|[(_ & ->)|[(_ & ->)|
                                [(_ & ->)|(_ & ->)]]]]];
      [simpl; now rewrite Hc|..]; destruct Ha as [-> | ->]; reflexivity.
  - intros Hc. apply none_of_false in Hc. subst c.
    destruct Ha as [-> | ->]; reflexivity.
Qed.

Lemma span_escape a t :
  a = "]"%char \/ a = ")"%char ->
  takeWhile (none_of a) (escapeHtml t) = escapeHtml (takeWhile (none_of a) t)
  /\ dropWhile (none_of a) (escapeHtml t) = escapeHtml (dropWhile (none_of a) t).
Proof.
  intros Ha. induction t as [|c t [IH1 IH2]]; [now split|].
  rewrite escapeHtml_cons. cbn [takeWhile dropWhile].
  destruct (esc1_none_of c Ha) as [H1 H2].
  destruct (none_of a c) eqn:Hc.
  - destruct (takeWhile_app_all (none_of a) (esc1 c) (escapeHtml t)
                (H1 eq_refl)) as [-> ->].
    rewrite IH1, IH2, escapeHtml_cons. now split.
  - rewrite (H2 eq_refl). cbn [app takeWhile dropWhile]. rewrite Hc.
    rewrite escapeHtml_cons, (H2 eq_refl). now split.
Qed.

Lemma is_empty_escapeHtml s : is_empty (escapeHtml s) = is_empty s.
Proof.
  destruct s as [|c t]; [reflexivity|]. rewrite escapeHtml_cons.
  destruct (esc1_cases c) as [(-> & _)|[(_ & ->)|[(_ & ->)|[(_ & ->)|
                              [(_ & ->)|(_ & ->)]]]]]; reflexivity.
Qed.

Lemma delimited_escape a t :
  a = "]"%char \/ a = ")"%char ->
  delimited a (escapeHtml t) =
  match delimited a t with
  | Some (x, after) => Some (escapeHtml x, escapeHtml after)
  | None => None
  end.
Proof.
  intros Ha. unfold delimited.
  destruct (span_escape t Ha) as [-> ->].
  pose proof (dropWhile_hd (none_of a) t) as H.
  destruct (dropWhile (none_of a) t) as [|c after]; [reflexivity|].
  simpl in H. rewrite escapeHtml_cons.
  rewrite (proj2 (esc1_none_of c Ha) H). cbn [app].
  rewrite is_empty_escapeHtml.
  now destruct (is_empty _).
Qed.

(** Escaping neither makes nor breaks a link at the head of a string. *)
Lemma link_at_escape s :
  link_at (escapeHtml s) =
  match link_at s with
  | Some (cs, rst) =>
      Some ([None; Some (escapeHtml (get_cap 1 cs));
             Some (escapeHtml (get_cap 2 cs))], escapeHtml rst)
  | None => None
  end.
Proof.
  destruct s as [|c t]; [reflexivity|].
  rewrite escapeHtml_cons. cbn [link_at].
  destruct (N.eqb_spec c 91) as [->|Hc].
  - change (esc1 91) with [91%N]. cbn [app link_at N.eqb Pos.eqb].
    rewrite delimited_escape by now left.
    destruct (delimited "]" t) as [[label [|c2 t2]]|]; try reflexivity.
    rewrite escapeHtml_cons.
    destruct (N.eqb_spec c2 40) as [->|H2].
    + change (esc1 40) with [40%N]. cbn [app N.eqb Pos.eqb].
      rewrite delimited_escape by now right.
      now destruct (delimited ")" t2) as [[url t3]|].
    + apply N.eqb_neq in H2.
      destruct (esc1_cases c2) as [(-> & _)|[(-> & ->)|[(-> & ->)|[(-> & ->)|
                                   [(-> & ->)|(-> & ->)]]]]];
        [cbn [app]; now rewrite H2|reflexivity..].
  - apply N.eqb_neq in Hc.
    destruct (esc1_cases c) as [(-> & _)|[(-> & ->)|[(-> & ->)|[(-> & ->)|
                                [(-> & ->)|(-> & ->)]]]]];
      [cbn [app link_at]; now rewrite Hc|reflexivity..].
Qed.

(** Where the raw text has no link at a code unit, the rewriting of the
    escaped text copies the escape of that code unit. *)
Lemma rewrite_all_esc1 f fuel c u :
  link_at (esc1 c ++ u) = None ->
  rewrite_all link_at f (S fuel) (esc1 c ++ u) =
  esc1 c ++ rewrite_all link_at f (S fuel) u.
Proof.
  intros H.
  destruct (esc1_cases c) as [(E & _)|[(-> & E)|[(-> & E)|[(-> & E)|
                              [(-> & E)|(-> & E)]]]]];
    rewrite E in *; cbn [lit map list_ascii_of_string app] in *;
    repeat (rewrite rewrite_all_none; [|first [exact H | reflexivity]]);
    reflexivity.
Qed.

End EscapeSpanFacts.

Section EscapeTrimFacts.

Lemma dropWhile_flat_map p (g : char -> str) l :
  (forall c, p c = true -> g c = [c]) ->
  (forall c, p c = false -> hd_not p (g c) /\ g c <> []) ->
  dropWhile p (flat_map g l) = flat_map g (dropWhile p l).
Proof.
  intros H1 H2. induction l as [|c t IH]; [reflexivity|].
  cbn [flat_map dropWhile]. destruct (p c) eqn:Hc.
  - rewrite (H1 c Hc). cbn [app dropWhile]. now rewrite Hc.
  - destruct (H2 c Hc) as [Hh Hne].
    destruct (g c) as [|x v] eqn:E; [congruence|].
    simpl in Hh. cbn [app dropWhile]. rewrite Hh.
    cbn [flat_map]. now rewrite E.
Qed.

Lemma rev_flat_map (g : char -> str) l :
  rev (flat_map g l) = flat_map (fun x => rev (g x)) (rev l).
Proof.
  induction l as [|c t IH]; [reflexivity|].
  cbn [flat_map rev]. rewrite rev_app_distr, IH, flat_map_app.
  cbn [flat_map]. now rewrite app_nil_r.
Qed.

Lemma ws_not_escaped c : is_white_space c = true -> esc1 c = [c].
Proof.
  intros H.
  destruct (esc1_cases c) as [(E & _)|[(-> & _)|[(-> & _)|[(-> & _)|
                              [(-> & _)|(-> & _)]]]]];
    [exact E | discriminate..].
Qed.

Lemma esc1_ends c :
  is_white_space c = false ->
  hd_not is_white_space (esc1 c) /\ hd_not is_white_space (rev (esc1 c))
  /\ esc1 c <> [].
Proof.
  intros H.
  destruct (esc1_cases c) as [(-> & _)|[(_ & ->)|[(_ & ->)|[(_ & ->)|
                              [(_ & ->)|(_ & ->)]]]]];
    repeat split; try exact H; try reflexivity; discriminate.
Qed.

Lemma trimStart_escape v : trimStart (escapeHtml v) = escapeHtml (trimStart v).
Proof.
  unfold trimStart. rewrite !escapeHtml_flat_map.
  apply dropWhile_flat_map.
  - exact ws_not_escaped.
  - intros c Hc. destruct (esc1_ends c Hc) as (H1 & _ & H3). now split.
Qed.

Lemma trimEnd_escape v : trimEnd (escapeHtml v) = escapeHtml (trimEnd v).
Proof.
  unfold trimEnd. rewrite !escapeHtml_flat_map, rev_flat_map.
  rewrite dropWhile_flat_map.
  - rewrite rev_flat_map. apply flat_map_ext.
    intros c. apply rev_involutive.
  - intros c Hc. now rewrite (ws_not_escaped c Hc).
  - intros c Hc. destruct (esc1_ends c Hc) as (_ & H2 & H3).
    split; [exact H2|]. intros E. apply H3.
    apply (f_equal (@rev N)) in E. now rewrite rev_involutive in E.
Qed.

(** Escaping and trimming commute. *)
Lemma trim_escape v : trim (escapeHtml v) = escapeHtml (trim v).
Proof. unfold trim. now rewrite trimStart_escape, trimEnd_escape. Qed.

Lemma safe_char_spec a c :
  safe_char a = true ->
  (ci_eqb a c = true -> esc1 c = [c]) /\ ci_eqb a 38 = false.
Proof.
  unfold safe_char, ci_eqb. cbn [existsb]. intros H.
  apply negb_true_iff in H. rewrite !orb_false_iff in H.
  destruct H as (H1 & H2 & H3 & H4 & H5 & _).
  split.
  - intros E. apply N.eqb_eq in E.
    destruct (esc1_cases c) as [(Ec & _)|[(-> & _)|[(-> & _)|[(-> & _)|
                                [(-> & _)|(-> & _)]]]]];
      [exact Ec|..];
      match type of E with
      | _ = ?rhs => let v := eval vm_compute in rhs in change rhs with v in E
      end;
      rewrite E in *; discriminate.
  - exact H1.
Qed.

Lemma starts_with_ci_escape p w :
  forallb safe_char p = true ->
  starts_with_ci p (escapeHtml w) = starts_with_ci p w.
Proof.
  revert w; induction p as [|a p IH]; intros w Hp; [reflexivity|].
  simpl in Hp. apply andb_prop in Hp as [Ha Hp].
  destruct w as [|c t]; [reflexivity|].
  rewrite escapeHtml_cons. cbn [starts_with_ci].
  destruct (safe_char_spec a c Ha) as [H1 H2].
  destruct (ci_eqb a c) eqn:E.
  - rewrite (H1 eq_refl). cbn [app starts_with_ci]. rewrite E.
    now rewrite IH.
  - destruct (esc1_cases c) as [(-> & _)|[(_ & ->)|[(_ & ->)|[(_ & ->)|
                                [(_ & ->)|(_ & ->)]]]]];
      cbn [lit map list_ascii_of_string app starts_with_ci];
      [now rewrite E | change (N_of_ascii "&") with 38%N; now rewrite H2 ..].
Qed.

(** The link test gives the same on a text and on its escape. *)
Lemma isNavigableUrl_escape v : isNavigableUrl (escapeHtml v) = isNavigableUrl v.
Proof.
  rewrite !isNavigableUrl_spec. unfold begins_with_scheme.
  rewrite trim_escape. cbn [existsb].
  now rewrite !starts_with_ci_escape by reflexivity.
Qed.

Lemma isNavigableUrl_trim v : isNavigableUrl (trim v) = isNavigableUrl v.
Proof.
  rewrite !isNavigableUrl_spec. unfold begins_with_scheme.
  now rewrite trim_idem.
Qed.

(** The replacer on an escaped label and target. *)
Lemma link_replacer_escaped label url :
  link_replacer (escapeHtml label) (escapeHtml url) =
  link_markup true label url.
Proof.
  unfold link_replacer, link_markup, anchor. cbv zeta.
  rewrite trim_escape, isNavigableUrl_escape, isNavigableUrl_trim.
  now destruct (isNavigableUrl url).
Qed.

End EscapeTrimFacts.

Section MarkupFacts.

Lemma length_escapeHtml_cons c t :
  List.length (escapeHtml t) < List.length (escapeHtml (c :: t)).
Proof.
  rewrite escapeHtml_cons, length_app.
  destruct (esc1_cases c) as [(-> & _)|[(_ & ->)|[(_ & ->)|[(_ & ->)|
                              [(_ & ->)|(_ & ->)]]]]]; simpl; lia.
Qed.

(** The rewriting of the links of the escaped text, read on the raw
    text. *)
Lemma rewrite_all_markup fuel2 :
  forall s fuel1,
    List.length s < fuel2 -> List.length (escapeHtml s) < fuel1 ->
    rewrite_all link_at link_callback fuel1 (escapeHtml s)
    = markup true fuel2 s.
Proof.
  induction fuel2 as [|fuel2 IH]; intros s fuel1 H2 H1; [lia|].
  destruct fuel1 as [|fuel1]; [lia|].
  cbn [markup]. pose proof (link_at_escape s) as E.
  destruct (link_at s) as [[cs rst]|] eqn:El.
  - rewrite (rewrite_all_some _ link_callback fuel1 _ E).
    pose proof (link_at_shorter _ E) as L1.
    pose proof (link_at_shorter _ El) as L2.
    rewrite IH by lia.
    unfold link_callback. cbn [get_cap nth].
    now rewrite link_replacer_escaped.
  - destruct s as [|c t].
    + now apply rewrite_all_nil.
    + rewrite escapeHtml_cons in E |- *.
      rewrite rewrite_all_esc1 by exact E.
      pose proof (length_escapeHtml_cons c t) as L.
      rewrite IH by (simpl in H2; lia). reflexivity.
Qed.

(** [mdToSafeHtml] on the raw text: links and escapes from left to
    right, then the line breaks. *)
Lemma mdToSafeHtml_markup input :
  mdToSafeHtml input = br (markup true (S (List.length input)) input).
Proof.
  rewrite mdToSafeHtml_rewrite. cbv zeta.
  rewrite rewrite_all_newline by lia.
  rewrite rewrite_all_markup with (fuel2 := S (List.length input))
    by lia.
  reflexivity.
Qed.

End MarkupFacts.

Section SectionFacts.

(** Every section of the result comes from a section row of the input. *)
Lemma rowsToSections_sections rows :
  forall sec,
    In sec (rowsToSections rows) ->
    exists r, In r rows /\ is_section_row r = true
              /\ sec = with_items
                         (section_of_row (trim (orElse (at_ r 0) [])) r)
                         (Section_.items sec).
Proof.
  remember (List.length rows) as n eqn:Hn.
  revert rows Hn. induction n as [n IH] using lt_wf_ind.
  intros rows Hn sec Hsec.
  destruct rows as [|r post]; [contradiction|].
  destruct (is_section_row r) eqn:Hr.
  - rewrite rowsToSections_head in Hsec by exact Hr.
    destruct Hsec as [<- | Hsec].
    + exists r. split; [now left|]. split; [exact Hr|]. reflexivity.
    + pose proof (next_section_length post) as Hlen.
      destruct (IH (List.length (next_section post))
                  ltac:(simpl in Hn; lia) _ eq_refl sec Hsec)
        as (r' & Hr' & E).
      exists r'. split; [right; now apply next_section_incl | exact E].
  - rewrite rowsToSections_orphan in Hsec by exact Hr.
    destruct (IH (List.length post) ltac:(simpl in Hn; lia) _ eq_refl
                sec Hsec) as (r' & Hr' & E).
    exists r'. split; [now right | exact E].
Qed.

Lemma row_item_fields r it :
  row_item r = Some it ->
  Item.name it = trim (orElse (at_ r 0) [])
  /\ Item.linkOrText it = trim (unquote (orElse (at_ r 1) []))
  /\ Item.x it = parseNumberCell (at_ r 2) NaN
  /\ Item.y it = parseNumberCell (at_ r 3) NaN
  /\ Item.color it =
       (if is_empty (trim (orElse (at_ r 4) (lit "green")))
        then lit "green"
        else trim (orElse (at_ r 4) (lit "green")))
  /\ Item.radius it = parseNumberCell (at_ r 5) 15%float.
Proof.
  unfold row_item, item_of_row.
  destruct (is_empty _); [discriminate|].
  destruct (_ || _); [discriminate|].
  intros H; injection H as <-. now repeat split.
Qed.

End SectionFacts.

Section GroupFacts.

(** Induction on the rows the way the loop reads them: a section row is
    followed by the rows from the next section row on. *)
Lemma rows_ind (P : list (list str) -> Prop) :
  P [] ->
  (forall r post, is_section_row r = true -> P (next_section post) ->
                  P (r :: post)) ->
  (forall r post, is_section_row r = false -> P post -> P (r :: post)) ->
  forall rows, P rows.
Proof.
  intros H0 H1 H2 rows.
  remember (List.length rows) as n eqn:Hn.
  revert rows Hn. induction n as [n IH] using lt_wf_ind.
  intros [|r post] Hn; [exact H0|].
  destruct (is_section_row r) eqn:Hr.
  - apply H1; [exact Hr|].
    pose proof (next_section_length post).
    apply (IH (List.length (next_section post))); simpl in Hn; [lia|easy].
  - apply H2; [exact Hr|].
    apply (IH (List.length post)); simpl in Hn; [lia|easy].
Qed.

Lemma group_next_section rows : group (next_section rows) = group rows.
Proof.
  induction rows as [|r rows IH]; simpl; [reflexivity|].
  destruct (is_section_row r) eqn:E; [|exact IH]. simpl. now rewrite E.
Qed.

Lemma rowsToSections_group rows :
  rowsToSections rows = map section_of_group (group rows).
Proof.
  induction rows as [|r post Hr IH|r post Hr IH] using rows_ind.
  - reflexivity.
  - rewrite rowsToSections_head by exact Hr. simpl. rewrite Hr. simpl.
    now rewrite IH, group_next_section.
  - rewrite rowsToSections_orphan by exact Hr. simpl. now rewrite Hr.
Qed.

Lemma map_fst_group rows : map fst (group rows) = filter is_section_row rows.
Proof.
  induction rows as [|r rows IH]; simpl; [reflexivity|].
  destruct (is_section_row r); simpl; now rewrite IH.
Qed.

Lemma length_rowsToSections rows :
  List.length (rowsToSections rows) =
  List.length (filter is_section_row rows).
Proof.
  now rewrite rowsToSections_group, <- map_fst_group, !length_map.
Qed.

Lemma filter_nil_forallb {A} (p : A -> bool) l :
  filter p l = [] <-> forallb (fun x => negb (p x)) l = true.
Proof.
  induction l as [|x l IH]; simpl; [easy|].
  destruct (p x); simpl; [split; discriminate | exact IH].
Qed.

Lemma length_zero_nil {A} (l : list A) :
  Nat.eqb (List.length l) 0 = true <-> l = [].
Proof. destruct l; simpl; split; congruence. Qed.

Lemma rowsToSections_nil rows :
  rowsToSections rows = [] <->
  forallb (fun r => negb (is_section_row r)) rows = true.
Proof.
  rewrite <- filter_nil_forallb.
  pose proof (length_rowsToSections rows) as H. split; intros E.
  - rewrite E in H. simpl in H. symmetry in H.
    now apply length_zero_iff_nil in H.
  - rewrite E in H. simpl in H. now apply length_zero_iff_nil in H.
Qed.

Lemma is_empty_nonnil (s : str) : is_empty s = false -> s <> [].
Proof. intros H E. subst s. discriminate. Qed.

(** A row with a blank first cell leaves the loop as it is. *)
Lemma blank_row_noop st r :
  is_empty (trim (orElse (at_ r 0) [])) = true ->
  rowsToSections_step st r = st.
Proof.
  intros H. unfold rowsToSections_step. destruct st as [secs cur].
  now rewrite H.
Qed.

End GroupFacts.

Section FiniteFacts.

Lemma parseNumberCell_finite cell fb :
  isFinite fb = true -> isFinite (parseNumberCell cell fb) = true.
Proof.
  intros H. unfold parseNumberCell.
  destruct cell as [c|]; [|exact H].
  destruct (is_empty (trim c)); [exact H|].
  destruct (isFinite (parseFloat (trim c))) eqn:E; [exact E | exact H].
Qed.

Lemma parsePercentCell_finite cell fb :
  isFinite fb = true -> isFinite (parsePercentCell cell fb) = true.
Proof.
  intros H. unfold parsePercentCell.
  destruct cell as [c|]; [|exact H].
  destruct (is_empty (trim c)); [exact H|].
  destruct (match_ re_percent (trim c)) as [m_|]; [|exact H].
  destruct (isFinite (parseFloat (get_cap 1 m_))) eqn:E; [exact E | exact H].
Qed.

Lemma row_item_drawable r it :
  row_item r = Some it ->
  Item.name it <> [] /\ Item.color it <> []
  /\ isFinite (Item.radius it) = true.
Proof.
  unfold row_item.
  destruct (is_empty (trim (orElse (at_ r 0) []))) eqn:Ea; [discriminate|].
  unfold item_of_row.
  destruct (_ || _); [discriminate|].
  intros H.
  apply (f_equal (fun o => match o with Some i => i | None => it end)) in H.
  subst it. cbn [Item.name Item.color Item.radius].
  split; [|split].
  - now apply is_empty_nonnil.
  - destruct (is_empty (trim (orElse (at_ r 4) (lit "green")))) eqn:Ec.
    + intros E. vm_compute in E. discriminate E.
    + now apply is_empty_nonnil.
  - now apply parseNumberCell_finite.
Qed.

End FiniteFacts.



Section CsvLineFacts.

Lemma loop_quoted_line_nl fields : forall f rows row rest,
  parseCsv_loop (csv_line (map quote_field (f :: fields)) ++ LF :: rest)
    (Csv.mk rows row [] false) =
  parseCsv_loop rest (Csv.mk (rows ++ [row ++ f :: fields]) [] [] false).
Proof.
  induction fields as [|g fields IH]; intros f rows row rest.
  - simpl csv_line.
    rewrite loop_quote_field by reflexivity.
    reflexivity.
  - change (csv_line (map quote_field (f :: g :: fields)))
      with (quote_field f ++ [44%N] ++ csv_line (map quote_field (g :: fields))).
    rewrite <- !app_assoc.
    rewrite loop_quote_field by reflexivity.
    cbn [app parseCsv_loop]. cbn [N.eqb QUOTE Pos.eqb].
    rewrite IH. now rewrite <- app_assoc.
Qed.

Lemma loop_csv_text rows : forall acc,
  forallb (fun r => negb (Nat.eqb (List.length r) 0)) rows = true ->
  parseCsv_loop (csv_text rows) (Csv.mk acc [] [] false) =
  Csv.mk (acc ++ rows) [] [] false.
Proof.
  induction rows as [|r rows IH]; intros acc H.
  - simpl. now rewrite app_nil_r.
  - simpl in H. apply andb_prop in H as [Hr H].
    destruct r as [|f fields]; [discriminate|].
    unfold csv_text. cbn [flat_map]. rewrite <- app_assoc. cbn [app].
    rewrite loop_quoted_line_nl. fold (csv_text rows).
    rewrite IH by exact H. now rewrite <- app_assoc.
Qed.

Lemma loop_app_stop n : forall a c b st,
  List.length a <= n -> N.eqb c QUOTE = false ->
  parseCsv_loop (a ++ c :: b) st = parseCsv_loop (c :: b) (parseCsv_loop a st).
Proof.
  induction n as [|n IH]; intros a c b st Hlen Hc.
  - destruct a; [reflexivity | simpl in Hlen; lia].
  - destruct a as [|x a]; [reflexivity|].
    simpl in Hlen. apply le_S_n in Hlen.
    destruct st as [rows row field q].
    set (K := parseCsv_loop (c :: b)).
    cbn [app]. cbn [parseCsv_loop].
    destruct q.
    + destruct (N.eqb x QUOTE) eqn:Ex.
      * destruct a as [|y a].
        -- cbn [app]. rewrite Hc. reflexivity.
        -- cbn [app]. destruct (N.eqb y QUOTE) eqn:Ey.
           ++ apply IH; [simpl in Hlen; lia | exact Hc].
           ++ apply (IH (y :: a)); [exact Hlen | exact Hc].
      * apply IH; [exact Hlen | exact Hc].
    + destruct (N.eqb x QUOTE); [apply IH; assumption|].
      destruct (N.eqb x 44); [apply IH; assumption|].
      destruct (N.eqb x LF); [apply IH; assumption|].
      destruct (N.eqb x CR); apply IH; assumption.
Qed.

Lemma loop_app_stop' a c b st :
  N.eqb c QUOTE = false ->
  parseCsv_loop (a ++ c :: b) st = parseCsv_loop (c :: b) (parseCsv_loop a st).
Proof. intros H. now apply (loop_app_stop (n := List.length a)). Qed.

Lemma parseCsv_rows_add_rows acc st :
  (if negb (is_empty (Csv.field (add_rows acc st)))
      || negb (Nat.eqb (List.length (Csv.row (add_rows acc st))) 0)
   then Csv.rows (add_rows acc st)
        ++ [Csv.row (add_rows acc st) ++ [Csv.field (add_rows acc st)]]
   else Csv.rows (add_rows acc st)) =
  acc ++ (if negb (is_empty (Csv.field st))
             || negb (Nat.eqb (List.length (Csv.row st)) 0)
          then Csv.rows st ++ [Csv.row st ++ [Csv.field st]]
          else Csv.rows st).
Proof.
  unfold add_rows. cbn [Csv.rows Csv.row Csv.field].
  destruct (_ || _); [now rewrite app_assoc | reflexivity].
Qed.

Lemma loop_add_rows n acc : forall text st,
  List.length text <= n ->
  parseCsv_loop text (add_rows acc st) = add_rows acc (parseCsv_loop text st).
Proof.
  induction n as [|n IH]; intros text st Hlen.
  - destruct text; [reflexivity | simpl in Hlen; lia].
  - destruct text as [|x a]; [reflexivity|].
    simpl in Hlen. apply le_S_n in Hlen.
    destruct st as [rows row field q].
    unfold add_rows at 1. cbn [Csv.rows Csv.row Csv.field Csv.inQuotes].
    cbn [parseCsv_loop].
    destruct q.
    + destruct (N.eqb x QUOTE) eqn:Ex.
      * destruct a as [|y a].
        -- reflexivity.
        -- destruct (N.eqb y QUOTE) eqn:Ey.
           ++ apply (IH a (Csv.mk rows row (field ++ [QUOTE]) true)).
              simpl in Hlen; lia.
           ++ apply (IH (y :: a) (Csv.mk rows row field false)). exact Hlen.
      * apply (IH a (Csv.mk rows row (field ++ [x]) true)). exact Hlen.
    + destruct (N.eqb x QUOTE).
      { apply (IH a (Csv.mk rows row field true)). exact Hlen. }
      destruct (N.eqb x 44).
      { apply (IH a (Csv.mk rows (row ++ [field]) [] false)). exact Hlen. }
      destruct (N.eqb x LF).
      { rewrite <- app_assoc.
        apply (IH a (Csv.mk (rows ++ [row ++ [field]]) [] [] false)). exact Hlen. }
      destruct (N.eqb x CR).
      { apply (IH a (Csv.mk rows row field false)). exact Hlen. }
      apply (IH a (Csv.mk rows row (field ++ [x]) false)). exact Hlen.
Qed.

Lemma loop_inQuotes n : forall text st,
  List.length text <= n ->
  Csv.inQuotes (parseCsv_loop text st) =
  xorb (Csv.inQuotes st) (Nat.odd (count_quotes text)).
Proof.
  induction n as [|n IH]; intros text st Hlen.
  - destruct text; [|simpl in Hlen; lia]. simpl. now rewrite xorb_false_r.
  - destruct text as [|x a]; [simpl; now rewrite xorb_false_r|].
    simpl in Hlen. apply le_S_n in Hlen.
    destruct st as [rows row field q].
    cbn [parseCsv_loop Csv.inQuotes]. unfold count_quotes. cbn [filter].
    rewrite (N.eqb_sym QUOTE x).
    destruct q.
    + destruct (N.eqb x QUOTE) eqn:Ex.
      * destruct a as [|y a].
        -- reflexivity.
        -- cbn [filter]. rewrite (N.eqb_sym QUOTE y).
           destruct (N.eqb y QUOTE) eqn:Ey.
           ++ rewrite IH by (simpl in Hlen; lia). cbn [Csv.inQuotes List.length].
              unfold count_quotes. now rewrite Nat.odd_succ_succ.
           ++ rewrite (IH (y :: a)) by exact Hlen. cbn [Csv.inQuotes List.length].
              unfold count_quotes. cbn [filter]. rewrite (N.eqb_sym QUOTE y), Ey.
              rewrite Nat.odd_succ, <- Nat.negb_odd.
              now destruct (Nat.odd _).
      * rewrite IH by exact Hlen. reflexivity.
    + destruct (N.eqb x QUOTE) eqn:Ex.
      { rewrite IH by exact Hlen. cbn [Csv.inQuotes List.length].
        fold (count_quotes a). rewrite Nat.odd_succ, <- Nat.negb_odd.
        now destruct (Nat.odd _). }
      destruct (N.eqb x 44); [now rewrite IH by exact Hlen|].
      destruct (N.eqb x LF); [now rewrite IH by exact Hlen|].
      destruct (N.eqb x CR); now rewrite IH by exact Hlen.
Qed.

Lemma split_nonnil sep s : split sep s <> [].
Proof.
  destruct s as [|c t]; simpl; [discriminate|].
  destruct (N.eqb c sep); [discriminate|].
  destruct (split sep t); discriminate.
Qed.

Lemma split_snoc_sep sep s : split sep (s ++ [sep]) = split sep s ++ [[]].
Proof.
  induction s as [|c t IH]; simpl.
  - now rewrite N.eqb_refl.
  - destruct (N.eqb c sep); [now rewrite IH|].
    rewrite IH. pose proof (split_nonnil sep t).
    destruct (split sep t); [contradiction | reflexivity].
Qed.

Lemma split_snoc_other sep s c :
  N.eqb c sep = false ->
  split sep (s ++ [c]) =
  removelast (split sep s) ++ [last (split sep s) [] ++ [c]].
Proof.
  intros Hc. induction s as [|x t IH]; simpl.
  - now rewrite Hc.
  - pose proof (split_nonnil sep t) as Hne.
    destruct (N.eqb x sep).
    + rewrite IH. destruct (split sep t) as [|f fs]; [contradiction|].
      reflexivity.
    + rewrite IH. destruct (split sep t) as [|f fs]; [contradiction|].
      destruct fs as [|g fs]; reflexivity.
Qed.

Lemma removelast_snoc {A} (l : list A) x : removelast (l ++ [x]) = l.
Proof. rewrite removelast_app by discriminate. simpl. apply app_nil_r. Qed.

Lemma last_snoc {A} (l : list A) x d : last (l ++ [x]) d = x.
Proof. apply last_last. Qed.

Lemma split_parts sep s :
  removelast (split sep s) ++ [last (split sep s) []] = split sep s.
Proof. symmetry. apply app_removelast_last, split_nonnil. Qed.

Lemma loop_unquoted text :
  lacks QUOTE text = true ->
  let L := split LF (without CR text) in
  let S := split 44 (last L []) in
  parseCsv_loop text Csv.init =
  Csv.mk (map (split 44) (removelast L)) (removelast S) (last S []) false.
Proof.
  induction text as [|c text IH] using rev_ind; intros Hq; [reflexivity|].
  rewrite lacks_app in Hq. apply andb_prop in Hq as [Hq Hc].
  simpl in Hc. rewrite andb_true_r in Hc. apply negb_true_iff in Hc.
  specialize (IH Hq). cbv zeta in IH.
  rewrite loop_app_stop' by exact Hc. rewrite IH. clear IH.
  unfold without. rewrite filter_app. fold (without CR text).
  set (L := split LF (without CR text)).
  set (S := split 44 (last L [])).
  cbn [parseCsv_loop filter]. rewrite Hc.
  destruct (N.eqb c 44) eqn:E44.
  { apply N.eqb_eq in E44; subst c. cbn [N.eqb CR Pos.eqb negb].
    fold L. cbv zeta.
    rewrite (@split_snoc_other LF (without CR text) 44%N) by reflexivity. fold L.
    rewrite removelast_snoc, last_snoc, split_snoc_sep.
    fold S. rewrite removelast_snoc, last_snoc.
    unfold S; now rewrite split_parts. }
  destruct (N.eqb c LF) eqn:ELF.
  { apply N.eqb_eq in ELF; subst c. cbn [N.eqb CR LF Pos.eqb negb].
    cbv zeta. rewrite split_snoc_sep. fold L.
    rewrite removelast_snoc, last_snoc. cbn [split removelast last].
    f_equal. unfold S. rewrite split_parts.
    transitivity (map (split 44) (removelast L ++ [last L []]));
      [now rewrite map_app | f_equal; unfold L; apply split_parts]. }
  destruct (N.eqb c CR) eqn:ECR.
  { cbn [negb app]. rewrite app_nil_r. reflexivity. }
  cbn [negb]. cbv zeta.
  rewrite (@split_snoc_other LF (without CR text) c) by exact ELF. fold L.
  rewrite removelast_snoc, last_snoc.
  rewrite (@split_snoc_other 44%N (last L []) c) by exact E44. fold S.
  now rewrite removelast_snoc, last_snoc.
Qed.

Lemma split_cond sep s :
  negb (is_empty (last (split sep s) []))
  || negb (Nat.eqb (List.length (removelast (split sep s))) 0) =
  negb (is_empty s).
Proof.
  destruct s as [|c t]; [reflexivity|].
  pose proof (split_nonnil sep t) as Hne.
  cbn [split]. destruct (N.eqb c sep).
  - destruct (split sep t) as [|f fs]; [contradiction|].
    cbn [removelast List.length Nat.eqb negb]. apply orb_true_r.
  - destruct (split sep t) as [|f fs]; [contradiction|].
    destruct fs as [|g fs]; [reflexivity|].
    cbn [removelast List.length Nat.eqb negb]. apply orb_true_r.
Qed.

Lemma full_snoc rows row (field : str) :
  full rows = true -> full (rows ++ [row ++ [field]]) = true.
Proof.
  intros H. unfold full. rewrite forallb_app. fold (full rows). rewrite H.
  cbn [forallb]. rewrite length_app. cbn [List.length].
  rewrite Nat.add_1_r. reflexivity.
Qed.

Lemma loop_full n : forall text st,
  List.length text <= n ->
  full (Csv.rows st) = true ->
  full (Csv.rows (parseCsv_loop text st)) = true.
Proof.
  induction n as [|n IH]; intros text st Hlen Hst.
  - destruct text; [exact Hst | simpl in Hlen; lia].
  - destruct text as [|x a]; [exact Hst|].
    simpl in Hlen. apply le_S_n in Hlen.
    destruct st as [rows row field q]. cbn [Csv.rows] in Hst.
    cbn [parseCsv_loop].
    destruct q.
    + destruct (N.eqb x QUOTE).
      * destruct a as [|y a]; [exact Hst|].
        destruct (N.eqb y QUOTE).
        -- apply IH; [simpl in Hlen; lia | exact Hst].
        -- apply IH; [exact Hlen | exact Hst].
      * apply IH; [exact Hlen | exact Hst].
    + destruct (N.eqb x QUOTE); [apply IH; assumption|].
      destruct (N.eqb x 44); [apply IH; assumption|].
      destruct (N.eqb x LF).
      { apply IH; [exact Hlen|]. cbn [Csv.rows]. now apply full_snoc. }
      destruct (N.eqb x CR); apply IH; assumption.
Qed.

Lemma loop_unterminated s : forall rows row field,
  lacks QUOTE s = true ->
  parseCsv_loop s (Csv.mk rows row field true) =
  Csv.mk rows row (field ++ s) true.
Proof.
  induction s as [|c s IH]; intros rows row field H.
  - simpl. now rewrite app_nil_r.
  - cbn [lacks forallb] in H. apply andb_prop in H as [Hc H].
    apply negb_true_iff in Hc. cbn [parseCsv_loop]. rewrite Hc.
    rewrite IH by exact H. now rewrite <- app_assoc.
Qed.

(** A line feed after an even number of quote characters ends a row,
    and the rest of the text is read on its own. *)
Lemma parseCsv_line_feed (a b : str) :
  Nat.even (count_quotes a) = true ->
  parseCsv (a ++ LF :: b) = parseCsv (a ++ [LF]) ++ parseCsv b.
Proof.
  intros Heven.
  assert (Hq : Csv.inQuotes (parseCsv_loop a Csv.init) = false).
  { rewrite (@loop_inQuotes (List.length a)) by lia.
    cbn [Csv.init Csv.inQuotes xorb].
    rewrite <- Nat.negb_even, Heven. reflexivity. }
  unfold parseCsv, parseCsv_rows.
  rewrite !loop_app_stop' by reflexivity.
  destruct (parseCsv_loop a Csv.init) as [rows row field q].
  cbn [Csv.inQuotes] in Hq. subst q.
  cbn [parseCsv_loop]. cbn [N.eqb QUOTE LF Pos.eqb].
  replace (parseCsv_loop b (Csv.mk (rows ++ [row ++ [field]]) [] [] false))
    with (parseCsv_loop b (add_rows (rows ++ [row ++ [field]]) Csv.init))
    by (unfold add_rows, Csv.init;
        cbn [Csv.rows Csv.row Csv.field Csv.inQuotes];
        now rewrite app_nil_r).
  rewrite (@loop_add_rows (List.length b)) by lia.
  rewrite parseCsv_rows_add_rows. rewrite map_app.
  reflexivity.
Qed.

(** In quotes and without a closing quote, the rest of the text is one
    cell. *)
Lemma parseCsv_unterminated (s : str) :
  lacks QUOTE s = true -> s <> [] ->
  parseCsv (QUOTE :: s) = [[trim s]].
Proof.
  intros H Hne. unfold parseCsv, parseCsv_rows, Csv.init.
  cbn [parseCsv_loop]. cbn [N.eqb QUOTE Pos.eqb].
  rewrite loop_unterminated by exact H.
  cbn [Csv.rows Csv.row Csv.field app].
  apply is_empty_false in Hne. rewrite Hne. reflexivity.
Qed.

End CsvLineFacts.

Section NumberTailFacts.

Lemma exponent_part_none T : ends_number T -> exponent_part T = 0%Z.
Proof.
  destruct T as [|x T]; [reflexivity|]. intros (_ & _ & H1 & H2).
  unfold exponent_part. now rewrite H1, H2.
Qed.

Lemma parseFloat_decimal_tail c neg ip fp T :
  decimal_shape c neg ip fp -> ends_number T ->
  parseFloat (c ++ T) = decimal_value (neg, ip, fp).
Proof.
  intros (-> & Hne & Hip & Hfp) HT. unfold render, parseFloat, decimal_value.
  destruct ip as [|d ip']; [congruence|].
  pose proof Hip as Hip'. simpl in Hip'. apply andb_prop in Hip' as [Hd _].
  assert (HTd : hd_not is_digit T).
  { destruct T; [exact I | apply HT]. }
  set (frac := if is_empty fp then [] else 46%N :: fp).
  assert (Hfrac : hd_not is_digit (frac ++ T)).
  { unfold frac. destruct (is_empty fp); [exact HTd | reflexivity]. }
  destruct (span_app is_digit (d :: ip') _ Hip Hfrac) as [Et Ed].
  destruct (digit_not_sign d Hd) as [E1 E2].
  assert (Hs : split_sign
                 (trimStart (((if neg then [45%N] else []) ++ (d :: ip')
                    ++ frac) ++ T)) =
               (neg, (d :: ip') ++ frac ++ T)).
  { rewrite <- !app_assoc. unfold trimStart. destruct neg; cbn [app].
    - reflexivity.
    - cbn [dropWhile]. rewrite (digit_not_ws d Hd).
      unfold split_sign. now rewrite E1, E2. }
  rewrite Hs.
  assert (HI : starts_with (lit "Infinity") ((d :: ip') ++ frac ++ T) = false).
  { cbn [app lit map list_ascii_of_string starts_with].
    destruct (N.eqb_spec (N_of_ascii "I") d) as [<-|]; [discriminate|].
    reflexivity. }
  rewrite HI, Et, Ed. cbn [is_empty andb].
  unfold frac. destruct fp as [|f fp']; cbn [is_empty app].
  - destruct T as [|x T'].
    + rewrite !app_nil_r. reflexivity.
    + destruct HT as (_ & H46 & H101 & H69). rewrite H46.
      rewrite !app_nil_r.
      cbn [List.length]. unfold exponent_part. now rewrite H101, H69.
  - cbn [N.eqb Pos.eqb].
    destruct (span_app is_digit (f :: fp') T Hfp HTd) as [E3 E4].
    cbn [app] in E3, E4. rewrite E3, E4.
    now rewrite exponent_part_none.
Qed.

Lemma ends_number_tail W P :
  forallb is_white_space W = true -> P = [] \/ P = [37%N] ->
  ends_number (W ++ P).
Proof.
  intros HW HP. destruct W as [|w W]; cbn [app].
  - destruct HP as [-> | ->]; [exact I | now repeat split].
  - cbn [forallb] in HW. apply andb_prop in HW as [Hw _]. cbn [ends_number].
    repeat split.
    + destruct (is_digit w) eqn:E; [|reflexivity].
      apply digit_not_ws in E. congruence.
    + apply N.eqb_neq. intros ->. discriminate.
    + apply N.eqb_neq. intros ->. discriminate.
    + apply N.eqb_neq. intros ->. discriminate.
Qed.

End NumberTailFacts.

Section SafeMarkupFacts.

Lemma markup_free_app a b : markup_free (a ++ b) = markup_free a && markup_free b.
Proof.
  unfold markup_free. rewrite !lacks_app.
  repeat match goal with |- context [lacks ?c ?s] => destruct (lacks c s) end;
    reflexivity.
Qed.

Lemma markup_free_esc1 c : markup_free (esc1 c) = true.
Proof.
  destruct (esc1_cases c) as [(E & H1 & H2 & H3 & H4 & H5)
    |[(-> & E)|[(-> & E)|[(-> & E)|[(-> & E)|(-> & E)]]]]];
    rewrite E; try reflexivity.
  unfold markup_free, lacks. cbn [forallb]. rewrite !andb_true_r.
  apply N.eqb_neq in H2, H3, H4, H5.
  now rewrite H2, H3, H4, H5.
Qed.

Lemma markup_free_escapeHtml s : markup_free (escapeHtml s) = true.
Proof.
  rewrite escapeHtml_flat_map.
  induction s as [|c s IH]; [reflexivity|].
  cbn [flat_map]. now rewrite markup_free_app, markup_free_esc1, IH.
Qed.

Lemma escapeHtml_app s t : escapeHtml (s ++ t) = escapeHtml s ++ escapeHtml t.
Proof. rewrite !escapeHtml_flat_map. apply flat_map_app. Qed.

Lemma esc1_head c : exists h t, esc1 c = h :: t /\ (h = 38%N <-> t <> []).
Proof.
  destruct (esc1_cases c) as [(E & H1 & H2 & H3 & H4 & H5)
    |[(-> & E)|[(-> & E)|[(-> & E)|[(-> & E)|(-> & E)]]]]]; rewrite E.
  - exists c, []. split; [reflexivity|]. split; [intros ->; now destruct H1 | now intros H].
  - vm_compute. eexists _, _. split; [reflexivity|]. split; [discriminate | reflexivity].
  - vm_compute. eexists _, _. split; [reflexivity|]. split; [discriminate | reflexivity].
  - vm_compute. eexists _, _. split; [reflexivity|]. split; [discriminate | reflexivity].
  - vm_compute. eexists _, _. split; [reflexivity|]. split; [discriminate | reflexivity].
  - vm_compute. eexists _, _. split; [reflexivity|]. split; [discriminate | reflexivity].
Qed.

Lemma esc1_prefix_inj c d u v : esc1 c ++ u = esc1 d ++ v -> c = d /\ u = v.
Proof.
  destruct (esc1_cases c) as [(E & H1 & H2 & H3 & H4 & H5)
    |[(-> & E)|[(-> & E)|[(-> & E)|[(-> & E)|(-> & E)]]]]]; rewrite E;
  destruct (esc1_cases d) as [(E' & H1' & H2' & H3' & H4' & H5')
    |[(-> & E')|[(-> & E')|[(-> & E')|[(-> & E')|(-> & E')]]]]]; rewrite E';
  vm_compute; intros H; try discriminate H;
  try (injection H; intros; subst; easy).
Qed.

Lemma br_app a b : br (a ++ b) = br a ++ br b.
Proof. apply flat_map_app. Qed.

Lemma br_esc1 c : br (esc1 c) = shown c.
Proof.
  unfold shown.
  destruct (esc1_cases c) as [(E & _)|[(-> & E)|[(-> & E)|[(-> & E)|[(-> & E)|(-> & E)]]]]];
    rewrite E; try reflexivity.
  unfold br. cbn [flat_map]. rewrite app_nil_r.
  destruct (N.eqb LF c) eqn:El; reflexivity.
Qed.

Lemma br_escapeHtml x : br (escapeHtml x) = flat_map shown x.
Proof.
  rewrite escapeHtml_flat_map.
  induction x as [|c x IH]; [reflexivity|].
  cbn [flat_map]. now rewrite br_app, br_esc1, IH.
Qed.

Lemma br_anchor h l : br (anchor h l) = anchor (br h) (br l).
Proof.
  unfold anchor. rewrite !br_app. reflexivity.
Qed.

Lemma safe_text x : forall t, safe_markup t -> safe_markup (flat_map shown x ++ t).
Proof.
  induction x as [|c x IH]; intros t Ht; [exact Ht|].
  cbn [flat_map]. rewrite <- app_assoc. apply safe_unit. now apply IH.
Qed.

Lemma lacks_quote_shown x : lacks QUOTE (flat_map shown x) = true.
Proof.
  induction x as [|c x IH]; [reflexivity|].
  cbn [flat_map]. rewrite lacks_app, IH, andb_true_r.
  unfold shown. destruct (N.eqb LF c); [reflexivity|].
  pose proof (markup_free_esc1 c) as H. unfold markup_free in H.
  apply andb_prop in H as [H _]. apply andb_prop in H as [_ H]. exact H.
Qed.

Lemma solid_spec a c :
  solid a = true -> ci_eqb a c = true -> is_white_space c = false.
Proof.
  unfold solid, ci_eqb. intros Ha E. apply negb_true_iff in Ha.
  apply N.eqb_eq in E. rewrite E in Ha. clear E a.
  unfold lower in Ha.
  destruct ((65 <=? c) && (c <=? 90))%N eqn:R; [|exact Ha].
  apply andb_prop in R as [R1 R2]. apply N.leb_le in R1, R2.
  unfold is_white_space. rewrite !orb_false_iff.
  repeat split;
    try (apply N.eqb_neq; lia);
    apply andb_false_iff;
    ((left; apply N.leb_gt; lia) || (right; apply N.leb_gt; lia)).
Qed.

Lemma starts_with_ci_trimEnd_br p : forall w,
  forallb solid p = true ->
  starts_with_ci p w = true -> starts_with_ci p (trimEnd (br w)) = true.
Proof.
  induction p as [|a p IH]; intros w Hp H; [reflexivity|].
  cbn [forallb] in Hp. apply andb_prop in Hp as [Ha Hp].
  destruct w as [|c w]; [discriminate|].
  cbn [starts_with_ci] in H. apply andb_prop in H as [E H].
  pose proof (solid_spec a c Ha E) as Hc.
  assert (Hl : N.eqb LF c = false).
  { destruct (N.eqb_spec LF c) as [<-|]; [discriminate | reflexivity]. }
  unfold br. cbn [flat_map]. rewrite Hl. cbn [app]. fold (br w).
  pose proof (@trimEnd_app_stop [] c (br w) Hc) as T. cbn [app] in T.
  rewrite T. cbn [starts_with_ci].
  rewrite E. now apply IH.
Qed.

Lemma starts_with_ci_trim_br p w :
  forallb solid p = true -> p <> [] ->
  starts_with_ci p w = true -> starts_with_ci p (trim (br w)) = true.
Proof.
  intros Hp Hne H. unfold trim.
  replace (trimStart (br w)) with (br w).
  - now apply starts_with_ci_trimEnd_br.
  - destruct p as [|a p]; [contradiction|].
    destruct w as [|c w]; [discriminate|].
    cbn [forallb] in Hp. apply andb_prop in Hp as [Ha _].
    cbn [starts_with_ci] in H. apply andb_prop in H as [E _].
    pose proof (solid_spec a c Ha E) as Hc.
    assert (Hl : N.eqb LF c = false).
    { destruct (N.eqb_spec LF c) as [<-|]; [discriminate | reflexivity]. }
    unfold br. cbn [flat_map]. rewrite Hl. cbn [app].
    unfold trimStart. cbn [dropWhile]. now rewrite Hc.
Qed.

Lemma begins_with_scheme_br w :
  trim w = w -> begins_with_scheme w = true -> begins_with_scheme (br w) = true.
Proof.
  unfold begins_with_scheme. intros Ht. rewrite Ht. cbn [existsb].
  rewrite !orb_false_r. intros H.
  apply orb_true_iff in H as [H|H]; [|apply orb_true_iff in H as [H|H]].
  - rewrite (starts_with_ci_trim_br (p := lit "http://") w); try reflexivity; try exact H.
    intros E; vm_compute in E; discriminate E.
  - rewrite (starts_with_ci_trim_br (p := lit "https://") w); try reflexivity; try exact H.
    + apply orb_true_r.
    + intros E; vm_compute in E; discriminate E.
  - rewrite (starts_with_ci_trim_br (p := lit "mailto:") w); try reflexivity; try exact H.
    + rewrite !orb_true_r. reflexivity.
    + intros E; vm_compute in E; discriminate E.
Qed.

Lemma lacks_tail c x s : lacks c (x :: s) = true -> lacks c s = true.
Proof. cbn [lacks forallb]. intros H. now apply andb_prop in H. Qed.

Lemma delimited_lacks (a : ascii) t :
  lacks (N_of_ascii a) t = true -> delimited a t = None.
Proof.
  intros H. unfold delimited.
  replace (dropWhile (none_of a) t) with (@nil N); [reflexivity|].
  symmetry. apply dropWhile_all.
  unfold lacks in H. unfold none_of. exact H.
Qed.

Lemma delimited_rest (a : ascii) t label after c :
  delimited a t = Some (label, after) -> lacks c t = true ->
  lacks c after = true.
Proof.
  unfold delimited. intros H Hc.
  pose proof (@lacks_dropWhile c (none_of a) t Hc) as Hd.
  destruct (dropWhile (none_of a) t) as [|x after']; [discriminate|].
  destruct (is_empty _); [discriminate|].
  injection H as _ <-. now apply lacks_tail in Hd.
Qed.

Lemma link_at_lacks s : lacks_link s = true -> link_at s = None.
Proof.
  unfold lacks_link. intros H. unfold link_at.
  destruct s as [|c t]; [reflexivity|].
  destruct (N.eqb c 91) eqn:E91; [|reflexivity].
  apply N.eqb_eq in E91. subst c.
  destruct (delimited "]" t) as [[label [|c2 t2]]|] eqn:Ed; try reflexivity.
  destruct (N.eqb c2 40) eqn:E40; [|reflexivity].
  apply N.eqb_eq in E40. subst c2.
  apply orb_true_iff in H as [H|H41].
  - apply orb_true_iff in H as [H|H40].
    + apply orb_true_iff in H as [H91|H93].
      * discriminate.
      * apply lacks_tail in H93.
        rewrite (@delimited_lacks "]" t H93) in Ed. discriminate.
    + apply lacks_tail in H40.
      pose proof (@delimited_rest _ _ _ _ 40%N Ed H40) as H'. discriminate.
  - apply lacks_tail in H41.
    pose proof (@delimited_rest _ _ _ _ 41%N Ed H41) as H'. apply lacks_tail in H'.
    now rewrite (@delimited_lacks ")" t2 H').
Qed.

Lemma lacks_link_tail x s : lacks_link (x :: s) = true -> lacks_link s = true.
Proof.
  unfold lacks_link. intros H.
  repeat (apply orb_true_iff in H as [H|H]); apply lacks_tail in H; rewrite H;
    rewrite ?orb_true_r; reflexivity.
Qed.

Lemma markup_no_link again : forall s fuel,
  lacks_link s = true -> List.length s < fuel ->
  markup again fuel s = escapeHtml s.
Proof.
  induction s as [|c s IH]; intros fuel H Hf.
  - destruct fuel; [lia|]. reflexivity.
  - destruct fuel; [simpl in Hf; lia|].
    cbn [markup]. rewrite link_at_lacks by exact H.
    rewrite IH by (try (eapply lacks_link_tail; exact H); simpl in Hf; lia).
    now rewrite escapeHtml_cons.
Qed.

Lemma safe_link_markup label url t :
  safe_markup t -> safe_markup (br (link_markup true label url) ++ t).
Proof.
  intros Ht. unfold link_markup.
  destruct (isNavigableUrl url) eqn:Hn.
  - rewrite br_anchor, !br_escapeHtml.
    apply safe_link; [| apply lacks_quote_shown | exact Ht].
    rewrite <- br_escapeHtml. apply begins_with_scheme_br.
    + rewrite !trim_escape. now rewrite trim_idem.
    + rewrite <- isNavigableUrl_spec.
      now rewrite !isNavigableUrl_escape, isNavigableUrl_trim.
  - replace (escapeHtml (escapeHtml label) ++ lit " (" ++
             escapeHtml (escapeHtml (trim url)) ++ lit ")")
      with (escapeHtml (escapeHtml label ++ lit " (" ++
                        escapeHtml (trim url) ++ lit ")"))
      by (rewrite !escapeHtml_app; reflexivity).
    rewrite br_escapeHtml. now apply safe_text.
Qed.

Lemma safe_br_markup fuel : forall s, safe_markup (br (markup true fuel s)).
Proof.
  induction fuel as [|fuel IH]; intros s; [constructor|].
  cbn [markup]. destruct (link_at s) as [[cs rst]|].
  - rewrite br_app. apply safe_link_markup, IH.
  - destruct s as [|c t]; [constructor|].
    rewrite br_app, br_esc1. apply safe_unit, IH.
Qed.

End SafeMarkupFacts.

Section PopupFacts.

Import Popup.

Lemma popup_inv_more es e s : popup_inv es s -> popup_inv (es ++ [e]) s.
Proof.
  intros [H1 H2]. split; [exact H1|].
  destruct (lastPopupPos s); [|exact H2].
  destruct H2 as (it & e' & Hin & H). exists it, e'.
  split; [apply in_or_app; now left | exact H].
Qed.

Lemma popup_inv_show es e it s :
  shows it e ->
  popup_inv (es ++ [e]) (show it s).
Proof.
  intros Hs. split; [reflexivity|]. cbn.
  exists it, e. split; [apply in_or_app; right; now left|].
  now split.
Qed.

Lemma handle_inv es e s : popup_inv es s -> popup_inv (es ++ [e]) (handle e s).
Proof.
  intros Hinv. pose proof (popup_inv_more e Hinv) as Hm.
  destruct e as [it|it|it| | | | | | |]; cbn [handle].
  - destruct (Item.isUrl it) eqn:Eu; [exact Hm|].
    apply popup_inv_show. split; [exact Eu | now left].
  - destruct (Item.isUrl it); exact Hm.
  - destruct (Item.isUrl it) eqn:Eu; [exact Hm|].
    destruct (hidden s || negb (sameMarker it s)) eqn:E.
    + apply popup_inv_show. split; [exact Eu | now right].
    + apply orb_false_iff in E as [Eh _].
      destruct Hm as [H1 H2]. destruct s as [h p t l c]. cbn in *. subst h.
      destruct l as [pos|]; [|destruct H2; discriminate].
      destruct p; cbn; split; try discriminate; try reflexivity; exact H2.
  - exact Hm.
  - exact Hm.
  - exact Hm.
  - destruct Hm as [H1 H2]. destruct s as [h p t l c]. cbn in *.
    split; [discriminate|]. destruct l; [exact H2|]. split; [reflexivity | apply H2].
  - destruct Hm as [H1 H2]. destruct s as [h p t l c]. cbn in *.
    split; [discriminate|]. destruct l; [exact H2|]. split; [reflexivity | apply H2].
  - destruct Hm as [H1 H2]. destruct s as [h p t l c]. cbn in *.
    destruct t; [|now split]. destruct p; cbn; [now split|].
    split; [discriminate|]. destruct l; [exact H2|]. split; [reflexivity | apply H2].
  - destruct Hm as [H1 H2]. destruct s as [h p t l c]. cbn in *.
    destruct h; [now split|]. destruct l; now split.
Qed.

Lemma run_events_snoc es e s :
  run_events (es ++ [e]) s = handle e (run_events es s).
Proof. unfold run_events. now rewrite fold_left_app. Qed.

Lemma run_events_inv es : popup_inv es (run_events es init).
Proof.
  induction es as [|e es IH] using rev_ind.
  - split; [discriminate|]. now split.
  - rewrite run_events_snoc. now apply handle_inv.
Qed.

Lemma passive_keeps_pinned e s :
  passive e = true -> pinned s = true -> hidden s = false ->
  let s' := handle e s in
  pinned s' = true /\ hidden s' = false /\ content s' = content s
  /\ lastPopupPos s' = lastPopupPos s.
Proof.
  intros He Hp Hh. destruct s as [h p t l c]. cbn in Hp, Hh. subst h p.
  destruct e as [it|it|it| | | | | | |]; cbn in He |- *;
    try discriminate; try rewrite He; cbn; try now repeat split.
  - destruct (Item.isUrl it); now repeat split.
  - destruct t; now repeat split.
  - destruct l; now repeat split.
Qed.

Lemma quiet_keeps_hidden e s :
  quiet e = true -> hidden s = true ->
  hidden (handle e s) = true /\ content (handle e s) = content s.
Proof.
  intros He Hh. destruct s as [h p t l c]. cbn in Hh. subst h.
  destruct e as [it|it|it| | | | | | |]; cbn in He |- *;
    try discriminate; try rewrite He; cbn; try now split.
  - destruct (Item.isUrl it); now split.
  - destruct t; [destruct p|]; now split.
Qed.

End PopupFacts.

Section FloatFacts.

Lemma SFcompare_swap x y :
  SFcompare y x = option_map CompOpp (SFcompare x y).
Proof.
  destruct x as [sx|sx| |sx mx ex], y as [sy|sy| |sy my ey];
    try reflexivity;
    try (destruct sx; reflexivity); try (destruct sy; reflexivity);
    try (destruct sx, sy; reflexivity).
  cbn [SFcompare option_map].
  destruct sx, sy; try reflexivity;
    rewrite (Z.compare_antisym ex ey);
    destruct (Z.compare ex ey); cbn [CompOpp]; try reflexivity;
    pose proof (Pos.compare_cont_antisym mx my Eq) as A;
    cbn [CompOpp] in A; rewrite <- A;
    [now rewrite CompOpp_involutive | reflexivity].
Qed.

Lemma ltb_leb (a b : float) : PrimFloat.ltb a b = true -> PrimFloat.leb a b = true.
Proof.
  rewrite ltb_spec, leb_spec. unfold SFltb, SFleb.
  destruct (SFcompare _ _) as [[]|]; easy.
Qed.

Lemma not_nan_compare (a : float) :
  is_nan a = false -> Prim2SF a <> S754_nan.
Proof.
  unfold is_nan. rewrite eqb_spec. intros H E. rewrite E in H. discriminate.
Qed.

Lemma compare_some (a b : float) :
  is_nan a = false -> is_nan b = false ->
  exists c, SFcompare (Prim2SF a) (Prim2SF b) = Some c.
Proof.
  intros Ha Hb. apply not_nan_compare in Ha, Hb.
  destruct (Prim2SF a) as [sx|sx| |sx mx ex], (Prim2SF b) as [sy|sy| |sy my ey];
    try congruence; cbn; eauto.
Qed.

Lemma leb_refl (a : float) : is_nan a = false -> PrimFloat.leb a a = true.
Proof.
  unfold is_nan. rewrite eqb_spec, leb_spec. unfold SFeqb, SFleb.
  destruct (SFcompare _ _) as [[]|]; easy.
Qed.

Lemma not_ltb_eqb (a b : float) :
  is_nan a = false -> is_nan b = false ->
  PrimFloat.ltb a b = false -> PrimFloat.ltb b a = false ->
  PrimFloat.eqb a b = true /\ PrimFloat.leb a b = true
  /\ PrimFloat.leb b a = true.
Proof.
  intros Ha Hb. destruct (compare_some a b Ha Hb) as [c Hc].
  rewrite !ltb_spec, !leb_spec, eqb_spec. unfold SFltb, SFleb, SFeqb.
  rewrite (SFcompare_swap (Prim2SF a) (Prim2SF b)), Hc. cbn [option_map].
  destruct c; cbn [CompOpp]; easy.
Qed.

Lemma max_cases (a b : Number) :
  is_nan (Math.max a b) = false ->
  is_nan a = false /\ is_nan b = false
  /\ ((Math.max a b = b /\ PrimFloat.leb a b = true)
      \/ (Math.max a b = a /\ PrimFloat.leb b a = true)).
Proof.
  unfold Math.max.
  destruct (is_nan a) eqn:Ha; [discriminate|].
  destruct (is_nan b) eqn:Hb; [discriminate|]. cbn [orb].
  intros _. split; [reflexivity|]. split; [reflexivity|].
  destruct (PrimFloat.ltb a b) eqn:E1; [left; split; [reflexivity | now apply ltb_leb]|].
  destruct (PrimFloat.ltb b a) eqn:E2; [right; split; [reflexivity | now apply ltb_leb]|].
  destruct (not_ltb_eqb Ha Hb E1 E2) as (_ & L1 & L2).
  destruct (get_sign a); [left | right]; now split.
Qed.

Lemma min_cases (a b : Number) :
  is_nan (Math.min a b) = false ->
  is_nan a = false /\ is_nan b = false
  /\ ((Math.min a b = a /\ PrimFloat.leb a b = true)
      \/ (Math.min a b = b /\ PrimFloat.leb b a = true)).
Proof.
  unfold Math.min.
  destruct (is_nan a) eqn:Ha; [discriminate|].
  destruct (is_nan b) eqn:Hb; [discriminate|]. cbn [orb].
  intros _. split; [reflexivity|]. split; [reflexivity|].
  destruct (PrimFloat.ltb a b) eqn:E1; [left; split; [reflexivity | now apply ltb_leb]|].
  destruct (PrimFloat.ltb b a) eqn:E2; [right; split; [reflexivity | now apply ltb_leb]|].
  destruct (not_ltb_eqb Ha Hb E1 E2) as (_ & L1 & L2).
  destruct (get_sign a); [left | right]; now split.
Qed.

Lemma clamp_bounds (v lo hi : Number) :
  is_nan (clamp v lo hi) = false ->
  PrimFloat.leb lo (clamp v lo hi) = true
  /\ (PrimFloat.leb lo hi = true -> PrimFloat.leb (clamp v lo hi) hi = true).
Proof.
  unfold clamp. intros H.
  destruct (max_cases _ _ H) as (Hlo & Hm & Hc).
  destruct (min_cases _ _ Hm) as (Hhi & Hv & Hc').
  assert (Hmh : PrimFloat.leb (Math.min hi v) hi = true).
  { destruct Hc' as [[-> _]|[-> L]]; [now apply leb_refl | exact L]. }
  destruct Hc as [[-> L]|[-> L]].
  - split; [exact L | intros _; exact Hmh].
  - split; [now apply leb_refl | easy].
Qed.






End FloatFacts.

Section IdleStripping.

Lemma unquote_lacks c : lacks QUOTE c = true -> unquote c = c.
Proof.
  intros H. apply unquote_other. intros mid E. subst c.
  cbn [lacks forallb] in H. rewrite N.eqb_refl in H. discriminate.
Qed.

Lemma cells_lack_quote text r c :
  no_doubled_quote text = true -> In r (parseCsv text) -> In c r ->
  lacks QUOTE c = true.
Proof.
  intros Hnd Hr Hc.
  assert (H : rows_lack QUOTE (parseCsv text) = true).
  { apply parseCsv_lacks. now apply loop_lacks_quote. }
  unfold rows_lack in H. rewrite forallb_forall in H.
  specialize (H r Hr). rewrite forallb_forall in H. now apply H.
Qed.

Lemma cell_as_parsed text r i :
  no_doubled_quote text = true -> In r (parseCsv text) ->
  trim (unquote (orElse (at_ r i) [])) = orElse (at_ r i) [].
Proof.
  intros Hnd Hr. unfold at_.
  destruct (nth_error r i) as [c|] eqn:E; cbn [orElse].
  - apply nth_error_In in E.
    rewrite (@unquote_lacks c (@cells_lack_quote text r c Hnd Hr E)).
    unfold parseCsv in Hr. apply in_map_iff in Hr as (r0 & <- & _).
    apply in_map_iff in E as (c0 & <- & _). apply trim_idem.
  - reflexivity.
Qed.

End IdleStripping.

Section PlainFacts.

Lemma loop_plain s : forall rest rows row field,
  forallb plain s = true ->
  parseCsv_loop (s ++ rest) (Csv.mk rows row field false) =
  parseCsv_loop rest (Csv.mk rows row (field ++ s) false).
Proof.
  induction s as [|x s IH]; intros rest rows row field H.
  - cbn [app]. now rewrite app_nil_r.
  - cbn [forallb] in H. apply andb_prop in H as [Hx H].
    unfold plain in Hx. apply negb_true_iff in Hx.
    rewrite !orb_false_iff in Hx. destruct Hx as [[[H1 H2] H3] H4].
    cbn [app parseCsv_loop]. rewrite H1, H2, H3, H4.
    rewrite IH by exact H. now rewrite <- app_assoc.
Qed.

Lemma loop_plain_end s rows row field :
  forallb plain s = true ->
  parseCsv_loop s (Csv.mk rows row field false) =
  Csv.mk rows row (field ++ s) false.
Proof.
  intros H. rewrite <- (app_nil_r s) at 1. now rewrite loop_plain.
Qed.

End PlainFacts.

Section CarriageReturnFacts.

(** A carriage return outside quotes leaves the state of the parser as
    it is. *)
Lemma loop_cr_outside (a b : str) :
  Nat.even (count_quotes a) = true ->
  parseCsv_loop (a ++ CR :: b) Csv.init =
  parseCsv_loop b (parseCsv_loop a Csv.init).
Proof.
  intros Heven.
  assert (Hq : Csv.inQuotes (parseCsv_loop a Csv.init) = false).
  { rewrite (@loop_inQuotes (List.length a)) by lia.
    cbn [Csv.init Csv.inQuotes xorb].
    rewrite <- Nat.negb_even, Heven. reflexivity. }
  rewrite loop_app_stop' by reflexivity.
  destruct (parseCsv_loop a Csv.init) as [rows row field q].
  cbn [Csv.inQuotes] in Hq. subst q. reflexivity.
Qed.

(** A carriage return inside quotes goes into the field. *)
Lemma loop_cr_inside (a b : str) :
  Nat.odd (count_quotes a) = true ->
  parseCsv_loop (a ++ CR :: b) Csv.init =
  parseCsv_loop b (keep_cr (parseCsv_loop a Csv.init)).
Proof.
  intros Hodd.
  assert (Hq : Csv.inQuotes (parseCsv_loop a Csv.init) = true).
  { rewrite (@loop_inQuotes (List.length a)) by lia.
    cbn [Csv.init Csv.inQuotes xorb]. exact Hodd. }
  rewrite loop_app_stop' by reflexivity.
  destruct (parseCsv_loop a Csv.init) as [rows row field q].
  cbn [Csv.inQuotes] in Hq. subst q. reflexivity.
Qed.

Lemma loop_app_free (a b : str) st :
  begins_with_quote b = false ->
  parseCsv_loop (a ++ b) st = parseCsv_loop b (parseCsv_loop a st).
Proof.
  intros Hb. destruct b as [|c b].
  - now rewrite app_nil_r.
  - now apply loop_app_stop'.
Qed.

(** A carriage return outside quotes can be left out of the text,
    unless that puts two quote characters next to each other. *)
Lemma parseCsv_cr_outside (a b : str) :
  Nat.even (count_quotes a) = true -> begins_with_quote b = false ->
  parseCsv (a ++ CR :: b) = parseCsv (a ++ b).
Proof.
  intros Heven Hb. unfold parseCsv, parseCsv_rows.
  rewrite loop_cr_outside by exact Heven.
  now rewrite (loop_app_free a b Csv.init Hb).
Qed.

Lemma count_quotes_snoc a c :
  Nat.odd (count_quotes (a ++ [c])) =
  xorb (Nat.odd (count_quotes a)) (N.eqb c QUOTE).
Proof.
  unfold count_quotes. rewrite filter_app, length_app. cbn [filter].
  rewrite (N.eqb_sym QUOTE c).
  destruct (N.eqb c QUOTE); cbn [List.length].
  - rewrite Nat.add_1_r, Nat.odd_succ, <- Nat.negb_odd.
    now destruct (Nat.odd _).
  - rewrite Nat.add_0_r. now destruct (Nat.odd _).
Qed.

Lemma parseCsv_drop_crs s : forall a,
  parseCsv (a ++ s) = parseCsv (a ++ drop_crs (Nat.odd (count_quotes a)) s).
Proof.
  induction s as [|c s IH]; intros a; [reflexivity|].
  cbn [drop_crs].
  destruct (N.eqb c CR && negb (Nat.odd (count_quotes a))
            && negb (begins_with_quote s)) eqn:E.
  - apply andb_prop in E as [E Hs]. apply andb_prop in E as [Hc Ha].
    apply N.eqb_eq in Hc. subst c.
    apply negb_true_iff in Hs. rewrite Nat.negb_odd in Ha.
    rewrite parseCsv_cr_outside by assumption. apply IH.
  - replace (a ++ c :: s) with ((a ++ [c]) ++ s)
      by now rewrite <- app_assoc.
    rewrite (IH (a ++ [c])), count_quotes_snoc.
    now rewrite <- app_assoc.
Qed.

End CarriageReturnFacts.

(* ================================================================= *)
(** * The stated properties *)

Section ModelBuilder.

(** C1.  A row whose first cell, trimmed, is one or more ASCII digits
    starts exactly one new section, whatever rows come before it: the
    sections of the rows before it stay as they are, the new section
    follows them, takes the items of the item rows up to the next section
    row, and the rest of the input goes on from that row.  Its fields are
    read positionally: the id is the Number for the decimal value of the
    first cell, the image reference comes from the second cell, the title
    from the third, the subtitle from the fourth, the scale from the
    fifth (100 when absent) and the title offset from the sixth (0 when
    absent). *)
Theorem section_row_starts_section :
  forall (pre : list (list str)) (r : list str) (post : list (list str)),
    trim (orElse (at_ r 0) []) <> [] ->
    forallb is_digit (trim (orElse (at_ r 0) [])) = true ->
    rowsToSections (pre ++ r :: post) =
      rowsToSections pre ++
      Section_.mk
        (Number_of_decimal false (digits_value (trim (orElse (at_ r 0) []))) 0)
        (trim (unquote (orElse (at_ r 1) [])))
        (trim (orElse (at_ r 2) []))
        (trim (orElse (at_ r 3) []))
        (parsePercentCell (at_ r 4) 100%float)
        (parseNumberCell (at_ r 5) 0%float)
        (items_of_rows (item_rows post))
      :: rowsToSections (next_section post)
    /\ parsePercentCell None 100%float = 100%float
    /\ parseNumberCell None 0%float = 0%float.
Proof.
  intros pre r post Hne Hd. split; [|split; reflexivity].
  pose proof (is_section_row_digits r Hne Hd) as Hr.
  rewrite rowsToSections_cut by exact Hr.
  rewrite rowsToSections_head by exact Hr.
  unfold section_of_row, with_items. cbn.
  now rewrite parseInt10_digits by assumption.
Qed.

Lemma section_row_starts_section_witness :
  rowsToSections
    (firstn 4 ex_rows ++ nth 4 ex_rows [] :: skipn 5 ex_rows) =
  rowsToSections (firstn 4 ex_rows) ++ [ex_yard].
Proof.
  exact (proj1 (section_row_starts_section (firstn 4 ex_rows)
                  (nth 4 ex_rows []) (skipn 5 ex_rows)
                  ltac:(vm_compute; discriminate)
                  ltac:(vm_compute; reflexivity))).
Defined.

(** C7.  Item rows before any section row are dropped: rows without a
    section row give no section at all, leading rows without a section
    row do not show in the result, and the one-row input
    [A,http://x,1,1,green,15] gives the empty list. *)
Theorem orphan_rows_discarded :
  forall (pre rest : list (list str)),
    forallb (fun r => negb (is_section_row r)) pre = true ->
    rowsToSections pre = []
    /\ rowsToSections (pre ++ rest) = rowsToSections rest
    /\ rowsToSections (parseCsv (lit "A,http://x,1,1,green,15")) = [].
Proof.
  intros pre rest H. unfold rowsToSections.
  fold (run pre ([], None)). fold (run (pre ++ rest) ([], None)).
  rewrite run_app, (run_orphans pre H).
  repeat split; vm_compute; reflexivity.
Qed.

Lemma orphan_rows_discarded_witness :
  rowsToSections (firstn 1 ex_rows) = []
  /\ rowsToSections (firstn 1 ex_rows ++ skipn 4 ex_rows) =
     rowsToSections (skipn 4 ex_rows)
  /\ rowsToSections (parseCsv (lit "A,http://x,1,1,green,15")) = [].
Proof.
  apply (orphan_rows_discarded (firstn 1 ex_rows) (skipn 4 ex_rows)).
  vm_compute; reflexivity.
Defined.

(** C6.  An item row whose x or y cell does not give a finite number adds
    nothing: the result is that of the input without the row, so its
    section is still there and every other row counts as before.  An
    absent cell, a cell that is empty after trimming and a cell whose
    text is no finite number are such cells. *)
Theorem non_finite_item_dropped :
  forall (pre : list (list str)) (r : list str) (post : list (list str)),
    is_section_row r = false ->
    isFinite (parseNumberCell (at_ r 2) NaN) = false \/
    isFinite (parseNumberCell (at_ r 3) NaN) = false ->
    rowsToSections (pre ++ r :: post) = rowsToSections (pre ++ post)
    /\ (forall cell,
          isFinite (parseNumberCell cell NaN) = false <->
          match cell with
          | None => True
          | Some c => trim c = [] \/ isFinite (parseFloat (trim c)) = false
          end).
Proof.
  intros pre r post Hr Hxy. split; [|exact parseNumberCell_NaN].
  assert (Hnone : row_item r = None).
  { unfold row_item, item_of_row.
    destruct (is_empty _); [reflexivity|].
    destruct Hxy as [-> | ->]; simpl; [reflexivity|].
    now rewrite orb_true_r. }
  unfold rowsToSections.
  fold (run (pre ++ r :: post) ([], None)). fold (run (pre ++ post) ([], None)).
  rewrite !run_app, run_cons.
  now rewrite step_noop.
Qed.

Lemma non_finite_item_dropped_witness :
  rowsToSections (firstn 3 ex_rows ++ nth 3 ex_rows [] :: skipn 4 ex_rows) =
  rowsToSections (firstn 3 ex_rows ++ skipn 4 ex_rows).
Proof.
  exact (proj1 (non_finite_item_dropped (firstn 3 ex_rows)
                  (nth 3 ex_rows []) (skipn 4 ex_rows)
                  ltac:(vm_compute; reflexivity)
                  ltac:(left; vm_compute; reflexivity))).
Defined.

End ModelBuilder.

Section PopupController.

Import Popup.

(** C5.  With the popup hidden, a click on a text marker of a section
    shows and pins the popup, and a second click on the same marker hides
    it at once.  The same two clicks after the pointer has entered the
    marker, whatever the state before, also pin the popup and then hide
    it. *)
Theorem click_same_marker_twice :
  forall (rows : list (list str)) (sec : Section_.t) (it : Item.t)
         (s : Popup.state),
    In sec (rowsToSections rows) ->
    In it (Section_.items sec) ->
    Item.isUrl it = false ->
    (mode_of s = Hidden ->
     mode_of (handle (Click it) s) = ShownPinned
     /\ mode_of (handle (Click it) (handle (Click it) s)) = Hidden)
    /\ mode_of (handle (PointerEnter it) s) = ShownHover
    /\ mode_of (handle (Click it) (handle (PointerEnter it) s)) = ShownPinned
    /\ mode_of (handle (Click it)
                  (handle (Click it) (handle (PointerEnter it) s))) = Hidden.
Proof.
  intros rows sec it s Hsec Hit Hurl.
  destruct (items_finite rows sec it Hsec Hit) as [Hx Hy].
  pose proof (finite_eqb_refl _ Hx) as Ex.
  pose proof (finite_eqb_refl _ Hy) as Ey.
  split.
  - intros Hh.
    assert (Hhid : hidden s = true).
    { unfold mode_of in Hh. destruct (hidden s); [reflexivity|].
      destruct (pinned s); discriminate. }
    unfold handle. rewrite Hurl, Hhid. cbn.
    split; [reflexivity|].
    unfold sameMarker; cbn. now rewrite Ex, Ey.
  - unfold handle. rewrite Hurl. cbn.
    split; [reflexivity|].
    unfold sameMarker; cbn. rewrite Ex, Ey. cbn.
    split; [reflexivity|]. now rewrite Ex, Ey.
Qed.

Lemma click_same_marker_twice_witness :
  mode_of (handle (Click ex_note) Popup.init) = ShownPinned
  /\ mode_of (handle (Click ex_note) (handle (Click ex_note) Popup.init))
     = Hidden.
Proof.
  apply (proj1 (click_same_marker_twice ex_rows ex_yard ex_note Popup.init
                  ltac:(vm_compute; right; left; reflexivity)
                  ltac:(left; reflexivity)
                  ltac:(reflexivity))).
  reflexivity.
Defined.

End PopupController.

Section TabularParser.

(** C8.  A doubled quote inside a quoted field gives exactly one quote in
    the cell, where it stands: a line of quoted fields, one of which has
    a quote between [a] and [b], is read as one row whose cell for that
    field is [a], one quote and [b] (trimmed at the two ends).  And a
    doubled quote is the only source of a quote in a cell: a text without
    two adjacent quotes gives cells without any quote. *)
Theorem doubled_quote_is_one_quote :
  (forall (before after : list str) (a b : str),
     parseCsv
       (csv_line (map quote_field (before ++ (a ++ QUOTE :: b) :: after))) =
     [map trim before ++ (trimStart a ++ QUOTE :: trimEnd b) :: map trim after])
  /\ (forall text : str,
        no_doubled_quote text = true ->
        rows_lack QUOTE (parseCsv text) = true).
Proof.
  split.
  - intros before after a b.
    assert (E : exists f fields,
               before ++ (a ++ QUOTE :: b) :: after = f :: fields
               /\ (f <> [] \/ fields <> [])).
    { destruct before as [|f before]; simpl.
      - exists (a ++ QUOTE :: b), after. split; [reflexivity|].
        left. now destruct a.
      - exists f, (before ++ (a ++ QUOTE :: b) :: after).
        split; [reflexivity|]. right. now destruct before. }
    destruct E as (f & fields & E & Hne).
    rewrite E, parseCsv_quoted_line by exact Hne.
    rewrite <- E, map_app. cbn [map].
    now rewrite trim_around by reflexivity.
  - intros text H. apply parseCsv_lacks.
    now apply loop_lacks_quote.
Qed.

Lemma doubled_quote_is_one_quote_witness :
  rows_lack QUOTE
    (parseCsv (lit "B," ++ [QUOTE] ++ lit "call me" ++ [QUOTE] ++ lit ",50"))
  = true.
Proof.
  apply (proj2 doubled_quote_is_one_quote). vm_compute. reflexivity.
Defined.

(** C4, as the code has it.  For every text, a carriage return outside
    quotes, that is, one with an even number of quote characters before
    it, is discarded: the parser goes on from the state it has reached
    before it, and the text gives the same rows without it, provided
    that no quote character follows it directly (leaving it out would
    then put two quote characters next to each other).  So every text
    gives the rows of the text without these carriage returns, and a
    text all of whose carriage returns are outside quotes gives cells
    without any.  Inside quotes, after an odd number of quote
    characters, a carriage return is content like any other code unit:
    it is appended to the field, and the cell of a quoted field is its
    content, trimmed. *)
Theorem cr_outside_quotes_discarded :
  (forall a b : str,
     Nat.even (count_quotes a) = true ->
     parseCsv_loop (a ++ CR :: b) Csv.init =
     parseCsv_loop b (parseCsv_loop a Csv.init))
  /\ (forall a b : str,
        Nat.even (count_quotes a) = true -> begins_with_quote b = false ->
        parseCsv (a ++ CR :: b) = parseCsv (a ++ b))
  /\ (forall text : str, parseCsv text = parseCsv (drop_crs false text))
  /\ (forall text : str,
        crs_outside_quotes false text = true ->
        rows_lack CR (parseCsv text) = true)
  /\ (forall a b : str,
        Nat.odd (count_quotes a) = true ->
        parseCsv_loop (a ++ CR :: b) Csv.init =
        parseCsv_loop b (keep_cr (parseCsv_loop a Csv.init)))
  /\ (forall s : str, s <> [] -> parseCsv (quote_field s) = [[trim s]]).
Proof.
  split; [exact loop_cr_outside|].
  split; [exact parseCsv_cr_outside|].
  split; [intros text; exact (parseCsv_drop_crs text [])|].
  split; [|split].
  - intros text H. apply parseCsv_lacks.
    apply loop_lacks_CR with (n := List.length text); auto.
  - exact loop_cr_inside.
  - intros s Hs.
    apply (@parseCsv_quoted_line s []). now left.
Qed.

Lemma cr_outside_quotes_discarded_witness :
  parseCsv (lit "a" ++ CR :: lit "b," ++ [QUOTE] ++ lit "c" ++ [CR]
            ++ lit "d" ++ [QUOTE]) =
  parseCsv (lit "a" ++ lit "b," ++ [QUOTE] ++ lit "c" ++ [CR]
            ++ lit "d" ++ [QUOTE])
  /\ rows_lack CR
       (parseCsv (lit "0,a.png" ++ [CR; LF] ++ lit "A," ++ [QUOTE]
                  ++ lit "call me" ++ [QUOTE] ++ lit ",5" ++ [CR]
                  ++ lit "0,50" ++ [CR; LF])) = true
  /\ parseCsv (quote_field (lit "a" ++ [CR] ++ lit "b")) =
     [[lit "a" ++ [CR] ++ lit "b"]].
Proof.
  split; [|split].
  - apply (proj1 (proj2 cr_outside_quotes_discarded)); reflexivity.
  - apply (proj1 (proj2 (proj2 (proj2 cr_outside_quotes_discarded)))).
    vm_compute. reflexivity.
  - apply (proj2 (proj2 (proj2 (proj2 (proj2 cr_outside_quotes_discarded))))).
    discriminate.
Defined.

(** C4, as stated, fails: a carriage return between the quotes of a
    quoted field stays in the cell. *)
Lemma cr_inside_quotes_kept :
  parseCsv ([QUOTE] ++ lit "a" ++ [CR] ++ lit "b" ++ [QUOTE]) =
    [[lit "a" ++ [CR] ++ lit "b"]]
  /\ rows_lack CR
       (parseCsv ([QUOTE] ++ lit "a" ++ [CR] ++ lit "b" ++ [QUOTE])) = false.
Proof. split; vm_compute; reflexivity. Qed.

End TabularParser.

Section CellCoercion.

(** C2.  The link classification is a function of the content string
    alone: a string is navigable exactly when, trimmed, it begins with
    http://, https:// or mailto: in any mix of upper and lower case.  The
    empty string is not navigable, and the flag of every item of every
    section is this test on the item's content. *)
Theorem classification_is_prefix_test :
  (forall s : str, isNavigableUrl s = begins_with_scheme s)
  /\ isNavigableUrl [] = false
  /\ (forall rows sec it,
        In sec (rowsToSections rows) -> In it (Section_.items sec) ->
        Item.isUrl it = begins_with_scheme (Item.linkOrText it)).
Proof.
  split; [exact isNavigableUrl_spec|]. split; [reflexivity|].
  intros rows sec it Hsec Hit.
  destruct (rowsToSections_items rows sec it Hsec Hit) as (r & _ & E).
  rewrite <- isNavigableUrl_spec. now apply row_item_isUrl in E.
Qed.

Lemma classification_is_prefix_test_witness :
  Item.isUrl ex_link = begins_with_scheme (Item.linkOrText ex_link).
Proof.
  apply (proj2 (proj2 classification_is_prefix_test) ex_rows ex_hall ex_link).
  - vm_compute. left. reflexivity.
  - left. reflexivity.
Defined.

End CellCoercion.

Section QuoteStripping.

(** C10, as the code has it.  The image reference of a section and the
    content of an item go through a second removal of quotes: a cell that
    is a double quote, code units none of which is a line terminator,
    and a double quote loses that outer pair and is trimmed again; any
    other cell, among them a quoted cell that spans lines, is only
    trimmed.  The other fields of the sections and items of a result are
    read from the cells of their row without this step. *)
Theorem outer_quotes_stripped_on_one_line :
  (forall mid : str,
     forallb dot mid = true -> unquote (QUOTE :: mid ++ [QUOTE]) = mid)
  /\ (forall s : str,
        (forall mid, s = QUOTE :: mid ++ [QUOTE] -> forallb dot mid = false) ->
        unquote s = s)
  /\ (forall (rows : list (list str)) (sec : Section_.t),
        In sec (rowsToSections rows) ->
        exists r, In r rows
        /\ Section_.imageUrl sec = trim (unquote (orElse (at_ r 1) []))
        /\ Section_.title sec = trim (orElse (at_ r 2) [])
        /\ Section_.subtitle sec = trim (orElse (at_ r 3) [])
        /\ Section_.scalePercent sec = parsePercentCell (at_ r 4) 100%float
        /\ Section_.titleYOffsetPx sec = parseNumberCell (at_ r 5) 0%float)
  /\ (forall (rows : list (list str)) (sec : Section_.t) (it : Item.t),
        In sec (rowsToSections rows) -> In it (Section_.items sec) ->
        exists r, In r rows
        /\ Item.linkOrText it = trim (unquote (orElse (at_ r 1) []))
        /\ Item.name it = trim (orElse (at_ r 0) [])
        /\ Item.x it = parseNumberCell (at_ r 2) NaN
        /\ Item.y it = parseNumberCell (at_ r 3) NaN
        /\ Item.color it =
             (if is_empty (trim (orElse (at_ r 4) (lit "green")))
              then lit "green"
              else trim (orElse (at_ r 4) (lit "green")))
        /\ Item.radius it = parseNumberCell (at_ r 5) 15%float).
Proof.
  split; [exact unquote_quoted|]. split; [exact unquote_other|].
  split.
  - intros rows sec Hsec.
    destruct (rowsToSections_sections rows sec Hsec) as (r & Hr & _ & E).
    exists r. split; [exact Hr|]. rewrite E. now repeat split.
  - intros rows sec it Hsec Hit.
    destruct (rowsToSections_items rows sec it Hsec Hit) as (r & Hr & E).
    exists r. split; [exact Hr|].
    destruct (row_item_fields r E) as (H0 & H1 & H2 & H3 & H4 & H5).
    now repeat split.
Qed.

Lemma outer_quotes_stripped_on_one_line_witness :
  unquote (QUOTE :: lit "x" ++ [QUOTE]) = lit "x"
  /\ unquote (QUOTE :: (lit "a" ++ [LF] ++ lit "b") ++ [QUOTE]) =
     QUOTE :: (lit "a" ++ [LF] ++ lit "b") ++ [QUOTE]
  /\ (exists r, In r ex_rows
      /\ Section_.imageUrl ex_yard = trim (unquote (orElse (at_ r 1) []))
      /\ Section_.title ex_yard = trim (orElse (at_ r 2) [])
      /\ Section_.subtitle ex_yard = trim (orElse (at_ r 3) [])
      /\ Section_.scalePercent ex_yard = parsePercentCell (at_ r 4) 100%float
      /\ Section_.titleYOffsetPx ex_yard = parseNumberCell (at_ r 5) 0%float).
Proof.
  split; [|split].
  - apply (proj1 outer_quotes_stripped_on_one_line). reflexivity.
  - apply (proj1 (proj2 outer_quotes_stripped_on_one_line)).
    intros mid E. injection E as E.
    change ((lit "a" ++ [LF] ++ lit "b") ++ [QUOTE] = mid ++ [QUOTE]) in E.
    apply app_inj_tail in E as [<- _]. reflexivity.
  - apply (proj1 (proj2 (proj2 outer_quotes_stripped_on_one_line)) ex_rows).
    vm_compute. right. left. reflexivity.
Defined.

(** C10, as stated, fails: the second cell of the row of [ex_text]
    begins and ends with a quote, and the section keeps both quotes as
    part of its image reference, because a line feed stands between
    them. *)
Lemma quotes_kept_across_lines :
  parseCsv ex_text = [[lit "0"; ex_cell]]
  /\ map Section_.imageUrl (rowsToSections (parseCsv ex_text)) = [ex_cell]
  /\ ex_cell <> trim (lit "a" ++ [LF] ++ lit "b").
Proof.
  split; [vm_compute; reflexivity|].
  split; [vm_compute; reflexivity|].
  vm_compute. discriminate.
Qed.

End QuoteStripping.

Section PercentCell.

(** C9, as the code has it.  [parsePercentCell] is a total function that
    gives the fallback for an absent cell and for a cell that is empty
    after trimming; else it strips an optional trailing percent sign,
    reads the remainder as a signed decimal and gives that number when it
    is a finite Number; it gives the fallback when the remainder is no
    signed decimal, and also when the number is too large for a finite
    Number. *)
Theorem percent_cell_is_guarded_decimal :
  (forall (cell : option str) (fallback : Number),
     parsePercentCell cell fallback = percent_or_number true cell fallback)
  /\ (forall fallback : Number, parsePercentCell None fallback = fallback)
  /\ (forall (c : str) (fallback : Number),
        trim c = [] -> parsePercentCell (Some c) fallback = fallback).
Proof.
  split; [exact parsePercentCell_spec|]. split; [reflexivity|].
  intros c fallback H. unfold parsePercentCell. now rewrite H.
Qed.

Lemma percent_cell_is_guarded_decimal_witness :
  parsePercentCell (Some (lit "  ")) 100%float = 100%float.
Proof.
  apply (proj2 (proj2 percent_cell_is_guarded_decimal)). reflexivity.
Defined.

(** C9, as stated, fails: the one followed by four hundred zeros is a
    signed decimal, and the cell that holds it gives the fallback, which
    is not that number. *)
Lemma huge_percent_falls_back :
  signed_decimal (trimEnd (strip_percent (trim huge))) = Some (false, huge, [])
  /\ parsePercentCell (Some huge) 100%float = 100%float
  /\ percent_or_number false (Some huge) 100%float = infinity
  /\ parsePercentCell (Some huge) 100%float
     <> percent_or_number false (Some huge) 100%float.
Proof.
  assert (E1 : parsePercentCell (Some huge) 100%float = 100%float)
    by (vm_compute; reflexivity).
  assert (E2 : percent_or_number false (Some huge) 100%float = infinity)
    by (vm_compute; reflexivity).
  split; [vm_compute; reflexivity|].
  split; [exact E1|]. split; [exact E2|].
  rewrite E1, E2. intros H.
  assert (F : is_infinity 100%float = is_infinity infinity)
    by (rewrite H; reflexivity).
  vm_compute in F. discriminate.
Qed.

End PercentCell.

Section PopupMarkup.

(** C3, on the code.  For every input the result is made from left to
    right of the raw text: a link, that is a bracketed label followed by
    a target in parentheses, gives an activation link exactly when its
    target is navigable, and else its label with the target in
    parentheses; any other code unit is escaped; at the end every line
    feed becomes a line break.  The design's example renders as it says.
    But label and target of a link that is not navigable, and the
    address of one that is, are escaped a second time ([markup true]),
    where the statement has them escaped once ([markup false]): the two
    agree on a label and a target that need no escape, and differ on
    the target [a&b], which is shown with the text of the entity instead
    of the ampersand, and on an address with a query string, which gets
    [&amp;amp;]. *)
Theorem popup_markup_escapes_twice :
  (forall input : str,
     mdToSafeHtml input = br (markup true (S (List.length input)) input))
  /\ (forall label url : str,
        escapeHtml label = label -> escapeHtml (trim url) = trim url ->
        link_markup true label url = link_markup false label url)
  /\ mdToSafeHtml (lit "See [docs](https://example.com/d) for info") =
       lit "See " ++ anchor (lit "https://example.com/d") (lit "docs")
       ++ lit " for info"
  /\ mdToSafeHtml (lit "[x](a&b)") = lit "x (a&amp;amp;b)"
  /\ br (markup false 9 (lit "[x](a&b)")) = lit "x (a&amp;b)"
  /\ mdToSafeHtml (lit "[q](https://x.test/?a=1&b=2)") =
       anchor (lit "https://x.test/?a=1&amp;amp;b=2") (lit "q")
  /\ br (markup false 29 (lit "[q](https://x.test/?a=1&b=2)")) =
       anchor (lit "https://x.test/?a=1&amp;b=2") (lit "q").
Proof.
  split; [exact mdToSafeHtml_markup|]. split.
  - intros label url Hl Hu. unfold link_markup. cbv beta zeta iota.
    now rewrite !Hl, !Hu.
  - repeat split; vm_compute; reflexivity.
Qed.

Lemma popup_markup_escapes_twice_witness :
  link_markup true (lit "docs") (lit " https://example.com/d ") =
  link_markup false (lit "docs") (lit " https://example.com/d ").
Proof.
  apply (proj1 (proj2 popup_markup_escapes_twice)); reflexivity.
Defined.

End PopupMarkup.

(* ================================================================= *)
(** * Further properties of the code *)

Section Lines.

(** X1.  A text without a quote character is read as lines and cells:
    the carriage returns are dropped, the text is cut at the line feeds
    and every line at its commas, and the cells are trimmed.  An empty
    line inside the text gives a row of one empty cell; the empty line
    after a last line feed gives none, and so does the empty text. *)
Theorem unquoted_text_is_split (text : str) :
  lacks QUOTE text = true -> parseCsv text = unquoted_rows text.
Proof.
  intros Hq. unfold parseCsv, parseCsv_rows, unquoted_rows.
  rewrite (loop_unquoted text Hq). cbv zeta.
  set (L := split LF (without CR text)).
  cbn [Csv.rows Csv.row Csv.field].
  rewrite split_cond.
  destruct (is_empty (last L [])); cbn [negb].
  - now rewrite map_map.
  - rewrite split_parts.
    change [split 44 (last L [])] with (map (split 44) [last L []]).
    rewrite <- map_app. unfold L at 1 2. rewrite split_parts.
    now rewrite map_map.
Qed.

Lemma unquoted_text_is_split_witness :
  parseCsv (lit "a , b" ++ [CR; LF; LF] ++ lit "1,,2" ++ [LF]) =
  unquoted_rows (lit "a , b" ++ [CR; LF; LF] ++ lit "1,,2" ++ [LF]).
Proof.
  apply unquoted_text_is_split. reflexivity.
Defined.

(** X2.  Writing and reading a table.  When every field is written in
    quotes with its quotes doubled, the fields of a row are separated
    by commas and every row ends with a line feed, [parseCsv] gives the
    table back with every field trimmed, whatever the fields hold:
    commas, line feeds, carriage returns and quotes are content there.
    The rows must have a field each. *)
Theorem quoted_table_round_trip (rows : list (list str)) :
  full rows = true ->
  parseCsv (csv_text rows) = map (map trim) rows.
Proof.
  intros H. unfold parseCsv, parseCsv_rows, Csv.init.
  rewrite loop_csv_text by exact H. reflexivity.
Qed.

Lemma quoted_table_round_trip_witness :
  parseCsv
    (csv_text [[lit "a,b"; [QUOTE; LF; CR; QUOTE]]; [[]]; [lit " c "; []]]) =
  map (map trim) [[lit "a,b"; [QUOTE; LF; CR; QUOTE]]; [[]]; [lit " c "; []]].
Proof.
  apply quoted_table_round_trip. reflexivity.
Defined.

(** X3.  The parser is inside quotes exactly after an odd number of
    quote characters.  So a line feed that has an even number of quote
    characters before it ends a row, and what follows it is read on its
    own: the rows of the whole text are those of the text up to the line
    feed, followed by those of the rest. *)
Theorem rows_end_at_line_feeds (a b : str) :
  Csv.inQuotes (parseCsv_loop a Csv.init) = Nat.odd (count_quotes a)
  /\ (Nat.even (count_quotes a) = true ->
      parseCsv (a ++ LF :: b) = parseCsv (a ++ [LF]) ++ parseCsv b).
Proof.
  split.
  - rewrite (@loop_inQuotes (List.length a)) by lia.
    reflexivity.
  - apply parseCsv_line_feed.
Qed.

Lemma rows_end_at_line_feeds_witness :
  parseCsv ((lit "1," ++ quote_field (lit "x, y")) ++ LF :: lit "A,b") =
  parseCsv ((lit "1," ++ quote_field (lit "x, y")) ++ [LF])
    ++ parseCsv (lit "A,b").
Proof.
  apply (proj2 (rows_end_at_line_feeds _ _)). reflexivity.
Defined.

(** X4.  Every row of the result has a first cell, and no cell of the
    result begins or ends with white space: trimming it again changes
    nothing. *)
Theorem rows_have_cells_and_cells_are_trimmed (text : str) (r : list str) :
  In r (parseCsv text) ->
  at_ r 0 <> None /\ forall c, In c r -> trim c = c.
Proof.
  intros Hr. unfold parseCsv in Hr. apply in_map_iff in Hr as (r0 & <- & Hr0).
  split.
  - assert (F : full (parseCsv_rows text) = true).
    { unfold parseCsv_rows.
      pose proof (@loop_full (List.length text) text Csv.init (le_n _) eq_refl) as F.
      destruct (_ || _); [now apply full_snoc | exact F]. }
    unfold full in F. rewrite forallb_forall in F. specialize (F r0 Hr0).
    destruct r0; [discriminate | discriminate].
  - intros c Hc. apply in_map_iff in Hc as (c0 & <- & _). apply trim_idem.
Qed.

Lemma rows_have_cells_and_cells_are_trimmed_witness :
  at_ [lit "a"; lit "b"] 0 <> None /\ trim (lit "b") = lit "b".
Proof.
  assert (H : In [lit "a"; lit "b"] (parseCsv (lit " a, b ")))
    by (vm_compute; left; reflexivity).
  destruct (rows_have_cells_and_cells_are_trimmed (lit " a, b ") _ H)
    as [H1 H2].
  split; [exact H1 | apply H2; right; left; reflexivity].
Defined.

(** X5.  A quote that is never closed takes the rest of the text: all
    that follows it, commas and line feeds too, is one cell, trimmed.
    This holds at the start of the text and after a line feed that ends
    a row. *)
Theorem unterminated_quote_takes_the_rest (s : str) :
  lacks QUOTE s = true -> s <> [] ->
  parseCsv (QUOTE :: s) = [[trim s]]
  /\ forall a, Nat.even (count_quotes a) = true ->
       parseCsv (a ++ LF :: QUOTE :: s) = parseCsv (a ++ [LF]) ++ [[trim s]].
Proof.
  intros H Hne. split; [now apply parseCsv_unterminated|].
  intros a Ha. rewrite parseCsv_line_feed by exact Ha.
  now rewrite parseCsv_unterminated.
Qed.

Lemma unterminated_quote_takes_the_rest_witness :
  parseCsv (QUOTE :: lit "a,b" ++ [LF] ++ lit "c") =
  [[trim (lit "a,b" ++ [LF] ++ lit "c")]].
Proof.
  apply (@unterminated_quote_takes_the_rest (lit "a,b" ++ [LF] ++ lit "c")).
  - reflexivity.
  - intros E; vm_compute in E; discriminate E.
Defined.

(** X6.  Quotes need not stand at the ends of a field.  A part in
    quotes in the middle of a field is joined with what stands before
    and after it: the quotes are dropped, and the field is the three
    parts together, trimmed. *)
Theorem quotes_join_inside_a_field (a b c : str) :
  forallb plain a = true -> forallb plain c = true -> a ++ b ++ c <> [] ->
  parseCsv (a ++ quote_field b ++ c) = [[trim (a ++ b ++ c)]].
Proof.
  intros Ha Hc Hne. unfold parseCsv, parseCsv_rows, Csv.init.
  rewrite loop_plain by exact Ha.
  rewrite loop_quote_field.
  - rewrite loop_plain_end by exact Hc.
    cbn [Csv.rows Csv.row Csv.field app].
    rewrite <- app_assoc.
    apply is_empty_false in Hne. rewrite Hne. reflexivity.
  - destruct c as [|x c]; [exact I|].
    cbn [forallb] in Hc. apply andb_prop in Hc as [Hx _].
    unfold plain in Hx. apply negb_true_iff in Hx.
    rewrite !orb_false_iff in Hx. now destruct Hx as [[[H1 _] _] _].
Qed.

Lemma quotes_join_inside_a_field_witness :
  parseCsv (lit "ab" ++ quote_field (lit "c,d") ++ lit "ef") =
  [[trim (lit "ab" ++ lit "c,d" ++ lit "ef")]].
Proof.
  apply quotes_join_inside_a_field; try reflexivity.
  intros E; vm_compute in E; discriminate E.
Defined.

End Lines.

Section Grouping.

(** X7.  [rowsToSections] as a whole: the result has one section for
    each section row of the input, in input order, whatever the ids are
    (two rows with the same id give two sections); its fields are read
    from that row, and its items are those of the rows that follow the
    row up to the next section row. *)
Theorem sections_are_groups (rows : list (list str)) :
  rowsToSections rows = map section_of_group (group rows)
  /\ map fst (group rows) = filter is_section_row rows
  /\ List.length (rowsToSections rows) =
     List.length (filter is_section_row rows).
Proof.
  split; [apply rowsToSections_group|].
  split; [apply map_fst_group | apply length_rowsToSections].
Qed.

(** X8.  A row whose first cell is missing or blank, the empty row
    among them, is skipped wherever it stands: the result is that of
    the input without the row. *)
Theorem blank_first_cell_row_skipped (pre post : list (list str))
    (r : list str) :
  is_empty (trim (orElse (at_ r 0) [])) = true ->
  rowsToSections (pre ++ r :: post) = rowsToSections (pre ++ post).
Proof.
  intros H. unfold rowsToSections.
  rewrite !fold_left_app. cbn [fold_left].
  now rewrite blank_row_noop.
Qed.

Lemma blank_first_cell_row_skipped_witness :
  rowsToSections
    ([[lit "1"; lit "a.png"]]
       ++ [lit "  "; lit "text"; lit "1"; lit "2"]
       :: [[lit "A"; lit "text"; lit "3"; lit "4"]]) =
  rowsToSections
    ([[lit "1"; lit "a.png"]] ++ [[lit "A"; lit "text"; lit "3"; lit "4"]]).
Proof.
  apply blank_first_cell_row_skipped. reflexivity.
Defined.

(** X9.  What [rowsToSections] builds can be drawn as it is: the scale
    and the title offset of every section are finite Numbers, so that
    the two guards at the head of [createSectionEl] leave them as they
    are; every item has a name and a colour that are not empty, and
    finite coordinates and radius. *)
Theorem built_sections_are_drawable (rows : list (list str))
    (sec : Section_.t) :
  In sec (rowsToSections rows) ->
  isFinite (Section_.scalePercent sec) = true
  /\ isFinite (Section_.titleYOffsetPx sec) = true
  /\ sp sec = Section_.scalePercent sec
  /\ dyPx sec = Section_.titleYOffsetPx sec
  /\ forall it, In it (Section_.items sec) ->
       Item.name it <> [] /\ Item.color it <> []
       /\ isFinite (Item.x it) = true /\ isFinite (Item.y it) = true
       /\ isFinite (Item.radius it) = true.
Proof.
  intros Hsec.
  destruct (rowsToSections_sections rows sec Hsec) as (r & _ & _ & E).
  assert (F1 : isFinite (Section_.scalePercent sec) = true).
  { rewrite E. now apply parsePercentCell_finite. }
  assert (F2 : isFinite (Section_.titleYOffsetPx sec) = true).
  { rewrite E. now apply parseNumberCell_finite. }
  split; [exact F1|]. split; [exact F2|].
  split; [unfold sp; now rewrite F1|]. split; [unfold dyPx; now rewrite F2|].
  intros it Hit.
  destruct (rowsToSections_items rows sec it Hsec Hit) as (r' & _ & E').
  destruct (row_item_drawable r' E') as (H1 & H2 & H3).
  destruct (row_item_finite r' E') as (H4 & H5).
  now repeat split.
Qed.

Lemma built_sections_are_drawable_witness :
  isFinite (Section_.scalePercent ex_yard) = true
  /\ isFinite (Section_.titleYOffsetPx ex_yard) = true
  /\ sp ex_yard = Section_.scalePercent ex_yard
  /\ dyPx ex_yard = Section_.titleYOffsetPx ex_yard
  /\ (Item.name ex_note <> [] /\ Item.color ex_note <> []
      /\ isFinite (Item.x ex_note) = true /\ isFinite (Item.y ex_note) = true
      /\ isFinite (Item.radius ex_note) = true).
Proof.
  assert (H : In ex_yard (rowsToSections ex_rows))
    by (vm_compute; right; left; reflexivity).
  destruct (built_sections_are_drawable ex_rows ex_yard H)
    as (H1 & H2 & H3 & H4 & H5).
  repeat split; try assumption; apply (H5 ex_note); left; reflexivity.
Defined.

End Grouping.

Section Composition.

(** X10.  Parsing and building together.  When the text has no two
    quote characters next to each other, no parsed cell holds a quote,
    and the second removal of quotes in [rowsToSections] changes
    nothing: the image reference of every section and the content of
    every item is the second cell of its row as [parseCsv] gave it, or
    the empty string when the row has no second cell. *)
Theorem second_stripping_is_idle (text : str) :
  no_doubled_quote text = true ->
  (forall r c, In r (parseCsv text) -> In c r -> unquote c = c)
  /\ (forall sec, In sec (rowsToSections (parseCsv text)) ->
      exists r, In r (parseCsv text)
                /\ Section_.imageUrl sec = orElse (at_ r 1) [])
  /\ (forall sec it, In sec (rowsToSections (parseCsv text)) ->
      In it (Section_.items sec) ->
      exists r, In r (parseCsv text)
                /\ Item.linkOrText it = orElse (at_ r 1) []).
Proof.
  intros Hnd. split; [|split].
  - intros r c Hr Hc. apply unquote_lacks. now apply (@cells_lack_quote text r c Hnd Hr).
  - intros sec Hsec.
    destruct (rowsToSections_sections _ sec Hsec) as (r & Hr & _ & E).
    exists r. split; [exact Hr|]. rewrite E.
    unfold with_items, section_of_row. cbn [Section_.imageUrl].
    now apply (@cell_as_parsed text).
  - intros sec it Hsec Hit.
    destruct (rowsToSections_items _ sec it Hsec Hit) as (r & Hr & E).
    exists r. split; [exact Hr|].
    destruct (row_item_fields r E) as (_ & -> & _).
    now apply (@cell_as_parsed text).
Qed.

Lemma second_stripping_is_idle_witness :
  unquote (lit "a, b") = lit "a, b".
Proof.
  apply (proj1 (second_stripping_is_idle
                  (lit "1," ++ quote_field (lit "a, b") ++ lit ",T")
                  ltac:(reflexivity))
           [lit "1"; lit "a, b"; lit "T"]).
  - vm_compute. left. reflexivity.
  - right. left. reflexivity.
Defined.

End Composition.

Section Coercions.

(** X11.  The two cell coercions agree wherever the percent pattern
    accepts the cell: a cell that [parsePercentCell] reads as a number,
    with or without its percent sign, is read by [parseNumberCell] as
    the same number, and both give the fallback when that number is not
    finite.  The converse fails: [parseNumberCell] also reads the number
    at the head of a cell such as 12px, which the pattern refuses. *)
Theorem percent_cells_read_as_numbers :
  (forall (c : str) (fallback : Number),
     match_ re_percent (trim c) <> None ->
     parsePercentCell (Some c) fallback = parseNumberCell (Some c) fallback)
  /\ parseNumberCell (Some (lit "12px")) 100%float = 12%float
  /\ parsePercentCell (Some (lit "12px")) 100%float = 100%float.
Proof.
  split; [|split; vm_compute; reflexivity].
  intros c fallback.
  unfold parsePercentCell, parseNumberCell.
  destruct (is_empty (trim c)); [reflexivity|].
  rewrite match_re_percent.
  destruct (scan_percent (trim c)) as [m1|] eqn:Es; [|congruence].
  intros _. cbn [get_cap nth].
  apply scan_percent_sound in Es
    as (neg & ip & fp & W & P & Hc & Hs & HW & HP).
  rewrite Hs.
  rewrite (@parseFloat_decimal_tail m1 neg ip fp (W ++ P) Hc (ends_number_tail W HW HP)).
  now rewrite (parseFloat_decimal Hc).
Qed.

Lemma percent_cells_read_as_numbers_witness :
  parsePercentCell (Some (lit " 50 % ")) 100%float =
  parseNumberCell (Some (lit " 50 % ")) 100%float.
Proof.
  apply (proj1 percent_cells_read_as_numbers).
  intros E; vm_compute in E; discriminate E.
Defined.

(** X12.  [parseNumberCell] reads the number at the head of a cell and
    ignores what follows: when the trimmed cell is a signed decimal
    followed by anything that does not begin with a digit, a point or an
    exponent mark, the result is the value of that signed decimal, or
    the fallback when that is not finite. *)
Theorem number_cell_reads_a_prefix (cell c T : str) (d : bool * str * str)
    (fallback : Number) :
  trim cell = c ++ T -> signed_decimal c = Some d -> ends_number T ->
  parseNumberCell (Some cell) fallback =
  if isFinite (decimal_value d) then decimal_value d else fallback.
Proof.
  intros Ht Hd HT. destruct d as [[neg ip] fp].
  apply signed_decimal_shape in Hd.
  unfold parseNumberCell. rewrite Ht.
  rewrite (@parseFloat_decimal_tail c neg ip fp T Hd HT).
  destruct Hd as (-> & Hne & _). unfold render.
  destruct ip as [|x ip]; [congruence|].
  now destruct neg.
Qed.

Lemma number_cell_reads_a_prefix_witness :
  parseNumberCell (Some (lit " -12.5px ")) 0%float =
  if isFinite (decimal_value (true, lit "12", lit "5"))
  then decimal_value (true, lit "12", lit "5") else 0%float.
Proof.
  apply (@number_cell_reads_a_prefix (lit " -12.5px ") (lit "-12.5")
           (lit "px")).
  - reflexivity.
  - reflexivity.
  - vm_compute. repeat split; reflexivity.
Defined.

End Coercions.

Section Escaping.

(** X13.  [escapeHtml] works code unit by code unit, although it is
    written as five passes over the whole string: each of the five
    special characters becomes its entity, once, and every other code
    unit stays.  So it goes through concatenation, and its result holds
    no angle bracket, no double quote and no apostrophe. *)
Theorem escapeHtml_by_code_unit :
  (forall s : str, escapeHtml s = flat_map esc1 s)
  /\ (forall s t : str, escapeHtml (s ++ t) = escapeHtml s ++ escapeHtml t)
  /\ (forall s : str, markup_free (escapeHtml s) = true).
Proof.
  split; [exact escapeHtml_flat_map|].
  split; [exact escapeHtml_app | exact markup_free_escapeHtml].
Qed.

(** X14.  [escapeHtml] loses nothing: two texts with the same escaped
    form are the same text. *)
Theorem escapeHtml_injective (s t : str) :
  escapeHtml s = escapeHtml t -> s = t.
Proof.
  rewrite !escapeHtml_flat_map. revert t.
  induction s as [|c s IH]; intros [|d t] H.
  - reflexivity.
  - exfalso. cbn [flat_map] in H. destruct (esc1_head d) as (h & u & E & _).
    rewrite E in H. discriminate.
  - exfalso. cbn [flat_map] in H. destruct (esc1_head c) as (h & u & E & _).
    rewrite E in H. discriminate.
  - cbn [flat_map] in H. apply esc1_prefix_inj in H as [-> H].
    f_equal. now apply IH.
Qed.

Lemma escapeHtml_injective_witness : lit "a<b" = lit "a<b".
Proof.
  apply (escapeHtml_injective (lit "a<b") (lit "a<b")). reflexivity.
Defined.

(** X15.  A text that lacks one of the four characters that a link is
    written with, the two brackets and the two parentheses, has no
    link: its popup markup is the text shown code unit by code unit, a
    line break for each line feed and an entity for each special
    character. *)
Theorem plain_text_is_shown (input : str) :
  lacks_link input = true ->
  mdToSafeHtml input = flat_map shown input.
Proof.
  intros H. rewrite mdToSafeHtml_markup.
  rewrite markup_no_link by (try exact H; lia).
  apply br_escapeHtml.
Qed.

Lemma plain_text_is_shown_witness :
  mdToSafeHtml (lit "1 < 2 [see (a)" ++ [LF] ++ lit "R&D") =
  flat_map shown (lit "1 < 2 [see (a)" ++ [LF] ++ lit "R&D").
Proof.
  apply plain_text_is_shown. reflexivity.
Defined.

(** X16.  The popup markup of every text is made of shown code units
    and activation links only.  A shown code unit is a line break or
    holds none of the angle brackets, the double quote and the
    apostrophe; the address of a link begins with one of the three
    schemes and holds no double quote, and its label is made of shown
    code units. *)
Theorem popup_markup_is_safe :
  (forall input : str, safe_markup (mdToSafeHtml input))
  /\ (forall c : char,
        shown c = lit "<br>" \/ markup_free (shown c) = true).
Proof.
  split.
  - intros input. rewrite mdToSafeHtml_markup. apply safe_br_markup.
  - intros c. unfold shown. destruct (N.eqb LF c); [now left|].
    right. apply markup_free_esc1.
Qed.

End Escaping.

Section MainPage.

(** X17.  [main] shows the message that no sections were found exactly
    when there is a csv parameter that is not empty, the fetch gives a
    response that is ok, and no row of the parsed text has a first cell
    of digits only.  When it shows sections, there is at least one, and
    they are the sections of the parsed text, one for each such row. *)
Theorem main_shows_sections_or_none (csvUrl : option str) (f : fetched) :
  (main csvUrl f = NoSections <->
   exists u status text,
     csvUrl = Some u /\ u <> [] /\ f = Response true status text
     /\ forallb (fun r => negb (is_section_row r)) (parseCsv text) = true)
  /\ (forall secs, main csvUrl f = Sections secs ->
      secs <> []
      /\ exists u status text,
           csvUrl = Some u /\ u <> [] /\ f = Response true status text
           /\ secs = rowsToSections (parseCsv text)
           /\ List.length secs =
              List.length (filter is_section_row (parseCsv text))).
Proof.
  split; [split|].
  - unfold main. destruct csvUrl as [u|]; [|discriminate].
    cbn [orElse]. destruct (is_empty u) eqn:Eu; [discriminate|].
    destruct f as [d|ok status text]; [discriminate|].
    destruct ok; [|discriminate]. cbn [negb].
    destruct (Nat.eqb _ 0) eqn:E; [|discriminate]. intros _.
    exists u, status, text. split; [reflexivity|].
    split; [now apply is_empty_nonnil|]. split; [reflexivity|].
    apply rowsToSections_nil. now apply length_zero_nil.
  - intros (u & status & text & -> & Hu & -> & H).
    unfold main. cbn [orElse]. apply is_empty_false in Hu. rewrite Hu.
    cbn [negb]. apply rowsToSections_nil in H. now rewrite H.
  - intros secs. unfold main. destruct csvUrl as [u|]; [|discriminate].
    cbn [orElse]. destruct (is_empty u) eqn:Eu; [discriminate|].
    destruct f as [d|ok status text]; [discriminate|].
    destruct ok; [|discriminate]. cbn [negb].
    destruct (Nat.eqb _ 0) eqn:E; [discriminate|].
    intros H. injection H as <-. split.
    + intros E'. rewrite E' in E. discriminate.
    + exists u, status, text. split; [reflexivity|].
      split; [now apply is_empty_nonnil|]. split; [reflexivity|].
      split; [reflexivity|]. apply length_rowsToSections.
Qed.

Lemma main_shows_sections_or_none_witness :
  main (Some (lit "t.csv"))
    (Response true 200 (lit "A,http://x,1,1,green,15")) = NoSections.
Proof.
  apply (proj2 (proj1 (main_shows_sections_or_none _ _))).
  exists (lit "t.csv"), 200, (lit "A,http://x,1,1,green,15").
  split; [reflexivity|].
  split; [intros E; vm_compute in E; discriminate E|].
  split; [reflexivity | vm_compute; reflexivity].
Defined.

End MainPage.

Section PopupTraces.

Import Popup.

(** X18.  After any events, from the state in which [createSectionEl]
    leaves the popup: a pinned popup is never hidden, so the popup is in
    one of the three states hidden, shown by hovering, shown and pinned;
    a popup that is shown holds the markup of a text marker that the
    pointer entered or that was clicked, and was placed by its
    coordinates; and the content of the popup is safe markup at all
    times. *)
Theorem popup_states_are_three (es : list event) :
  (pinned (run_events es init) = true ->
   hidden (run_events es init) = false)
  /\ (hidden (run_events es init) = false ->
      exists it e,
        In e es /\ shows it e
        /\ lastPopupPos (run_events es init) = Some (Item.x it, Item.y it)
        /\ content (run_events es init) = mdToSafeHtml (Item.linkOrText it))
  /\ safe_markup (content (run_events es init)).
Proof.
  destruct (run_events_inv es) as [H1 H2].
  split; [exact H1|]. split.
  - intros Hh. destruct (lastPopupPos (run_events es init)) as [p|].
    + destruct H2 as (it & e & Hin & Hs & -> & Hc). now exists it, e.
    + destruct H2 as [H2 _]. congruence.
  - destruct (lastPopupPos (run_events es init)) as [p|].
    + destruct H2 as (it & e & _ & _ & _ & ->).
      rewrite mdToSafeHtml_markup. apply safe_br_markup.
    + destruct H2 as [_ ->]. constructor.
Qed.

Lemma popup_states_are_three_witness :
  exists it e,
    In e [PointerEnter ex_link; Click ex_note; PointerLeave ex_note]
    /\ shows it e
    /\ lastPopupPos
         (run_events [PointerEnter ex_link; Click ex_note;
                      PointerLeave ex_note] init) =
       Some (Item.x it, Item.y it)
    /\ content
         (run_events [PointerEnter ex_link; Click ex_note;
                      PointerLeave ex_note] init) =
       mdToSafeHtml (Item.linkOrText it).
Proof.
  apply (proj1 (proj2 (popup_states_are_three _))). reflexivity.
Defined.

(** X19.  A popup that is shown and pinned stays so, with its content
    and its place, under every event but the pointer entering a text
    marker, a click on one, a click on the close button and a click on
    the stage: the pointer leaving the marker or the popup, the hide
    timer running out and a resize of the window do not hide it. *)
Theorem pinned_popup_stays (es : list event) (s : state) :
  forallb passive es = true ->
  pinned s = true -> hidden s = false ->
  mode_of (run_events es s) = ShownPinned
  /\ content (run_events es s) = content s
  /\ lastPopupPos (run_events es s) = lastPopupPos s.
Proof.
  revert s. induction es as [|e es IH]; intros s Hes Hp Hh.
  - cbn. unfold mode_of. now rewrite Hh, Hp.
  - cbn [forallb] in Hes. apply andb_prop in Hes as [He Hes].
    destruct (passive_keeps_pinned e s He Hp Hh) as (H1 & H2 & H3 & H4).
    cbn [run_events fold_left]. fold (run_events es (handle e s)).
    destruct (IH (handle e s) Hes H1 H2) as (G1 & G2 & G3).
    rewrite G1, G2, G3. now repeat split.
Qed.

Lemma pinned_popup_stays_witness :
  mode_of (run_events [PointerLeave ex_note; TimerFires; Resize;
                       Click ex_link; PopupLeave; TimerFires]
             (handle (Click ex_note) init)) = ShownPinned
  /\ content (run_events [PointerLeave ex_note; TimerFires; Resize;
                          Click ex_link; PopupLeave; TimerFires]
                (handle (Click ex_note) init)) =
     content (handle (Click ex_note) init)
  /\ lastPopupPos (run_events [PointerLeave ex_note; TimerFires; Resize;
                               Click ex_link; PopupLeave; TimerFires]
                     (handle (Click ex_note) init)) =
     lastPopupPos (handle (Click ex_note) init).
Proof.
  apply pinned_popup_stays; reflexivity.
Defined.

(** X20.  A hidden popup stays hidden, with the content it has, until
    the pointer enters a text marker or a text marker is clicked: no
    timer, no resize, no click elsewhere and no event on a link marker
    shows it. *)
Theorem hidden_popup_stays (es : list event) (s : state) :
  forallb quiet es = true -> hidden s = true ->
  mode_of (run_events es s) = Hidden
  /\ content (run_events es s) = content s.
Proof.
  revert s. induction es as [|e es IH]; intros s Hes Hh.
  - cbn. unfold mode_of. now rewrite Hh.
  - cbn [forallb] in Hes. apply andb_prop in Hes as [He Hes].
    destruct (quiet_keeps_hidden e s He Hh) as [H1 H2].
    cbn [run_events fold_left]. fold (run_events es (handle e s)).
    destruct (IH (handle e s) Hes H1) as [G1 G2].
    now rewrite G1, G2.
Qed.

Lemma hidden_popup_stays_witness :
  mode_of (run_events [TimerFires; Resize; Click ex_link; StageClick;
                       PointerLeave ex_note] init) = Hidden
  /\ content (run_events [TimerFires; Resize; Click ex_link; StageClick;
                          PointerLeave ex_note] init) = content init.
Proof.
  apply hidden_popup_stays; reflexivity.
Defined.

(** X21.  Hovering.  In every state, a pinned one too, the pointer
    entering a text marker shows the popup with the markup of that
    marker and takes the pin off.  When the pointer leaves the marker
    the popup stays until the hide timer runs out, and is hidden then;
    if the pointer enters the popup or the marker before that, the timer
    is cancelled and the popup stays; after the pointer leaves the popup
    the timer hides it. *)
Theorem hover_shows_and_leaving_hides (it : Item.t) (s : state) :
  Item.isUrl it = false ->
  (mode_of (run_events [PointerEnter it] s) = ShownHover
   /\ content (run_events [PointerEnter it] s) =
      mdToSafeHtml (Item.linkOrText it))
  /\ mode_of (run_events [PointerEnter it; PointerLeave it] s) = ShownHover
  /\ mode_of (run_events [PointerEnter it; PointerLeave it; TimerFires] s)
     = Hidden
  /\ mode_of (run_events [PointerEnter it; PointerLeave it; PopupEnter;
                          TimerFires] s) = ShownHover
  /\ mode_of (run_events [PointerEnter it; PointerLeave it; PopupEnter;
                          PopupLeave; TimerFires] s) = Hidden
  /\ mode_of (run_events [PointerEnter it; PointerLeave it;
                          PointerEnter it; TimerFires] s) = ShownHover.
Proof.
  intros Hu. destruct s as [h p t l c].
  unfold run_events. cbn [fold_left handle]. rewrite Hu. cbn.
  now repeat split.
Qed.

Lemma hover_shows_and_leaving_hides_witness :
  mode_of (run_events [PointerEnter ex_note; PointerLeave ex_note;
                       TimerFires] (handle (Click ex_note) init)) = Hidden.
Proof.
  apply (hover_shows_and_leaving_hides ex_note (handle (Click ex_note) init)).
  reflexivity.
Defined.

(** X22.  A click on another text marker.  After a click on the marker
    [a] has shown and pinned the popup, a click on a text marker [b] at
    another place shows the markup of [b], pinned, at the place of [b].
    Markers are told apart by their coordinates only: when [b] has the
    coordinates of [a], the click on [b] counts as a second click on
    [a] and hides the popup, which still holds the markup of [a]. *)
Theorem click_on_another_marker (a b : Item.t) (s : state) :
  Item.isUrl a = false -> Item.isUrl b = false -> hidden s = true ->
  (same_place a b = false ->
   mode_of (run_events [Click a; Click b] s) = ShownPinned
   /\ content (run_events [Click a; Click b] s) =
      mdToSafeHtml (Item.linkOrText b)
   /\ lastPopupPos (run_events [Click a; Click b] s) =
      Some (Item.x b, Item.y b))
  /\ (same_place a b = true ->
      mode_of (run_events [Click a; Click b] s) = Hidden
      /\ content (run_events [Click a; Click b] s) =
         mdToSafeHtml (Item.linkOrText a)).
Proof.
  intros Ha Hb Hh. destruct s as [h p t l c]. cbn in Hh. subst h.
  unfold run_events. cbn [fold_left handle]. rewrite Ha, Hb.
  cbn [hidden orb set_pinned show clearHideTimer positionPopupAt pinned
       hideTimer lastPopupPos content sameMarker].
  fold (same_place a b).
  split; intros E; rewrite E; cbn; now repeat split.
Qed.

Lemma click_on_another_marker_witness :
  mode_of (run_events [Click ex_note; Click ex_memo] init) = ShownPinned
  /\ content (run_events [Click ex_note; Click ex_memo] init) =
     mdToSafeHtml (Item.linkOrText ex_memo)
  /\ lastPopupPos (run_events [Click ex_note; Click ex_memo] init) =
     Some (Item.x ex_memo, Item.y ex_memo).
Proof.
  apply (click_on_another_marker ex_note ex_memo init); reflexivity.
Defined.

End PopupTraces.

Section Layout.

(** X23.  Where the popup is put.  Unless the measures give no number
    at all, the left and the top that [positionPopupAt] leaves in the
    style of the popup are at least the padding of 8 px; and when the
    popup with a padding on both sides fits into the stage, they are at
    most the size of the stage less the size of the popup less the
    padding, so that the popup lies inside the stage with its margin. *)
Theorem popup_keeps_its_margin (imgW imgH : Number)
    (rect stageRect pRect : DOMRect.t) (pxX pxY : Number) :
  (is_nan (fst (positionPopupAt_style imgW imgH rect stageRect pRect pxX pxY))
   = false ->
   PrimFloat.leb 8%float
     (fst (positionPopupAt_style imgW imgH rect stageRect pRect pxX pxY))
   = true
   /\ (PrimFloat.leb 8%float
         (room (DOMRect.width rect) (DOMRect.width pRect)) = true ->
       PrimFloat.leb
         (fst (positionPopupAt_style imgW imgH rect stageRect pRect pxX pxY))
         (room (DOMRect.width rect) (DOMRect.width pRect)) = true))
  /\ (is_nan (snd (positionPopupAt_style imgW imgH rect stageRect pRect pxX pxY))
      = false ->
      PrimFloat.leb 8%float
        (snd (positionPopupAt_style imgW imgH rect stageRect pRect pxX pxY))
      = true
      /\ (PrimFloat.leb 8%float
            (room (DOMRect.height rect) (DOMRect.height pRect)) = true ->
          PrimFloat.leb
            (snd (positionPopupAt_style imgW imgH rect stageRect pRect pxX pxY))
            (room (DOMRect.height rect) (DOMRect.height pRect)) = true)).
Proof.
  unfold positionPopupAt_style, room. cbv zeta. cbn [fst snd].
  split; intros H; now apply clamp_bounds.
Qed.

Lemma popup_keeps_its_margin_witness :
  PrimFloat.leb 8%float
    (fst (positionPopupAt_style 800%float 600%float ex_stage ex_stage
            ex_popup 700%float 100%float)) = true
  /\ (PrimFloat.leb 8%float
        (room (DOMRect.width ex_stage) (DOMRect.width ex_popup)) = true ->
      PrimFloat.leb
        (fst (positionPopupAt_style 800%float 600%float ex_stage ex_stage
                ex_popup 700%float 100%float))
        (room (DOMRect.width ex_stage) (DOMRect.width ex_popup)) = true).
Proof.
  apply (proj1 (popup_keeps_its_margin 800%float 600%float ex_stage ex_stage
                  ex_popup 700%float 100%float)).
  reflexivity.
Defined.



End Layout.

Section Markers.

(** X25.  The marker of an item of a built section links to a navigable
    address or to nothing: the value of its href, and of its xlink:href
    if it has one, is the content of the item when that begins with one
    of the three schemes, and the number sign otherwise.  No other
    content of a cell gets into an address. *)
Theorem markers_link_to_navigable_addresses (rows : list (list str))
    (sec : Section_.t) (it : Item.t) :
  In sec (rowsToSections rows) -> In it (Section_.items sec) ->
  forall (k : string) (v : str),
    In (k, v) (marker_attributes it) ->
    k = "href"%string \/ k = "xlink:href"%string ->
    (v = lit "#" /\ begins_with_scheme (Item.linkOrText it) = false)
    \/ (v = Item.linkOrText it /\ begins_with_scheme v = true).
Proof.
  intros Hsec Hit k v Hin Hk.
  destruct (rowsToSections_items rows sec it Hsec Hit) as (r & _ & E).
  destruct (row_item_isUrl r E) as [Hu _].
  rewrite isNavigableUrl_spec in Hu.
  unfold marker_attributes in Hin. rewrite Hu in Hin.
  destruct (begins_with_scheme (Item.linkOrText it)) eqn:Eb.
  - right. destruct Hin as [H|[H|[H|[H|[]]]]]; injection H as <- <-;
      try (now split); destruct Hk; discriminate.
  - left. destruct Hin as [H|[]]. injection H as <- <-. now split.
Qed.

Lemma markers_link_to_navigable_addresses_witness :
  (lit "#" = lit "#" /\ begins_with_scheme (Item.linkOrText ex_note) = false)
  \/ (lit "#" = Item.linkOrText ex_note
      /\ begins_with_scheme (lit "#") = true).
Proof.
  apply (@markers_link_to_navigable_addresses ex_rows ex_yard ex_note
           ltac:(vm_compute; right; left; reflexivity)
           ltac:(left; reflexivity)
           "href"%string (lit "#")
           ltac:(left; reflexivity)
           ltac:(left; reflexivity)).
Defined.

(** X26.  The integer-marker test holds of a cell exactly when the
    cell, trimmed, is not empty and is made of the ten ASCII digits
    only: a sign, a point or a digit of another script makes it fail. *)
Theorem integer_marker_is_digits_only :
  (forall v : str,
     isIntegerCell v =
     negb (is_empty (trim v)) && forallb is_digit (trim v))
  /\ isIntegerCell (lit " 007 ") = true
  /\ isIntegerCell (lit "-1") = false
  /\ isIntegerCell (lit "1.0") = false
  /\ isIntegerCell [1633%N; 1634%N] = false
  /\ isIntegerCell [] = false.
Proof.
  split; [exact isIntegerCell_spec|].
  repeat split; vm_compute; reflexivity.
Qed.

End Markers.
